(** * Neon meme marketplace backend: ranking and retrieval routes

    A shallow embedding of [routes/memes.js] and of [utils/helpers.js],
    followed by the properties the specification states about them.
    [routes/memes.js] holds two copies of the router; the embedding
    follows the one that reaches MongoDB through [connectToDB] and has
    the [/search-assist] route.  The other copy, written against the
    Mongoose model, has the same search, trending and popular-tags code;
    its update-upvote handler, which goes through [findById] and
    [save], is embedded beside the first ([Mongoose.update_upvote]).

    Conventions of the embedding:
    - a JavaScript string is a [string] of code units below 256;
    - a JavaScript number is a double; the ones the page arithmetic
      handles have integer values and are kept as [JS.number], with the
      rounding to 53 significant bits written out.  Where a route only
      needs the value as JSON prints it, a finite number is [Some z]
      and a value serialised as [null] (NaN, an infinity) is [None];
    - MongoDB's doubles are exact rationals ([Q]); the doubles of the
      helper [calculatePopularityScore], whose arithmetic is not on
      integers, are rounded as IEEE 754 rounds them ([Double]);
    - a [Date] is its number of milliseconds since the epoch ([Z]);
    - a handler is a function on a [World]: the catalog, the clock and the
      log of the store operations the handler has issued. *)

From Stdlib Require Import ZArith QArith Qround Qabs Qpower Lqa Lia String Ascii List Sorted Permutation.
From stdpp Require Import base option list gmap strings sorting.

Local Open Scope string_scope.
Local Open Scope Z_scope.

(* ===================================================================== *)
(** * JavaScript primitives used by the routes                            *)
(* ===================================================================== *)

Module JS.

(** [\s] of a regular expression, restricted to code units below 256:
    TAB, LF, VT, FF, CR, SPACE and NBSP. *)
Definition is_space (c : ascii) : bool :=
  let n := nat_of_ascii c in
  ((9 <=? n) && (n <=? 13) || (n =? 32) || (n =? 160))%nat.

(** [String.prototype.toLowerCase] on one code unit. *)
Definition lower_char (c : ascii) : ascii :=
  let n := nat_of_ascii c in
  if ((65 <=? n) && (n <=? 90)
      || (192 <=? n) && (n <=? 222) && negb (n =? 215))%nat
  then ascii_of_nat (n + 32) else c.

Fixpoint toLowerCase (s : string) : string :=
  match s with
  | EmptyString => EmptyString
  | String c s' => String (lower_char c) (toLowerCase s')
  end.

(** [s.split(/\s+/)]: the pieces between maximal runs of white space.  A
    run at either end leaves an empty piece there, and the empty string
    gives one empty piece. *)
Fixpoint split_ws (s : string) : list string :=
  match s with
  | EmptyString => [EmptyString]
  | String c s' =>
      let r := split_ws s' in
      if is_space c then
        match s' with
        | String c' _ => if is_space c' then r else EmptyString :: r
        | EmptyString => EmptyString :: r
        end
      else
        match r with
        | w :: ws => String c w :: ws
        | [] => [String c EmptyString]
        end
  end.

(** [String.prototype.trim]. *)
Fixpoint trim_start (s : string) : string :=
  match s with
  | String c s' => if is_space c then trim_start s' else s
  | EmptyString => EmptyString
  end.

Fixpoint trim_end (s : string) : string :=
  match s with
  | EmptyString => EmptyString
  | String c s' =>
      match trim_end s' with
      | EmptyString => if is_space c then EmptyString else String c EmptyString
      | t => String c t
      end
  end.

Definition trim (s : string) : string := trim_end (trim_start s).

(** [s.includes(sub)]. *)
Fixpoint includes (s sub : string) : bool :=
  String.prefix sub s ||
  match s with
  | EmptyString => false
  | String _ s' => includes s' sub
  end.

(** Truthiness of an optional string ([undefined] and [""] are falsy). *)
Definition truthy (q : option string) : bool :=
  match q with
  | None => false
  | Some s => negb (String.eqb s EmptyString)
  end.

(** ** Numbers

    A number is an IEEE 754 double.  [number] holds the doubles whose
    value is an integer, the two infinities and NaN; the sign of zero
    is not kept (no operation below tells [-0] from [0]). *)
Inductive number :=
| Int (z : Z)
| PInf
| NInf
| NaN.

(** [a / 2^e] rounded to the nearest integer, a tie to the even one. *)
Definition round_shift (a e : Z) : Z :=
  let q := a / 2 ^ e in
  let r := a mod 2 ^ e in
  let h := 2 ^ (e - 1) in
  if r <? h then q
  else if h <? r then q + 1
  else if Z.even q then q else q + 1.

(** The double nearest to the integer [z]: 53 significant bits, a tie to
    the even significand, an infinity once the rounded magnitude reaches
    [2^1024]. *)
Definition fl (z : Z) : number :=
  let a := Z.abs z in
  let e := Z.log2 a - 52 in
  if e <=? 0 then Int z
  else
    let r := round_shift a e * 2 ^ e in
    if 2 ^ 1024 <=? r then (if z <? 0 then NInf else PInf)
    else Int (Z.sgn z * r).

(** [Number.isSafeInteger]. *)
Definition safe (z : Z) : bool := Z.abs z <=? 2 ^ 53 - 1.

Definition inf_of_sign (s : Z) : number :=
  if 0 <? s then PInf else if s <? 0 then NInf else NaN.

(** [a - b] and [a * b]. *)
Definition sub (a b : number) : number :=
  match a, b with
  | NaN, _ | _, NaN => NaN
  | Int x, Int y => fl (x - y)
  | PInf, PInf | NInf, NInf => NaN
  | PInf, _ | _, NInf => PInf
  | NInf, _ | _, PInf => NInf
  end.

Definition mul (a b : number) : number :=
  match a, b with
  | NaN, _ | _, NaN => NaN
  | Int x, Int y => fl (x * y)
  | Int x, PInf | PInf, Int x => inf_of_sign (Z.sgn x)
  | Int x, NInf | NInf, Int x => inf_of_sign (- Z.sgn x)
  | PInf, PInf | NInf, NInf => PInf
  | PInf, NInf | NInf, PInf => NInf
  end.

(** [Math.max(a, b)] and [Math.min(a, b)]. *)
Definition max (a b : number) : number :=
  match a, b with
  | NaN, _ | _, NaN => NaN
  | PInf, _ | _, PInf => PInf
  | NInf, x | x, NInf => x
  | Int x, Int y => Int (Z.max x y)
  end.

Definition min (a b : number) : number :=
  match a, b with
  | NaN, _ | _, NaN => NaN
  | NInf, _ | _, NInf => NInf
  | PInf, x | x, PInf => x
  | Int x, Int y => Int (Z.min x y)
  end.

(** [a || d]: NaN and 0 are falsy. *)
Definition or_else (a d : number) : number :=
  match a with
  | NaN | Int 0 => d
  | _ => a
  end.

(** A number as JSON prints it: [null] for NaN and the infinities. *)
Definition finite (n : number) : option Z :=
  match n with
  | Int z => Some z
  | _ => None
  end.

(** A query parameter after destructuring with a numeric default:
    either the number written in the source or the string of the
    request.  [VNum z] is the double nearest to [z]. *)
Inductive value :=
| VNum (z : Z)
| VStr (s : string).

Definition with_default (d : Z) (p : option string) : value :=
  match p with
  | None => VNum d
  | Some s => VStr s
  end.

Definition digit_of (radix : Z) (c : ascii) : option Z :=
  let n := Z.of_nat (nat_of_ascii c) in
  let d := if (48 <=? n) && (n <=? 57) then n - 48
           else if (97 <=? n) && (n <=? 122) then n - 87
           else if (65 <=? n) && (n <=? 90) then n - 55
           else radix in
  if d <? radix then Some d else None.

(** The longest prefix of digits of [s], read in [radix] from the
    accumulator [acc]; [seen] records whether a digit was read. *)
Fixpoint read_digits (radix : Z) (seen : bool) (acc : Z) (s : string) : option Z :=
  match s with
  | String c s' =>
      match digit_of radix c with
      | Some d => read_digits radix true (acc * radix + d) s'
      | None => if seen then Some acc else None
      end
  | EmptyString => if seen then Some acc else None
  end.

Definition strip_hex_prefix (s : string) : option string :=
  match s with
  | String "0" (String x s') =>
      if (Ascii.eqb x "x" || Ascii.eqb x "X")%bool then Some s' else None
  | _ => None
  end.

(** The mathematical integer a string stands for under [parseInt(s)]
    without a radix: leading white space, an optional sign, an optional
    [0x], then the longest run of digits.  [None] is NaN. *)
Definition parseInt_string (s : string) : option Z :=
  let t := trim_start s in
  let '(sign, body) :=
    match t with
    | String "-" r => (-1, r)
    | String "+" r => (1, r)
    | _ => (1, t)
    end in
  match strip_hex_prefix body with
  | Some h => Z.mul sign <$> read_digits 16 false 0 h
  | None => Z.mul sign <$> read_digits 10 false 0 body
  end.

(** The number of decimal digits of [a > 0]. *)
Fixpoint decimal_length (fuel : nat) (a : Z) : Z :=
  match fuel with
  | O => 1
  | S fuel' => if a <? 10 then 1 else 1 + decimal_length fuel' (a / 10)
  end.

Definition number_eqb (a b : number) : bool :=
  match a, b with
  | Int x, Int y => x =? y
  | PInf, PInf | NInf, NInf => true
  | _, _ => false
  end.

(** The first digit of [Number.prototype.toString] on a double
    [v >= 10^21] of [n] decimal digits.  The digits printed are the
    shortest decimal [s * 10^(n-k)], [k] digits long, that reads back as
    [v]; among two of the same length the closer to [v], and the even
    one at equal distance.  [k] is tried from [k] upwards. *)
Fixpoint leading_digit (fuel : nat) (k n v : Z) : Z :=
  match fuel with
  | O => v / 10 ^ (n - 1)
  | S fuel' =>
      let p := 10 ^ (n - k) in
      let lo := v / p in
      let hi := lo + 1 in
      let ok_lo := number_eqb (fl (lo * p)) (Int v) in
      let ok_hi := number_eqb (fl (hi * p)) (Int v) in
      let s := if ok_lo && ok_hi
               then if v - lo * p <? hi * p - v then lo
                    else if hi * p - v <? v - lo * p then hi
                    else if Z.even lo then lo else hi
               else if ok_lo then lo else hi in
      if ok_lo || ok_hi
      then if s =? 10 ^ k then 1 else s / 10 ^ (k - 1)
      else leading_digit fuel' (k + 1) n v
  end.

(** [parseInt(v)].  A string is read as its integer and rounded to a
    double.  A number is first printed: below [10^21] in full, so that
    it reads back as itself; from [10^21] on in exponent form
    ([1e+21], [1.5e+21]), of which [parseInt] reads the first digit;
    an infinity prints as a word, which is NaN. *)
Definition parseInt_number (v : value) : number :=
  match v with
  | VStr s =>
      match parseInt_string s with
      | Some z => fl z
      | None => NaN
      end
  | VNum z =>
      match fl z with
      | Int x =>
          let a := Z.abs x in
          if a <? 10 ^ 21 then Int x
          else Int (Z.sgn x
                    * leading_digit 17 1
                        (decimal_length (Z.to_nat (Z.log2 a)) a) a)
      | _ => NaN
      end
  end.

Definition parseInt (v : value) : option Z := finite (parseInt_number v).

Fixpoint all_digits (s : string) : bool :=
  match s with
  | EmptyString => true
  | String c s' =>
      match digit_of 10 c with Some _ => all_digits s' | None => false end
  end.

(** The mathematical value of [ToNumber] on the strings that are an
    integer written in decimal: optional white space around an optional
    sign and digits; the blank string is 0.  Every other string is
    [None] here: it is NaN or a numeric literal (fraction, exponent,
    radix prefix, [Infinity]) that the integer embedding does not
    follow. *)
Definition ToNumber_string (s : string) : option Z :=
  let t := trim s in
  match t with
  | EmptyString => Some 0
  | String "-" r =>
      if all_digits r then Z.opp <$> read_digits 10 false 0 r else None
  | String "+" r =>
      if all_digits r then read_digits 10 false 0 r else None
  | _ => if all_digits t then read_digits 10 false 0 t else None
  end.

(** [ToNumber(v)] where it is a finite integer: the double nearest to
    the value written. *)
Definition ToNumber (v : value) : option Z :=
  match v with
  | VNum z => finite (fl z)
  | VStr s => ToNumber_string s ≫= fun z => finite (fl z)
  end.

(** [Math.ceil(total / limit)] as JSON prints it: [null] when the
    quotient is not finite. *)
Definition ceil_div (total limit : Z) : option Z :=
  if limit =? 0 then None else Some (- ((- total) / limit)).

End JS.

(* ===================================================================== *)
(** * utils/helpers.js                                                    *)
(* ===================================================================== *)

Module Helpers.

Record Pagination := { page : JS.number; limit : JS.number; skip : JS.number }.

(** [parseInt] of an argument that may be [undefined]. *)
Definition parseInt_arg (x : option JS.value) : JS.number :=
  match x with
  | Some v => JS.parseInt_number v
  | None => JS.NaN
  end.

Definition validatePagination (page limit : option JS.value) : Pagination :=
  let validatedPage :=
    JS.max (JS.Int 1) (JS.or_else (parseInt_arg page) (JS.Int 1)) in
  let validatedLimit :=
    JS.min (JS.Int 100)
      (JS.max (JS.Int 1) (JS.or_else (parseInt_arg limit) (JS.Int 20))) in
  {| page := validatedPage;
     limit := validatedLimit;
     skip := JS.mul (JS.sub validatedPage (JS.Int 1)) validatedLimit |}.

End Helpers.

(* ===================================================================== *)
(** * The catalog store                                                   *)
(* ===================================================================== *)

Module Store.

(** A document of the [memes] collection ([metadata] and [title], which
    no modelled route reads, are left out).  A missing description
    behaves as the empty one in every route below. *)
Record Meme := {
  _id : string;
  image_url : string;
  cloudinary_id : string;
  tags : list string;
  description : string;
  upvotes : Z;
  downloads : Z;
  createdAt : Z;
  updatedAt : Z
}.

(** Operations a handler issues against the store. *)
Inductive Op :=
| Connect
| Find
| CountDocuments
| Aggregate
| FindOneAndUpdate
| FindById
| Save.

(** [clock k] is the instant the [k]-th [new Date()] of the request
    returns.  [localTZA] is the time zone of the server: [localTZA t
    true] is the offset of local time from UTC, in milliseconds, at the
    instant [t], and [localTZA t false] the offset in force at the
    local time [t]. *)
Record World := {
  catalog : list Meme;
  clock : nat -> Z;
  ticks : nat;
  ops : list Op;
  localTZA : Z -> bool -> Z
}.

(** What a store call gives back: a value, or an exception that the
    handler's [catch] turns into a 500 response. *)
Inductive result (A : Type) :=
| Ok (a : A)
| Throw.
Arguments Ok {A} a.
Arguments Throw {A}.

(** A stable sort: [x] is placed before the first [y] with [le x y]. *)
Fixpoint insert_by {A} (le : A -> A -> bool) (x : A) (l : list A) : list A :=
  match l with
  | [] => [x]
  | y :: l' => if le x y then x :: l else y :: insert_by le x l'
  end.

Definition sort_by {A} (le : A -> A -> bool) (l : list A) : list A :=
  foldr (insert_by le) [] l.

(** [cursor.skip(s).limit(n)] of [find]: a negative skip is rejected by
    the server, limit 0 is no limit. *)
Definition skip_limit {A} (s n : Z) (l : list A) : result (list A) :=
  if s <? 0 then Throw
  else
    let l' := drop (Z.to_nat s) l in
    Ok (if n =? 0 then l' else take (Z.to_nat n) l').

(** The [$skip] and [$limit] stages of [aggregate]: the server rejects a
    negative skip and a limit that is not positive. *)
Definition stage_skip {A} (s : Z) (l : list A) : result (list A) :=
  if s <? 0 then Throw else Ok (drop (Z.to_nat s) l).

Definition stage_limit {A} (n : Z) (l : list A) : result (list A) :=
  if n <=? 0 then Throw else Ok (take (Z.to_nat n) l).

(** [$unwind: '$tags']: one copy of the document per element of its tag
    array, in order. *)
Definition unwind (l : list Meme) : list (string * Meme) :=
  flat_map (fun m => map (fun t => (t, m)) (tags m)) l.

(** [$group] by key: the documents of each group, in input order. *)
Definition group_by {V} (l : list (string * V)) : gmap string (list V) :=
  foldr (fun kv g => <[kv.1 := kv.2 :: default [] (g !! kv.1)]> g) ∅ l.

(** [$sum] and [$avg] over a group. *)
Definition sum_of {V} (f : V -> Z) (l : list V) : Z :=
  foldr (fun v acc => f v + acc) 0 l.

Definition avg_of {V} (f : V -> Z) (l : list V) : Q :=
  (inject_Z (sum_of f l) / inject_Z (Z.of_nat (length l)))%Q.

(** [$round] to [places] decimals; a tie goes to the even neighbour. *)
Definition round_half_even (q : Q) : Z :=
  let f := Qfloor q in
  match (q - inject_Z f ?= 1 # 2)%Q with
  | Lt => f
  | Gt => f + 1
  | Eq => if Z.even f then f else f + 1
  end.

Definition round_to (places : nat) (q : Q) : Q :=
  let scale := Z.pow 10 (Z.of_nat places) in
  Qmake (round_half_even (q * inject_Z scale)) (Z.to_pos scale).

(** [new RegExp(words.join('|'), 'i')] tested on [s].  For words free
    of pattern syntax (backslash and [^$.|?*+()[]{}]) the test is: some
    word occurs in [s], letter case ignored. *)
Definition regex_meta (c : ascii) : bool :=
  existsb (Ascii.eqb c)
    (ascii_of_nat 92 ::
     ["^"; "$"; "."; "|"; "?"; "*"; "+"; "("; ")"; "["; "]"; "{"; "}"]%char).

Fixpoint regex_plain (w : string) : bool :=
  match w with
  | EmptyString => true
  | String c w' => negb (regex_meta c) && regex_plain w'
  end.

Definition regex_test (words : list string) (s : string) : bool :=
  existsb (fun w => JS.includes (JS.toLowerCase s) (JS.toLowerCase w)) words.

End Store.

(* ===================================================================== *)
(** * Handlers: state, clock and store operations                         *)
(* ===================================================================== *)

Module Handler.
Import Store.

Definition t (A : Type) : Type := World -> A * World.

Definition ret {A} (a : A) : t A := fun w => (a, w).

Definition bind {A B} (c : t A) (k : A -> t B) : t B :=
  fun w => let (a, w') := c w in k a w'.

Definition log (o : Op) : t unit :=
  fun w => (tt, {| catalog := catalog w; clock := clock w;
                   ticks := ticks w; ops := ops w ++ [o];
                   localTZA := localTZA w |}).

(** [new Date()]. *)
Definition newDate : t Z :=
  fun w => (clock w (ticks w),
            {| catalog := catalog w; clock := clock w;
               ticks := S (ticks w); ops := ops w;
               localTZA := localTZA w |}).

Definition read_catalog : t (list Meme) := fun w => (catalog w, w).

Definition write_catalog (c : list Meme) : t unit :=
  fun w => (tt, {| catalog := c; clock := clock w;
                   ticks := ticks w; ops := ops w;
                   localTZA := localTZA w |}).

(** The time zone the date methods work in. *)
Definition timeZone : t (Z -> bool -> Z) := fun w => (localTZA w, w).

End Handler.

Declare Scope handler_scope.
Delimit Scope handler_scope with handler.
Notation "'do' x <- c ; k" := (Handler.bind c (fun x => k))
  (at level 10, x name, c at level 100, k at level 200) : handler_scope.
Notation "c ;; k" := (Handler.bind c (fun _ => k))
  (at level 100, k at level 200, right associativity) : handler_scope.

Module Db.
Import Store Handler.
Local Open Scope handler_scope.

Definition connectToDB : Handler.t unit := log Connect.

(** [collection.find(p).sort(..).skip(s).limit(n).toArray()].  Among
    documents that tie under the sort the store may return any order;
    the embedding keeps them in the order of the catalog.  What is
    proved of a page below holds of every such order, except where a
    statement asks that no two records tie. *)
Definition find (p : Meme -> bool) (le : Meme -> Meme -> bool) (s n : Z)
  : Handler.t (result (list Meme)) :=
  log Find ;;
  do c <- read_catalog;
  ret (skip_limit s n (sort_by le (List.filter p c))).

Definition countDocuments (p : Meme -> bool) : Handler.t Z :=
  log CountDocuments ;;
  do c <- read_catalog;
  ret (Z.of_nat (length (List.filter p c))).

(** [collection.aggregate(pipeline).toArray()]. *)
Definition aggregate {A} (pipeline : list Meme -> result A) : Handler.t (result A) :=
  log Aggregate ;;
  do c <- read_catalog;
  ret (pipeline c).

(** [collection.findOneAndUpdate({_id: oid}, update, {returnDocument:
    'after'})]: the first document with that id is replaced by its
    update; [value] is the updated document, or [null]. *)
Definition findOneAndUpdate (oid : string) (update : Meme -> Meme)
  : Handler.t (option Meme) :=
  log FindOneAndUpdate ;;
  do c <- read_catalog;
  match list_find (fun m => _id m = oid) c with
  | Some (i, m) => write_catalog (<[i := update m]> c) ;; ret (Some (update m))
  | None => ret None
  end.

(** [Model.findById(oid)] of Mongoose: the first document with that
    id and its place, or [null]. *)
Definition findById (oid : string) : Handler.t (option (nat * Meme)) :=
  log FindById ;;
  do c <- read_catalog;
  ret (list_find (fun m => _id m = oid) c).

(** [doc.save()] of Mongoose once the validators have passed: the
    modified paths of the document are written to the document of the
    store with its id. *)
Definition save (doc : Meme) : Handler.t unit :=
  log Save ;;
  do c <- read_catalog;
  match list_find (fun m => _id m = _id doc) c with
  | Some (i, _) => write_catalog (<[i := doc]> c)
  | None => ret tt
  end.

End Db.

(* ===================================================================== *)
(** * Response bodies                                                     *)
(* ===================================================================== *)

Module Api.

(** The fields every listing copies from a document. *)
Record MemeView := {
  id : string;
  image_url : string;
  tags : list string;
  upvotes : Z;
  downloads : Z;
  description : string;
  createdAt : Z
}.

Definition view (m : Store.Meme) : MemeView :=
  {| id := Store._id m;
     image_url := Store.image_url m;
     tags := Store.tags m;
     upvotes := Store.upvotes m;
     downloads := Store.downloads m;
     description := Store.description m;
     createdAt := Store.createdAt m |}.

Record ScoredMeme := { meme : MemeView; relevanceScore : Z }.

Record TrendingMeme := {
  trending : MemeView;
  trendingScore : Q;
  daysSinceCreation : Q
}.

Record TagStat := {
  tag : string;
  count : Z;
  totalUpvotes : Z;
  totalDownloads : Z;
  avgUpvotes : Q
}.

Module Pagination.
Record t := {
  current : option Z;
  total : option Z;
  count : Z;
  totalItems : Z
}.
End Pagination.

(** [success] is [false] exactly for [Failure]; the [error] text of a
    500 response is not modelled. *)
Inductive Body :=
| Failure (message : string)
| SearchResult (searchQuery : string) (searchWords : list string)
               (memes : list ScoredMeme) (pagination : Pagination.t)
| SuggestResult (tags : list string)
| TrendingResult (trendingMemes : list TrendingMeme)
                 (mostTrendingTag : option string)
                 (pagination : Pagination.t)
| PopularResult (popularTags : list TagStat)
| UpvoteResult (upvotes : Z) (memeId : string).

Record Response := { status : Z; body : Body }.

Definition json (code : Z) (b : Body) : Response :=
  {| status := code; body := b |}.

End Api.

(* ===================================================================== *)
(** * routes/memes.js                                                     *)
(* ===================================================================== *)

Module Routes.
Import Store Handler Db.
Local Open Scope handler_scope.

Definition respond (code : Z) (b : Api.Body) : Handler.t (option Api.Response) :=
  ret (Some (Api.json code b)).

(** A request whose parameters leave the fragment the embedding
    follows: a page or limit that is not a decimal integer, a [skip] or
    a limit beyond the safe integers (where the product of doubles is no
    longer the exact one, and where the store starts to refuse the
    number), a search word with pattern syntax, a negative limit of
    [find]. *)
Definition unmodelled : Handler.t (option Api.Response) := ret None.

(** The numbers a paginated route hands to the store are followed while
    they are safe integers. *)
Definition followed (skip limit : Z) : bool := JS.safe skip && JS.safe limit.

(** ** GET /search *)

Definition searchWords (q : string) : list string :=
  List.filter
    (fun word => negb (String.eqb (JS.trim word) "")
                 && (1 <? Z.of_nat (String.length word)))
    (JS.split_ws (JS.toLowerCase q)).

Definition searchQuery (words : list string) (m : Meme) : bool :=
  existsb (regex_test words) (tags m) || regex_test words (description m).

Definition tagMatches (words : list string) (m : Meme) : Z :=
  Z.of_nat (length (List.filter
    (fun tag => existsb
       (fun word => JS.includes (JS.toLowerCase tag) (JS.toLowerCase word)) words)
    (tags m))).

Definition descriptionMatches (words : list string) (m : Meme) : Z :=
  if JS.truthy (Some (description m)) then
    Z.of_nat (length (List.filter
      (fun word => JS.includes (JS.toLowerCase (description m)) (JS.toLowerCase word))
      words))
  else 0.

Definition relevanceScore (words : list string) (m : Meme) : Z :=
  descriptionMatches words m * 2 + tagMatches words m.

Definition withRelevance (words : list string) (m : Meme) : Api.ScoredMeme :=
  {| Api.meme := Api.view m; Api.relevanceScore := relevanceScore words m |}.

(** The comparator handed to [Array.prototype.sort]. *)
Definition compareRelevance (a b : Api.ScoredMeme) : Z :=
  if negb (Api.relevanceScore b =? Api.relevanceScore a)
  then Api.relevanceScore b - Api.relevanceScore a
  else Api.createdAt (Api.meme b) - Api.createdAt (Api.meme a).

Definition sortRelevance (l : list Api.ScoredMeme) : list Api.ScoredMeme :=
  sort_by (fun a b => compareRelevance a b <=? 0) l.

(** [{ createdAt: -1 }]. *)
Definition newestFirst (a b : Meme) : bool := createdAt b <=? createdAt a.

Definition search (q page limit : option string) : Handler.t (option Api.Response) :=
  let page := JS.with_default 1 page in
  let limit := JS.with_default 20 limit in
  match q with
  | None => respond 400 (Api.Failure "Search query is required")
  | Some qs =>
    if negb (JS.truthy q) then respond 400 (Api.Failure "Search query is required")
    else
      let words := searchWords qs in
      if (length words =? 0)%nat
      then respond 400 (Api.Failure "Please provide valid search terms")
      else
        match JS.ToNumber page, JS.ToNumber limit, JS.parseInt limit with
        | Some p, Some l, Some n =>
          if negb (forallb regex_plain words) || (n <? 0)
             || negb (followed ((p - 1) * l) n)
          then unmodelled
          else
            let skip := (p - 1) * l in
            connectToDB ;;
            do found <- find (searchQuery words) newestFirst skip n;
            match found with
            | Throw => respond 500 (Api.Failure "Search failed")
            | Ok memes =>
              do total <- countDocuments (searchQuery words);
              let memesWithRelevance := sortRelevance (map (withRelevance words) memes) in
              respond 200
                (Api.SearchResult qs words memesWithRelevance
                   {| Api.Pagination.current := JS.parseInt page;
                      Api.Pagination.total := JS.ceil_div total l;
                      Api.Pagination.count := Z.of_nat (length memes);
                      Api.Pagination.totalItems := total |})
            end
        | _, _, _ => unmodelled
        end
  end.

(** ** GET /search-assist *)

Definition suggestPipeline (pattern : string) (c : list Meme) : result (list string) :=
  let matched := List.filter (fun tm => regex_test [pattern] tm.1) (unwind c) in
  let groups := map_to_list (group_by matched) in
  let counted := map (fun g => (g.1, Z.of_nat (length g.2))) groups in
  let sorted := sort_by (fun a b => a.2 >=? b.2) counted in
  match stage_limit 10 sorted with
  | Throw => Throw
  | Ok top => Ok (map fst top)
  end.

Definition search_assist (q : option string) : Handler.t (option Api.Response) :=
  match q with
  | None => respond 200 (Api.SuggestResult [])
  | Some qs =>
    if negb (JS.truthy q) then respond 200 (Api.SuggestResult [])
    else if negb (regex_plain (JS.toLowerCase qs)) then unmodelled
    else
      connectToDB ;;
      do r <- aggregate (suggestPipeline (JS.toLowerCase qs));
      match r with
      | Throw => respond 500 (Api.Failure "Search assist failed")
      | Ok tagSuggestions => respond 200 (Api.SuggestResult tagSuggestions)
      end
  end.

(** ** GET /trending *)

Definition msPerDay : Z := 1000 * 60 * 60 * 24.

(** [$divide: [{ $subtract: [now, '$createdAt'] }, 1000*60*60*24]]. *)
Definition daysSinceCreation (now : Z) (m : Meme) : Q :=
  (inject_Z (now - createdAt m) / inject_Z msPerDay)%Q.

(** [$divide: [{ $add: [{ $multiply: ['$upvotes', 2] }, '$downloads'] },
               { $add: [<days since creation>, 1] }]]. *)
Definition trendingScore (now : Z) (m : Meme) : Q :=
  (inject_Z (upvotes m * 2 + downloads m) / (daysSinceCreation now m + 1))%Q.

(** A document after [$addFields]. *)
Record Scored := { doc : Meme; days : Q; score : Q }.

(** [$addFields]; the two fields read the clock separately ([now_d],
    [now_s]).  [$divide] by zero makes the server fail the pipeline. *)
Definition addFields (now_d now_s : Z) (c : list Meme) : result (list Scored) :=
  if existsb (fun m => Qeq_bool (daysSinceCreation now_s m + 1) 0) c then Throw
  else Ok (map (fun m => {| doc := m;
                            days := daysSinceCreation now_d m;
                            score := trendingScore now_s m |}) c).

(** [$match: { daysSinceCreation: { $lte: 30 } }]. *)
Definition withinWindow (d : Q) : bool := Qle_bool d 30.

(** [$sort: { trendingScore: -1, upvotes: -1, createdAt: -1 }]. *)
Definition trendingOrder (a b : Scored) : bool :=
  match (score a ?= score b)%Q with
  | Gt => true
  | Lt => false
  | Eq =>
    match upvotes (doc a) ?= upvotes (doc b) with
    | Gt => true
    | Lt => false
    | Eq => createdAt (doc b) <=? createdAt (doc a)
    end
  end.

(** The eligible documents in ranking order, before [$skip]/[$limit]. *)
Definition trendingRanked (scored : list Scored) : list Scored :=
  sort_by trendingOrder (List.filter (fun s => withinWindow (days s)) scored).

(** [$project]. *)
Definition projectTrending (s : Scored) : Api.TrendingMeme :=
  {| Api.trending := Api.view (doc s);
     Api.trendingScore := round_to 2 (score s);
     Api.daysSinceCreation := round_to 1 (days s) |}.

Definition trendingPipeline (now_d now_s skip limit : Z) (c : list Meme)
  : result (list Api.TrendingMeme) :=
  match addFields now_d now_s c with
  | Throw => Throw
  | Ok scored =>
    match stage_skip skip (trendingRanked scored) with
    | Throw => Throw
    | Ok skipped =>
      match stage_limit limit skipped with
      | Throw => Throw
      | Ok page => Ok (map projectTrending page)
      end
    end
  end.

(** The counting pipeline: [$addFields], [$match], [$count]. *)
Definition totalPipeline (now : Z) (c : list Meme) : result Z :=
  Ok (Z.of_nat (length
    (List.filter (fun m => withinWindow (daysSinceCreation now m)) c))).

(** Per-tag statistics of the documents created since [sevenDaysAgo]:
    [_id], [count] and the average of [2*upvotes + downloads], sorted
    by that average and then by [count], both descending; one row is
    kept. *)
Definition tagStatsPipeline (sevenDaysAgo : Z) (c : list Meme)
  : result (list (string * Z * Q)) :=
  let recent := List.filter (fun m => sevenDaysAgo <=? createdAt m) c in
  let groups := map_to_list (group_by (unwind recent)) in
  let stats := map (fun g =>
      (g.1, Z.of_nat (length g.2),
       avg_of (fun m => upvotes m * 2 + downloads m) g.2)) groups in
  let sorted := sort_by (fun a b =>
      match (a.2 ?= b.2)%Q with
      | Gt => true
      | Lt => false
      | Eq => a.1.2 >=? b.1.2
      end) stats in
  stage_limit 1 sorted.

(** [sevenDaysAgo.setDate(sevenDaysAgo.getDate() - 7)] on a date that
    holds [now].  The date is taken to local time, its day of the month
    is lowered by 7 with the time of day kept (on the line of
    milliseconds the calendar day [d - 7] of the same month, carried
    into the month before when it is not positive, lies seven days
    earlier), and the result is taken back to UTC with the offset in
    force at that local time. *)
Definition sevenDaysBefore (localTZA : Z -> bool -> Z) (now : Z) : Z :=
  let t := now + localTZA now true in
  let newDate := t - 7 * msPerDay in
  newDate - localTZA newDate false.

Definition trending (page limit : option string) : Handler.t (option Api.Response) :=
  let page := JS.with_default 1 page in
  let limit := JS.with_default 20 limit in
  match JS.ToNumber page, JS.ToNumber limit, JS.parseInt limit with
  | Some p, Some l, Some n =>
    if negb (followed ((p - 1) * l) n) then unmodelled
    else
    let skip := (p - 1) * l in
    do t0 <- newDate;
    do tza <- timeZone;
    let sevenDaysAgo := sevenDaysBefore tza t0 in
    connectToDB ;;
    do now_d <- newDate;
    do now_s <- newDate;
    do r1 <- aggregate (trendingPipeline now_d now_s skip n);
    match r1 with
    | Throw => respond 500 (Api.Failure "Failed to get trending memes")
    | Ok trendingMemes =>
      do now_t <- newDate;
      do r2 <- aggregate (totalPipeline now_t);
      match r2 with
      | Throw => respond 500 (Api.Failure "Failed to get trending memes")
      | Ok total =>
        do r3 <- aggregate (tagStatsPipeline sevenDaysAgo);
        match r3 with
        | Throw => respond 500 (Api.Failure "Failed to get trending memes")
        | Ok tagStats =>
          let mostTrendingTag :=
            match tagStats with
            | row :: _ => Some row.1.1
            | [] => None
            end in
          respond 200
            (Api.TrendingResult trendingMemes mostTrendingTag
               {| Api.Pagination.current := JS.parseInt page;
                  Api.Pagination.total := JS.ceil_div total l;
                  Api.Pagination.count := Z.of_nat (length trendingMemes);
                  Api.Pagination.totalItems := total |})
        end
      end
    end
  | _, _, _ => unmodelled
  end.

(** ** GET /popular *)

Definition tagStat (g : string * list Meme) : Api.TagStat :=
  {| Api.tag := g.1;
     Api.count := Z.of_nat (length g.2);
     Api.totalUpvotes := sum_of upvotes g.2;
     Api.totalDownloads := sum_of downloads g.2;
     Api.avgUpvotes := avg_of upvotes g.2 |}.

(** [$sort: { count: -1, totalUpvotes: -1 }]. *)
Definition popularOrder (a b : Api.TagStat) : bool :=
  match Api.count a ?= Api.count b with
  | Gt => true
  | Lt => false
  | Eq => Api.totalUpvotes b <=? Api.totalUpvotes a
  end.

(** [$project]: [avgUpvotes] rounded to two decimals. *)
Definition projectTag (s : Api.TagStat) : Api.TagStat :=
  {| Api.tag := Api.tag s;
     Api.count := Api.count s;
     Api.totalUpvotes := Api.totalUpvotes s;
     Api.totalDownloads := Api.totalDownloads s;
     Api.avgUpvotes := round_to 2 (Api.avgUpvotes s) |}.

Definition popularRanked (c : list Meme) : list Api.TagStat :=
  sort_by popularOrder (map tagStat (map_to_list (group_by (unwind c)))).

Definition popularPipeline (limit : Z) (c : list Meme) : result (list Api.TagStat) :=
  match stage_limit limit (popularRanked c) with
  | Throw => Throw
  | Ok top => Ok (map projectTag top)
  end.

Definition popular (limit : option string) : Handler.t (option Api.Response) :=
  let limit := JS.with_default 30 limit in
  match JS.parseInt limit with
  | Some n =>
    if negb (JS.safe n) then unmodelled
    else
    connectToDB ;;
    do r <- aggregate (popularPipeline n);
    match r with
    | Throw => respond 500 (Api.Failure "Failed to get popular tags")
    | Ok popularTags => respond 200 (Api.PopularResult popularTags)
    end
  | None => unmodelled
  end.

(** ** POST /update-upvote *)

Fixpoint all_hex (s : string) : bool :=
  match s with
  | EmptyString => true
  | String c s' =>
    match JS.digit_of 16 c with Some _ => all_hex s' | None => false end
  end.

(** [new ObjectId(s)]: 24 hexadecimal digits give the id, written in
    lower case as the store keeps it.  A string of 12 characters is read
    as raw bytes by some versions of the driver and is not followed
    here; any other string makes the constructor throw. *)
Definition ObjectId (s : string) : option (result string) :=
  if (String.length s =? 24)%nat && all_hex s then Some (Ok (JS.toLowerCase s))
  else if (String.length s =? 12)%nat then None
  else Some Throw.

(** [{ $inc: { upvotes: 1 }, $set: { updatedAt: now } }]. *)
Definition incUpvotes (now : Z) (m : Meme) : Meme :=
  {| _id := _id m;
     image_url := image_url m;
     cloudinary_id := cloudinary_id m;
     tags := tags m;
     description := description m;
     upvotes := upvotes m + 1;
     downloads := downloads m;
     createdAt := createdAt m;
     updatedAt := now |}.

Definition update_upvote (memeId : option string) : Handler.t (option Api.Response) :=
  match memeId with
  | None => respond 400 (Api.Failure "Meme ID is required")
  | Some s =>
    if negb (JS.truthy memeId) then respond 400 (Api.Failure "Meme ID is required")
    else
      connectToDB ;;
      match ObjectId s with
      | None => unmodelled
      | Some Throw => respond 500 (Api.Failure "Failed to update upvote")
      | Some (Ok oid) =>
        do now <- newDate;
        do value <- findOneAndUpdate oid (incUpvotes now);
        match value with
        | None => respond 404 (Api.Failure "Meme not found")
        | Some m => respond 200 (Api.UpvoteResult (upvotes m) (_id m))
        end
      end
  end.

End Routes.

(* ===================================================================== *)
(** * The copy of the router written against the Mongoose model          *)
(* ===================================================================== *)

Module Mongoose.
Import Store Handler Db.
Local Open Scope handler_scope.

(** POST /update-upvote: [findById], [meme.upvotes += 1], [save()].
    [findById] casts the id as [new ObjectId] does and rejects when the
    cast fails.  Of the schema's validators [save] runs the one of the
    modified path, [upvotes: { min: 0 }], and rejects when it fails;
    then the [timestamps] option sets [updatedAt] to the current date,
    and [upvotes] and [updatedAt] are written. *)
Definition update_upvote (memeId : option string) : Handler.t (option Api.Response) :=
  match memeId with
  | None => Routes.respond 400 (Api.Failure "Meme ID is required")
  | Some s =>
    if negb (JS.truthy memeId)
    then Routes.respond 400 (Api.Failure "Meme ID is required")
    else
      match Routes.ObjectId s with
      | None => Routes.unmodelled
      | Some Throw => Routes.respond 500 (Api.Failure "Failed to update upvote")
      | Some (Ok oid) =>
        do found <- findById oid;
        match found with
        | None => Routes.respond 404 (Api.Failure "Meme not found")
        | Some (_, meme) =>
          if upvotes meme + 1 <? 0
          then Routes.respond 500 (Api.Failure "Failed to update upvote")
          else
            do now <- newDate;
            let meme := Routes.incUpvotes now meme in
            save meme ;;
            Routes.respond 200 (Api.UpvoteResult (upvotes meme) (_id meme))
        end
      end
  end.

End Mongoose.

(* ===================================================================== *)
(** * The specification's wording, as definitions to compare against      *)
(* ===================================================================== *)

Module Spec.
Import Store.

(** A token is a substring of a field (fields are compared in lower
    case, tokens are lower case already). *)
Definition inDescription (m : Meme) (token : string) : bool :=
  JS.includes (JS.toLowerCase (description m)) token.

Definition inTag (token tag : string) : bool :=
  JS.includes (JS.toLowerCase tag) token.

Definition inSomeTag (m : Meme) (token : string) : bool :=
  existsb (inTag token) (tags m).

(** Section 4.1: [score = 2 * (distinct tokens matching the
    description) + (distinct tokens matching at least one tag)]. *)
Definition relevance (tokens : list string) (m : Meme) : Z :=
  2 * Z.of_nat (length (List.filter (inDescription m) (remove_dups tokens)))
  + Z.of_nat (length (List.filter (inSomeTag m) (remove_dups tokens))).

(** Section 4.1: a record is a candidate when some token is a substring
    of a tag or of the description. *)
Definition candidate (tokens : list string) (m : Meme) : bool :=
  existsb (fun token => inSomeTag m token || inDescription m token) tokens.

(** Section 4.1: ranking by descending score, ties by descending
    [createdAt], over the whole matching set; then the page
    [[skip, skip + limit)]. *)
Definition rankedBefore (tokens : list string) (a b : Meme) : bool :=
  match relevance tokens a ?= relevance tokens b with
  | Gt => true
  | Lt => false
  | Eq => createdAt b <=? createdAt a
  end.

Definition ranked (tokens : list string) (c : list Meme) : list Meme :=
  sort_by (rankedBefore tokens) (List.filter (candidate tokens) c).

Definition page (tokens : list string) (skip limit : nat) (c : list Meme) : list Meme :=
  take limit (drop skip (ranked tokens c)).

(** Property 5: the number of records whose tag sequence contains [T],
    and the sums over exactly those records. *)
Definition hasTag (T : string) (m : Meme) : bool :=
  existsb (String.eqb T) (tags m).

Definition recordsWith (T : string) (c : list Meme) : list Meme :=
  List.filter (hasTag T) c.

(** The number of times [T] occurs in the tag sequence of [m]. *)
Definition occurrences (T : string) (m : Meme) : Z :=
  Z.of_nat (length (List.filter (String.eqb T) (tags m))).

(** Section 4.3: order by [count] descending, ties by [totalUpvotes]
    descending. *)
Definition popularBefore (a b : Api.TagStat) : Prop :=
  Api.count b < Api.count a
  \/ (Api.count a = Api.count b /\ Api.totalUpvotes b <= Api.totalUpvotes a).

(** A query the search route must reject: missing, empty, made of
    white space only. *)
Definition whitespaceOnly (s : string) : bool :=
  forallb JS.is_space (list_ascii_of_string s).

End Spec.

(** Projections of a handler's outcome. *)
Definition searchMemes (r : option Api.Response) : list Api.ScoredMeme :=
  match r with
  | Some {| Api.body := Api.SearchResult _ _ memes _ |} => memes
  | _ => []
  end.

(** A document with the two fields [$addFields] gives it. *)
Definition scoredAt (now_d now_s : Z) (m : Store.Meme) : Routes.Scored :=
  {| Routes.doc := m;
     Routes.days := Routes.daysSinceCreation now_d m;
     Routes.score := Routes.trendingScore now_s m |}.

(** The documents [$group] collects under key [k]. *)
Definition members {V} (k : string) (l : list (string * V)) : list V :=
  map snd (List.filter (fun kv => String.eqb k kv.1) l).

Definition popularTags (r : option Api.Response) : list Api.TagStat :=
  match r with
  | Some {| Api.body := Api.PopularResult tags |} => tags
  | _ => []
  end.

(** Sample records and worlds for the examples below. *)
Module Fixtures.
Import Store.

Definition meme (i : string) (tg : list string) (d : string)
    (u dl created : Z) : Meme :=
  {| _id := i; image_url := "https://img/" ++ i; cloudinary_id := i;
     tags := tg; description := d; upvotes := u; downloads := dl;
     createdAt := created; updatedAt := created |}.

(** A world whose clock stands at [now], on a server that keeps UTC. *)
Definition world (now : Z) (c : list Meme) : World :=
  {| catalog := c; clock := fun _ => now; ticks := 0; ops := [];
     localTZA := fun _ _ => 0 |}.

Definition day : Z := 86400000.
Definition noon : Z := 1700000000000.

(** A server whose zone left daylight saving time three days before
    [noon]: two hours ahead of UTC until then, one hour since. *)
Definition autumn (t : Z) (isUTC : bool) : Z :=
  if t <? noon - 3 * day then 2 * 3600000 else 3600000.

Definition autumnWorld (now : Z) (c : list Meme) : World :=
  {| catalog := c; clock := fun _ => now; ticks := 0; ops := [];
     localTZA := autumn |}.

(** A record created seven days and half an hour before [noon]. *)
Definition lastWeek : Meme :=
  meme "65a00000000000000000000b" ["x"] "" 1 0 (noon - 7 * day - 1800000).

(** Two days old, 10 upvotes and 5 downloads; and a popular record that
    is 31 days old. *)
Definition fresh : Meme :=
  meme "65a000000000000000000001" ["drake"; "reaction"] "pointing at choices"
       10 5 (noon - 2 * day).
Definition stale : Meme :=
  meme "65a000000000000000000002" ["cat"] "pointing meme"
       1000 1000 (noon - 31 * day).

(** Two records nobody has voted for or downloaded yet. *)
Definition quiet1 : Meme :=
  meme "65a000000000000000000003" ["dog"] "a dog" 0 0 (noon - 1 * day).
Definition quiet2 : Meme :=
  meme "65a000000000000000000004" ["dog"] "a dog" 0 0 (noon - 2 * day).

(** The same counters on a record dated two days ahead of [noon] and on
    one created at [noon]. *)
Definition ahead : Meme :=
  meme "65a000000000000000000009" ["dog"] "a dog" 1 0 (noon + 2 * day).
Definition justNow : Meme :=
  meme "65a00000000000000000000a" ["dog"] "a dog" 1 0 noon.

(** 101 records tagged [cat], with distinct ids and creation times. *)
Definition digit (k : nat) : ascii := ascii_of_nat (48 + k mod 10).
Definition serial (k : nat) : string :=
  "65b000000000000000000" ++
  String (digit (k / 100)) (String (digit (k / 10)) (String (digit k) EmptyString)).
Definition crowd : list Meme :=
  map (fun k => meme (serial k) ["cat"] "" 0 0 (Z.of_nat k)) (seq 0 101).

(** A record whose tag sequence repeats a tag. *)
Definition twice : Meme :=
  meme "65a000000000000000000005" ["cat"; "cat"] "two cats" 5 3 (noon - day).

(** One token found in two tags. *)
Definition category : Meme :=
  meme "65a000000000000000000006" ["cat"; "category"] "" 0 0 (noon - day).

(** An older record that matches both words of a query in its
    description, and a newer one that matches one of them. *)
Definition older : Meme :=
  meme "65a000000000000000000007" ["pets"] "cat and dog" 0 0 (noon - 2 * day).
Definition newer : Meme :=
  meme "65a000000000000000000008" ["pets"] "cat" 0 0 (noon - day).

End Fixtures.

(* ===================================================================== *)
(** * Doubles                                                             *)
(* ===================================================================== *)

(** The arithmetic of [calculatePopularityScore] is not on integers, so
    its doubles are modelled in full: the value of an operation is the
    exact result rounded to the nearest double. *)
Module Double.
Import Store.

(** A double: a finite value, kept as the exact rational it stands for,
    an infinity or NaN.  The sign of zero is not kept. *)
Inductive double :=
| Fin (q : Q)
| Inf (negative : bool)
| NaN.

(** [floor (log2 a)] for [a > 0]. *)
Definition ilog2 (a : Q) : Z :=
  let e := Z.log2 (Qnum a) - Z.log2 (Z.pos (Qden a)) in
  if Qle_bool (2 ^ e) a then e else e - 1.

(** The double nearest to [q]: 53 significant bits, or a multiple of
    [2^-1074] below [2^-1022]; a tie goes to the even significand; an
    infinity once the rounded magnitude reaches [2^1024]. *)
Definition rnd (q : Q) : double :=
  if Qeq_bool q 0 then Fin 0
  else
    let e := Z.max (ilog2 (Qabs q)) (-1022) in
    let ulp := (2 ^ (e - 52))%Q in
    let r := Qred (inject_Z (round_half_even (q / ulp)) * ulp) in
    if Qle_bool (2 ^ 1024) (Qabs r) then Inf (negb (Qle_bool 0 q)) else Fin r.

Definition of_Z (z : Z) : double := rnd (inject_Z z).

Definition add (a b : double) : double :=
  match a, b with
  | NaN, _ | _, NaN => NaN
  | Fin x, Fin y => rnd (x + y)
  | Inf s, Inf t => if Bool.eqb s t then Inf s else NaN
  | Inf s, Fin _ | Fin _, Inf s => Inf s
  end.

Definition sub (a b : double) : double :=
  match a, b with
  | NaN, _ | _, NaN => NaN
  | Fin x, Fin y => rnd (x - y)
  | Inf s, Inf t => if Bool.eqb s t then NaN else Inf s
  | Inf s, Fin _ => Inf s
  | Fin _, Inf s => Inf (negb s)
  end.

Definition negative (q : Q) : bool := negb (Qle_bool 0 q).

Definition mul (a b : double) : double :=
  match a, b with
  | NaN, _ | _, NaN => NaN
  | Fin x, Fin y => rnd (x * y)
  | Inf s, Inf t => Inf (xorb s t)
  | Inf s, Fin x | Fin x, Inf s =>
      if Qeq_bool x 0 then NaN else Inf (xorb s (negative x))
  end.

(** [a / b]; a zero divisor is taken as [+0]. *)
Definition div (a b : double) : double :=
  match a, b with
  | NaN, _ | _, NaN => NaN
  | Fin x, Fin y =>
      if Qeq_bool y 0
      then if Qeq_bool x 0 then NaN else Inf (negative x)
      else rnd (x / y)
  | Inf s, Inf t => NaN
  | Inf s, Fin y => Inf (xorb s (negative y))
  | Fin _, Inf _ => Fin 0
  end.

(** [Math.max(a, b)]. *)
Definition max (a b : double) : double :=
  match a, b with
  | NaN, _ | _, NaN => NaN
  | Inf false, _ | _, Inf false => Inf false
  | Inf true, x | x, Inf true => x
  | Fin x, Fin y => if Qle_bool y x then Fin x else Fin y
  end.

(** [c] is a double: a significand below [2^53] times a power of two
    that is at least [2^-1074]. *)
Definition representable (c : Q) : Prop :=
  exists m k : Z,
    (c == inject_Z m * 2 ^ k)%Q /\ Z.abs m < 2 ^ 53 /\ -1074 <= k.

(** [d] is at least [c]. *)
Definition at_least (c : Q) (d : double) : Prop :=
  match d with
  | Fin r => (c <= r)%Q
  | Inf false => True
  | _ => False
  end.

(** The time value of a date: an integer of milliseconds, NaN outside
    the range of dates. *)
Definition time (t : Z) : double :=
  if Z.abs t <=? 8640000000000000 then Fin (inject_Z t) else NaN.

(** The double nearest to 0.1. *)
Definition tenth : Q := 3602879701896397 # 36028797018963968.

End Double.


(* ===================================================================== *)
(** * utils/helpers.js, the other helpers                                 *)
(* ===================================================================== *)

Module Util.

(** An element of a JavaScript array that [validateTags] may meet: a
    string, or a value of another type. *)
Inductive element :=
| Str (s : string)
| Other.

(** The class [[a-zA-Z0-9\s\-_]] of the two regular expressions. *)
Definition word_char (c : ascii) : bool :=
  let n := nat_of_ascii c in
  ((97 <=? n) && (n <=? 122) || (65 <=? n) && (n <=? 90)
   || (48 <=? n) && (n <=? 57))%nat
  || JS.is_space c || Ascii.eqb c "-" || Ascii.eqb c "_".

Fixpoint all_word_chars (s : string) : bool :=
  match s with
  | EmptyString => true
  | String c s' => word_char c && all_word_chars s'
  end.

(** The test [validateTags] applies to each element. *)
Definition validTag (tag : element) : bool :=
  match tag with
  | Str s =>
    (0 <? String.length s)%nat && (String.length s <=? 50)%nat
    && all_word_chars s
  | Other => false
  end.

(** [validateTags(tags)]; [None] is an argument that is not an array. *)
Definition validateTags (tags : option (list element)) : bool :=
  match tags with
  | None => false
  | Some l => forallb validTag l
  end.

(** [s.replace(/[^a-zA-Z0-9\s\-_]/g, '')]. *)
Fixpoint strip (s : string) : string :=
  match s with
  | EmptyString => EmptyString
  | String c s' => if word_char c then String c (strip s') else strip s'
  end.

(** [sanitizeSearchQuery(query)]; [None] is an argument that is not a
    string. *)
Definition sanitizeSearchQuery (query : option string) : string :=
  match query with
  | None => EmptyString
  | Some q =>
    if negb (JS.truthy query) then EmptyString
    else String.substring 0 200 (JS.trim (strip (JS.toLowerCase q)))
  end.

(** [calculatePopularityScore(upvotes, downloads, createdAt)], in
    doubles; it reads the clock once.  [Date.now()] and
    [new Date(createdAt).getTime()] are time values; [createdAt] is
    given by its own. *)
Definition calculatePopularityScore (upvotes downloads : Double.double)
    (createdAt : Z) : Handler.t Double.double :=
  Handler.bind Handler.newDate (fun now =>
    let daysSinceCreation :=
      Double.div (Double.sub (Double.time now) (Double.time createdAt))
        (Double.mul
           (Double.mul (Double.mul (Double.of_Z 1000) (Double.of_Z 60))
              (Double.of_Z 60))
           (Double.of_Z 24)) in
    let recencyFactor :=
      Double.max (Double.rnd (1 # 10))
        (Double.div (Double.of_Z 1)
           (Double.add daysSinceCreation (Double.of_Z 1))) in
    Handler.ret
      (Double.mul (Double.add (Double.mul upvotes (Double.of_Z 3)) downloads)
         recencyFactor)).

(** A row of the statistics [buildTagStatsPipeline] asks for. *)
Record TagUse := {
  stat : Api.TagStat;
  lastUsed : Z
}.

(** [$max] over a group that is not empty. *)
Definition max_of {V} (f : V -> Z) (d : Z) (l : list V) : Z :=
  match l with
  | [] => d
  | v :: l' => foldr (fun x acc => Z.max (f x) acc) (f v) l'
  end.

Definition tagUse (g : string * list Store.Meme) : TagUse :=
  {| stat := Routes.tagStat g;
     lastUsed := max_of Store.createdAt 0 g.2 |}.

(** [$sort: { count: -1, totalUpvotes: -1 }]. *)
Definition useOrder (a b : TagUse) : bool := Routes.popularOrder (stat a) (stat b).

Definition projectUse (u : TagUse) : TagUse :=
  {| stat := Routes.projectTag (stat u); lastUsed := lastUsed u |}.

(** What the pipeline of [buildTagStatsPipeline(limit)] computes when a
    collection runs it; the default limit is 50. *)
Definition buildTagStatsPipeline (limit : option Z) (c : list Store.Meme)
  : Store.result (list TagUse) :=
  let limit := default 50 limit in
  let rows := map tagUse (map_to_list (Store.group_by (Store.unwind c))) in
  match Store.stage_limit limit (Store.sort_by useOrder rows) with
  | Store.Throw => Store.Throw
  | Store.Ok top => Store.Ok (map projectUse top)
  end.

End Util.

(* ===================================================================== *)
(** * routes/memes.js, the listing and download routes                    *)
(* ===================================================================== *)

Module Reply.

Inductive Body :=
| Failure (message : string)
| Memes (memes : list Api.MemeView) (pagination : Api.Pagination.t)
| TagMemes (tag : string) (memes : list Api.MemeView)
           (pagination : Api.Pagination.t)
| Downloads (downloads : Z).

Record Response := { status : Z; body : Body }.

Definition json (code : Z) (b : Body) : Response :=
  {| status := code; body := b |}.

End Reply.

Module Listing.
Import Store Handler Db.
Local Open Scope handler_scope.

Definition respond (code : Z) (b : Reply.Body) : Handler.t (option Reply.Response) :=
  ret (Some (Reply.json code b)).

Definition unmodelled : Handler.t (option Reply.Response) := ret None.

(** ** POST /track-downloads *)

(** [{ $inc: { downloads: 1 }, $set: { updatedAt: now } }]. *)
Definition incDownloads (now : Z) (m : Meme) : Meme :=
  {| _id := _id m;
     image_url := image_url m;
     cloudinary_id := cloudinary_id m;
     tags := tags m;
     description := description m;
     upvotes := upvotes m;
     downloads := downloads m + 1;
     createdAt := createdAt m;
     updatedAt := now |}.

Definition track_downloads (memeId : option string) : Handler.t (option Reply.Response) :=
  match memeId with
  | None => respond 400 (Reply.Failure "Meme ID is required")
  | Some s =>
    if negb (JS.truthy memeId) then respond 400 (Reply.Failure "Meme ID is required")
    else
      connectToDB ;;
      match Routes.ObjectId s with
      | None => unmodelled
      | Some Throw => respond 500 (Reply.Failure "Failed to track download")
      | Some (Ok oid) =>
        do now <- newDate;
        do value <- findOneAndUpdate oid (incDownloads now);
        match value with
        | None => respond 404 (Reply.Failure "Meme not found")
        | Some m => respond 200 (Reply.Downloads (downloads m))
        end
      end
  end.

(** ** GET /memes and GET /:tag *)

(** [s.split(',')]. *)
Fixpoint split_comma (s : string) : list string :=
  match s with
  | EmptyString => [EmptyString]
  | String c s' =>
    if Ascii.eqb c ","
    then EmptyString :: split_comma s'
    else match split_comma s' with
         | piece :: rest => String c piece :: rest
         | [] => [String c EmptyString]
         end
  end.

(** [tags.split(',').map(tag => tag.trim().toLowerCase())]. *)
Definition tagArray (tags : string) : list string :=
  map (fun tag => JS.toLowerCase (JS.trim tag)) (split_comma tags).

(** [{ tags: { $in: tagArray } }]: some element of the document's tag
    array is one of the values. *)
Definition tagsIn (values : list string) (m : Meme) : bool :=
  existsb (fun t => existsb (String.eqb t) values) (tags m).

(** [{ tags: value }]: the document's tag array contains the value. *)
Definition tagsContain (value : string) (m : Meme) : bool :=
  existsb (String.eqb value) (tags m).

(** The [query] object of GET /memes. *)
Definition memesQuery (tags : option string) (m : Meme) : bool :=
  match tags with
  | Some s => if JS.truthy tags then tagsIn (tagArray s) m else true
  | None => true
  end.

(** [{ upvotes: -1, downloads: -1 }] and [{ upvotes: -1, createdAt: -1 }]. *)
Definition popularFirst (a b : Meme) : bool :=
  match upvotes a ?= upvotes b with
  | Gt => true
  | Lt => false
  | Eq => downloads b <=? downloads a
  end.

Definition upvotedFirst (a b : Meme) : bool :=
  match upvotes a ?= upvotes b with
  | Gt => true
  | Lt => false
  | Eq => createdAt b <=? createdAt a
  end.

Definition sortCriteria (sort : option string) : Meme -> Meme -> bool :=
  let sort := default "recent" sort in
  if String.eqb sort "popular" then popularFirst
  else if String.eqb sort "trending" then upvotedFirst
  else Routes.newestFirst.

(** The part the two listings share: the page of [query] under
    [sortCriteria], and the pagination block. *)
Definition listing (query : Meme -> bool) (page limit sort : option string)
    (reply : list Api.MemeView -> Api.Pagination.t -> Reply.Body)
    (failure : string) : Handler.t (option Reply.Response) :=
  let page := JS.with_default 1 page in
  let limit := JS.with_default 20 limit in
  match JS.ToNumber page, JS.ToNumber limit, JS.parseInt limit with
  | Some p, Some l, Some n =>
    if (n <? 0) || negb (Routes.followed ((p - 1) * l) n) then unmodelled
    else
      let skip := (p - 1) * l in
      connectToDB ;;
      do found <- find query (sortCriteria sort) skip n;
      match found with
      | Throw => respond 500 (Reply.Failure failure)
      | Ok memes =>
        do total <- countDocuments query;
        respond 200
          (reply (map Api.view memes)
             {| Api.Pagination.current := JS.parseInt page;
                Api.Pagination.total := JS.ceil_div total l;
                Api.Pagination.count := Z.of_nat (length memes);
                Api.Pagination.totalItems := total |})
      end
  | _, _, _ => unmodelled
  end.

(** GET /memes.  The [title] of a listed entry is not modelled: the
    documents of the store carry none. *)
Definition memes (page limit sort tags : option string)
  : Handler.t (option Reply.Response) :=
  listing (memesQuery tags) page limit sort Reply.Memes "Failed to get memes".

(** GET /:tag. *)
Definition by_tag (tag : string) (page limit sort : option string)
  : Handler.t (option Reply.Response) :=
  listing (tagsContain (JS.toLowerCase tag)) page limit sort
    (Reply.TagMemes tag) "Failed to get memes by tag".

End Listing.

(** Projections of the listing replies. *)
Definition listedMemes (r : option Reply.Response) : list Api.MemeView :=
  match r with
  | Some {| Reply.body := Reply.Memes memes _ |} => memes
  | Some {| Reply.body := Reply.TagMemes _ memes _ |} => memes
  | _ => []
  end.

Definition listedPagination (r : option Reply.Response) : option Api.Pagination.t :=
  match r with
  | Some {| Reply.body := Reply.Memes _ pg |} => Some pg
  | Some {| Reply.body := Reply.TagMemes _ _ pg |} => Some pg
  | _ => None
  end.

(** The whole result a listing pages through. *)
Definition listed (query : Store.Meme -> bool) (sort : option string)
    (c : list Store.Meme) : list Store.Meme :=
  Store.sort_by (Listing.sortCriteria sort) (List.filter query c).

(** No two different records of [l] tie under the sort criteria, so
    that the store has one way only to order them. *)
Definition untied (sort : option string) (l : list Store.Meme) : Prop :=
  forall a b, In a l -> In b l ->
    Listing.sortCriteria sort a b = true ->
    Listing.sortCriteria sort b a = true -> a = b.

(** [l] is in an order the sort criteria allow. *)
Definition inOrder (sort : option string) (l : list Store.Meme) : Prop :=
  StronglySorted (fun a b => Listing.sortCriteria sort a b = true) l.

(** The slice number [k] (from 0) of size [n]. *)
Definition slice {A} (n k : nat) (l : list A) : list A :=
  take n (drop (k * n) l).

(** [n] update-upvote requests for the same id, one after the other. *)
Fixpoint upvote_times (n : nat) (memeId : string) (w : Store.World) : Store.World :=
  match n with
  | O => w
  | S k => upvote_times k memeId (Routes.update_upvote (Some memeId) w).2
  end.

(** The order of a listing, read on the entries of the response:
    [sort=popular] is by upvotes then downloads, [sort=trending] by
    upvotes then creation time, anything else by creation time; all
    descending. *)
Definition listedBefore (sort : option string) (a b : Api.MemeView) : Prop :=
  let sort := default "recent" sort in
  if String.eqb sort "popular" then
    Api.upvotes b < Api.upvotes a
    \/ (Api.upvotes a = Api.upvotes b /\ Api.downloads b <= Api.downloads a)
  else if String.eqb sort "trending" then
    Api.upvotes b < Api.upvotes a
    \/ (Api.upvotes a = Api.upvotes b /\ Api.createdAt b <= Api.createdAt a)
  else Api.createdAt b <= Api.createdAt a.

(** The order of a search page, read on its entries: relevance score
    descending, ties by creation time descending. *)
Definition rankedBefore (a b : Api.ScoredMeme) : Prop :=
  Api.relevanceScore b < Api.relevanceScore a
  \/ (Api.relevanceScore a = Api.relevanceScore b
      /\ Api.createdAt (Api.meme b) <= Api.createdAt (Api.meme a)).

Definition searchPagination (r : option Api.Response) : option Api.Pagination.t :=
  match r with
  | Some {| Api.body := Api.SearchResult _ _ _ pg |} => Some pg
  | _ => None
  end.

(** Every character of a string passes a test. *)
Fixpoint every (P : ascii -> bool) (s : string) : bool :=
  match s with
  | EmptyString => true
  | String c s' => P c && every P s'
  end.

(** A character that [toLowerCase] leaves alone. *)
Definition lower_fixed (c : ascii) : bool := Ascii.eqb (JS.lower_char c) c.

(** [tag => tag.toLowerCase()] on an array element. *)
Definition lowerElement (e : Util.element) : Util.element :=
  match e with
  | Util.Str s => Util.Str (JS.toLowerCase s)
  | Util.Other => Util.Other
  end.

(** A page number of 400 digits. *)
Definition long_page : string := string_of_list_ascii (repeat "9"%char 400).

(** A query of 202 characters: 199 letters, a space and two letters. *)
Definition long_query : string :=
  string_of_list_ascii (repeat "a"%char 199) ++ " bb".

(* ===================================================================== *)
(** * Properties                                                          *)
(* ===================================================================== *)

Import Store.

Ltac run_handler :=
  unfold Routes.respond, Routes.unmodelled, Db.connectToDB, Db.find,
    Db.countDocuments, Db.aggregate, Db.findOneAndUpdate, Db.findById,
    Db.save, Handler.bind,
    Handler.ret, Handler.log, Handler.newDate, Handler.timeZone,
    Handler.read_catalog,
    Handler.write_catalog in *; cbn [fst snd] in *.

(** ** White space and tokens *)

Lemma lower_char_space (c : ascii) : JS.is_space c = true -> JS.lower_char c = c.
Proof.
  destruct c as [[] [] [] [] [] [] [] []]; vm_compute; congruence.
Qed.

Lemma lower_whitespaceOnly (s : string) :
  Spec.whitespaceOnly s = true -> JS.toLowerCase s = s.
Proof.
  unfold Spec.whitespaceOnly.
  induction s as [|c s IH]; cbn [list_ascii_of_string forallb JS.toLowerCase]; [easy|].
  intros [Hc Hs]%andb_prop. now rewrite lower_char_space, IH.
Qed.

Lemma split_ws_blank (s : string) :
  Spec.whitespaceOnly s = true -> Forall (fun piece => piece = EmptyString) (JS.split_ws s).
Proof.
  unfold Spec.whitespaceOnly.
  induction s as [|c s IH]; cbn [list_ascii_of_string forallb JS.split_ws].
  - intros _. now repeat constructor.
  - intros [Hc Hs]%andb_prop. rewrite Hc. specialize (IH Hs).
    destruct s as [|c' s']; [now constructor|].
    destruct (JS.is_space c'); [exact IH|now constructor].
Qed.

Lemma searchWords_blank (s : string) :
  Spec.whitespaceOnly s = true -> Routes.searchWords s = [].
Proof.
  intros H. unfold Routes.searchWords. rewrite (lower_whitespaceOnly _ H).
  pose proof (split_ws_blank _ H) as Hall.
  induction Hall as [|piece l Hp _ IH]; [reflexivity|].
  subst piece. cbn. exact IH.
Qed.

(** C8.  A search whose query is missing, empty, made of white space
    only, or leaves no token once it is lower-cased, split on white-space
    runs and stripped of the tokens of length at most 1, is answered with
    a 400 client error, and the handler has issued no store operation:
    the world, and with it the log of store operations, is unchanged. *)
Theorem search_rejects_degenerate_query
    (q page limit : option string) (w : World) :
  (q = None \/
   exists s, q = Some s /\
     (s = EmptyString \/ Spec.whitespaceOnly s = true \/ Routes.searchWords s = [])) ->
  exists message,
    Routes.search q page limit w = (Some (Api.json 400 (Api.Failure message)), w)
    /\ ops (Routes.search q page limit w).2 = ops w.
Proof.
  intros [-> | (s & -> & Hs)].
  - eexists. split; reflexivity.
  - assert (Hw : s <> EmptyString -> Routes.searchWords s = []).
    { destruct Hs as [-> | [H | H]]; [congruence| |easy].
      intros _. now apply searchWords_blank. }
    unfold Routes.search. destruct s as [|c s'].
    + eexists. split; reflexivity.
    + cbn [JS.truthy String.eqb negb]. rewrite Hw by discriminate.
      eexists. split; reflexivity.
Qed.

Lemma search_rejects_degenerate_query_witness :
  exists message,
    Routes.search (Some "  a  ") (Some "2") None
      {| catalog := []; clock := fun _ => 0; ticks := 0; ops := [];
         localTZA := fun _ _ => 0 |}
    = (Some (Api.json 400 (Api.Failure message)),
       {| catalog := []; clock := fun _ => 0; ticks := 0; ops := [];
         localTZA := fun _ _ => 0 |})
    /\ ops (Routes.search (Some "  a  ") (Some "2") None
         {| catalog := []; clock := fun _ => 0; ticks := 0; ops := [];
         localTZA := fun _ _ => 0 |}).2 = [].
Proof.
  apply (search_rejects_degenerate_query (Some "  a  ") (Some "2") None).
  right. exists "  a  ". split; [reflexivity|]. right. right. reflexivity.
Defined.

(** C10.  A tag-suggestion call whose [q] is missing or empty is answered
    with a success response carrying the empty tag list, and the handler
    has issued no store operation. *)
Theorem search_assist_without_query (w : World) :
  Routes.search_assist None w = (Some (Api.json 200 (Api.SuggestResult [])), w)
  /\ Routes.search_assist (Some EmptyString) w
     = (Some (Api.json 200 (Api.SuggestResult [])), w)
  /\ ops (Routes.search_assist None w).2 = ops w
  /\ ops (Routes.search_assist (Some EmptyString) w).2 = ops w.
Proof. repeat split. Qed.

(** ** Upvotes *)

Lemma update_upvote_success (memeId : string) (w : World) (u : Z) (rid : string) :
  (Routes.update_upvote (Some memeId) w).1
    = Some (Api.json 200 (Api.UpvoteResult u rid)) ->
  exists oid i m,
    Routes.ObjectId memeId = Some (Ok oid)
    /\ list_find (fun m => _id m = oid) (catalog w) = Some (i, m)
    /\ catalog (Routes.update_upvote (Some memeId) w).2
       = <[i := Routes.incUpvotes (clock w (ticks w)) m]> (catalog w)
    /\ u = upvotes m + 1 /\ rid = _id m.
Proof.
  unfold Routes.update_upvote.
  destruct (negb (JS.truthy (Some memeId))); [discriminate|].
  run_handler.
  destruct (Routes.ObjectId memeId) as [[oid|]|]; cbn; try discriminate.
  destruct (list_find _ _) as [[i m]|] eqn:Hfind; cbn; [|discriminate].
  intros [= <- <-]. now exists oid, i, m.
Qed.

Lemma mongoose_update_upvote_success (memeId : string) (w : World) (u : Z) (rid : string) :
  (Mongoose.update_upvote (Some memeId) w).1
    = Some (Api.json 200 (Api.UpvoteResult u rid)) ->
  exists oid i m,
    Routes.ObjectId memeId = Some (Ok oid)
    /\ list_find (fun m => _id m = oid) (catalog w) = Some (i, m)
    /\ catalog (Mongoose.update_upvote (Some memeId) w).2
       = <[i := Routes.incUpvotes (clock w (ticks w)) m]> (catalog w)
    /\ u = upvotes m + 1 /\ rid = _id m.
Proof.
  unfold Mongoose.update_upvote.
  destruct (negb (JS.truthy (Some memeId))); [discriminate|].
  destruct (Routes.ObjectId memeId) as [[oid|]|]; try discriminate.
  run_handler. cbn [catalog].
  destruct (list_find _ _) as [[i m]|] eqn:Hfind; [|discriminate].
  destruct (upvotes m + 1 <? 0); [discriminate|].
  cbn [catalog clock ticks Routes.incUpvotes _id].
  pose proof Hfind as (_ & Hid & _)%list_find_Some. rewrite Hid, Hfind.
  cbn [fst snd catalog]. intros [= <- <-]. now exists oid, i, m.
Qed.

(** C9.  A successful update-upvote call changes exactly one record of
    the catalog, the one the request names: the record whose id is the
    [ObjectId] of [memeId] (the first one, should the catalog hold the id
    twice).  Its [upvotes] grows by 1 and its [updatedAt] becomes the
    instant read from the clock; its other fields ([downloads], [tags],
    [description], [createdAt], [image_url], [cloudinary_id], the id) are
    as before, every other position of the catalog holds the record it
    held, and the catalog keeps its length.  The response reports the new
    counter and the id of that record.  This holds of both copies of the
    handler: the one that calls [findOneAndUpdate] and the one that goes
    through the Mongoose model. *)
Theorem update_upvote_frame
    (handler : option string -> Handler.t (option Api.Response))
    (memeId : string) (w : World) (u : Z) (rid : string) :
  handler = Routes.update_upvote \/ handler = Mongoose.update_upvote ->
  (handler (Some memeId) w).1
    = Some (Api.json 200 (Api.UpvoteResult u rid)) ->
  let after := catalog (handler (Some memeId) w).2 in
  exists (i : nat) (m m' : Meme),
    Routes.ObjectId memeId = Some (Ok (_id m))
    /\ catalog w !! i = Some m
    /\ (forall (j : nat) (other : Meme),
          (j < i)%nat -> catalog w !! j = Some other -> _id other <> _id m)
    /\ after !! i = Some m'
    /\ _id m = rid /\ u = upvotes m'
    /\ upvotes m' = upvotes m + 1
    /\ updatedAt m' = clock w (ticks w)
    /\ downloads m' = downloads m /\ tags m' = tags m
    /\ description m' = description m /\ createdAt m' = createdAt m
    /\ image_url m' = image_url m /\ cloudinary_id m' = cloudinary_id m
    /\ _id m' = _id m
    /\ (forall j : nat, j <> i -> after !! j = catalog w !! j)
    /\ length after = length (catalog w).
Proof.
  intros Hh H after.
  assert (Hs : exists oid i m,
             Routes.ObjectId memeId = Some (Ok oid)
             /\ list_find (fun m => _id m = oid) (catalog w) = Some (i, m)
             /\ after = <[i := Routes.incUpvotes (clock w (ticks w)) m]> (catalog w)
             /\ u = upvotes m + 1 /\ rid = _id m).
  { subst after. destruct Hh as [-> | ->].
    - now apply update_upvote_success.
    - now apply mongoose_update_upvote_success. }
  destruct Hs as (oid & i & m & Hoid & Hfind & Hcat & -> & ->).
  apply list_find_Some in Hfind as (Hi & Hid & Hfirst).
  exists i, m, (Routes.incUpvotes (clock w (ticks w)) m).
  rewrite Hcat.
  assert (Hlt : (i < length (catalog w))%nat) by (eapply lookup_lt_Some; eassumption).
  split; [now rewrite Hid|]. split; [exact Hi|]. split.
  { intros j other Hj Hother. rewrite Hid. exact (Hfirst j other Hother Hj). }
  repeat split; try reflexivity.
  - now apply list_lookup_insert_eq.
  - intros j Hj. apply list_lookup_insert_ne. congruence.
  - apply length_insert.
Qed.

Lemma update_upvote_frame_witness :
  let w := Fixtures.world Fixtures.noon [Fixtures.stale; Fixtures.fresh] in
  let request := Some "65A000000000000000000001" in
  let upvoted := [Fixtures.stale; Routes.incUpvotes Fixtures.noon Fixtures.fresh] in
  ((Routes.update_upvote request w).1
     = Some (Api.json 200 (Api.UpvoteResult 11 (_id Fixtures.fresh)))
   /\ catalog (Routes.update_upvote request w).2 = upvoted
   /\ exists (i : nat) (m m' : Meme),
        Routes.ObjectId "65A000000000000000000001" = Some (Ok (_id m))
        /\ catalog w !! i = Some m
        /\ catalog (Routes.update_upvote request w).2 !! i = Some m'
        /\ upvotes m' = upvotes m + 1 /\ updatedAt m' = Fixtures.noon
        /\ downloads m' = downloads m
        /\ forall j : nat, j <> i ->
             catalog (Routes.update_upvote request w).2 !! j = catalog w !! j)
  /\ ((Mongoose.update_upvote request w).1
        = Some (Api.json 200 (Api.UpvoteResult 11 (_id Fixtures.fresh)))
      /\ catalog (Mongoose.update_upvote request w).2 = upvoted
      /\ exists (i : nat) (m m' : Meme),
           Routes.ObjectId "65A000000000000000000001" = Some (Ok (_id m))
           /\ catalog w !! i = Some m
           /\ catalog (Mongoose.update_upvote request w).2 !! i = Some m'
           /\ upvotes m' = upvotes m + 1 /\ updatedAt m' = Fixtures.noon
           /\ downloads m' = downloads m
           /\ forall j : nat, j <> i ->
                catalog (Mongoose.update_upvote request w).2 !! j = catalog w !! j).
Proof.
  intros w request upvoted.
  assert (H1 : (Routes.update_upvote request w).1
               = Some (Api.json 200 (Api.UpvoteResult 11 (_id Fixtures.fresh))))
    by (vm_compute; reflexivity).
  assert (H2 : (Mongoose.update_upvote request w).1
               = Some (Api.json 200 (Api.UpvoteResult 11 (_id Fixtures.fresh))))
    by (vm_compute; reflexivity).
  split.
  - split; [exact H1|]. split; [vm_compute; reflexivity|].
    destruct (update_upvote_frame Routes.update_upvote "65A000000000000000000001"
                w 11 (_id Fixtures.fresh) (or_introl eq_refl) H1)
      as (i & m & m' & Hoid & Hm & _ & Hm' & _ & _ & Hu & Ht & Hd & _ & _ & _ & _ & _
          & _ & Hframe & _).
    exists i, m, m'. repeat split; assumption.
  - split; [exact H2|]. split; [vm_compute; reflexivity|].
    destruct (update_upvote_frame Mongoose.update_upvote "65A000000000000000000001"
                w 11 (_id Fixtures.fresh) (or_intror eq_refl) H2)
      as (i & m & m' & Hoid & Hm & _ & Hm' & _ & _ & Hu & Ht & Hd & _ & _ & _ & _ & _
          & _ & Hframe & _).
    exists i, m, m'. repeat split; assumption.
Defined.

(** ** The stable sort *)

Section SortBy.
Context {A : Type} (le : A -> A -> bool).

Lemma insert_by_Permutation (x : A) (l : list A) :
  Permutation (insert_by le x l) (x :: l).
Proof.
  induction l as [|y l IH]; cbn; [reflexivity|].
  destruct (le x y); [reflexivity|].
  rewrite IH. apply perm_swap.
Qed.

Lemma sort_by_Permutation (l : list A) : Permutation (sort_by le l) l.
Proof.
  unfold sort_by. induction l as [|x l IH]; cbn; [reflexivity|].
  rewrite insert_by_Permutation. now constructor.
Qed.

Lemma sort_by_In (x : A) (l : list A) : In x (sort_by le l) <-> In x l.
Proof.
  split; apply Permutation_in;
    [apply sort_by_Permutation | symmetry; apply sort_by_Permutation].
Qed.

Lemma sort_by_length (l : list A) : length (sort_by le l) = length l.
Proof. apply Permutation_length, sort_by_Permutation. Qed.

Hypothesis le_total : forall a b, le a b = true \/ le b a = true.

Lemma insert_by_Sorted (x : A) (l : list A) :
  Sorted (fun a b => le a b = true) l ->
  Sorted (fun a b => le a b = true) (insert_by le x l).
Proof.
  induction 1 as [|y l Hs IH Hhd]; cbn; [repeat constructor|].
  destruct (le x y) eqn:Hxy.
  - constructor; [now constructor|now constructor].
  - constructor; [exact IH|].
    destruct (le_total x y) as [Hc|Hyx]; [congruence|].
    destruct l as [|z l']; cbn; [now constructor|].
    destruct (le x z); constructor; [exact Hyx|now inversion Hhd].
Qed.

Lemma sort_by_Sorted (l : list A) :
  Sorted (fun a b => le a b = true) (sort_by le l).
Proof.
  unfold sort_by. induction l as [|x l IH]; cbn; [constructor|].
  now apply insert_by_Sorted.
Qed.

End SortBy.

Lemma In_take {A} (n : nat) (l : list A) (x : A) : In x (take n l) -> In x l.
Proof. rewrite <- !list_elem_of_In. apply subseteq_take. Qed.

Lemma In_drop {A} (n : nat) (l : list A) (x : A) : In x (drop n l) -> In x l.
Proof. rewrite <- !list_elem_of_In. apply subseteq_drop. Qed.

(** ** Trending *)

Lemma withinWindow_ms (now : Z) (m : Meme) :
  Routes.withinWindow (Routes.daysSinceCreation now m) = true
  <-> now - createdAt m <= 30 * Routes.msPerDay.
Proof.
  unfold Routes.withinWindow. rewrite Qle_bool_iff.
  unfold Routes.daysSinceCreation.
  change Routes.msPerDay with 86400000.
  unfold Qle, Qdiv, Qmult, Qinv, inject_Z. cbn. lia.
Qed.

Lemma withinWindow_days (now : Z) (m : Meme) :
  Routes.withinWindow (Routes.daysSinceCreation now m) = true
  <-> (Routes.daysSinceCreation now m <= 30)%Q.
Proof. apply Qle_bool_iff. Qed.

Lemma trendingPipeline_In (now_d now_s skip n : Z) (c : list Meme)
    (out : list Api.TrendingMeme) (e : Api.TrendingMeme) :
  Routes.trendingPipeline now_d now_s skip n c = Ok out ->
  In e out ->
  exists m, In m c
    /\ e = Routes.projectTrending (scoredAt now_d now_s m)
    /\ Routes.withinWindow (Routes.daysSinceCreation now_d m) = true.
Proof.
  unfold Routes.trendingPipeline, Routes.addFields, stage_skip, stage_limit.
  destruct (existsb _ c); [discriminate|].
  destruct (skip <? 0); [discriminate|].
  destruct (n <=? 0); [discriminate|].
  intros [= <-] (s & <- & Hs)%in_map_iff.
  apply In_take, In_drop in Hs.
  unfold Routes.trendingRanked in Hs.
  apply sort_by_In, filter_In in Hs as [(m & <- & Hm)%in_map_iff Hwin].
  exists m. repeat split; assumption.
Qed.

Lemma trendingRanked_eligible (now_d now_s : Z) (c : list Meme) (scored : list Routes.Scored) :
  Routes.addFields now_d now_s c = Ok scored ->
  Permutation (map Routes.doc (Routes.trendingRanked scored))
    (List.filter (fun m => Routes.withinWindow (Routes.daysSinceCreation now_d m)) c).
Proof.
  unfold Routes.addFields. destruct (existsb _ c); [discriminate|].
  intros [= <-]. unfold Routes.trendingRanked.
  rewrite sort_by_Permutation, List.filter_map_swap, List.map_map.
  cbn [Routes.doc Routes.days]. now rewrite List.map_id.
Qed.

Lemma trending_success (page limit : option string) (w : World)
    (ms : list Api.TrendingMeme) (tag : option string) (pg : Api.Pagination.t) :
  (Routes.trending page limit w).1
    = Some (Api.json 200 (Api.TrendingResult ms tag pg)) ->
  exists skip n,
    JS.parseInt (JS.with_default 20 limit) = Some n
    /\ Routes.trendingPipeline (clock w (S (ticks w))) (clock w (S (S (ticks w))))
         skip n (catalog w) = Ok ms.
Proof.
  unfold Routes.trending.
  destruct (JS.ToNumber _) as [p|]; [|discriminate].
  destruct (JS.ToNumber _) as [l|]; [|discriminate].
  destruct (JS.parseInt _) as [n|]; [|discriminate].
  destruct (negb (Routes.followed _ _)); [discriminate|].
  run_handler. cbn.
  destruct (Routes.trendingPipeline _ _ _ _ _) as [out|] eqn:Hout; cbn; [|discriminate].
  intros [= <- _ _]. now exists ((p - 1) * l), n.
Qed.

(** C5.  Every entry of a trending response comes from a catalog record
    that is at most 30 days old at query time, in fractional days; a
    record more than 30 days old matches no entry, whatever its upvotes,
    downloads or score; the window test of the pipeline holds exactly
    when [now - createdAt] is at most 30 days; and the records ranked
    before pagination are exactly the catalog records that pass it. *)
Theorem trending_excludes_older_than_30_days
    (page limit : option string) (w : World)
    (ms : list Api.TrendingMeme) (tag : option string) (pg : Api.Pagination.t) :
  (Routes.trending page limit w).1
    = Some (Api.json 200 (Api.TrendingResult ms tag pg)) ->
  let now := clock w (S (ticks w)) in
  (forall e, In e ms ->
     exists m, In m (catalog w) /\ Api.trending e = Api.view m
       /\ (Routes.daysSinceCreation now m <= 30)%Q)
  /\ (forall m, (30 < Routes.daysSinceCreation now m)%Q ->
        forall e, In e ms -> Api.trending e <> Api.view m)
  /\ (forall m, Routes.withinWindow (Routes.daysSinceCreation now m) = true
                <-> now - createdAt m <= 30 * Routes.msPerDay)
  /\ (forall now_s scored,
        Routes.addFields now now_s (catalog w) = Ok scored ->
        Permutation (map Routes.doc (Routes.trendingRanked scored))
          (List.filter
             (fun m => Routes.withinWindow (Routes.daysSinceCreation now m))
             (catalog w))).
Proof.
  intros H now.
  destruct (trending_success _ _ _ _ _ _ H) as (skip & n & _ & Hpipe).
  assert (Hin : forall e, In e ms ->
     exists m, In m (catalog w) /\ Api.trending e = Api.view m
       /\ (Routes.daysSinceCreation now m <= 30)%Q).
  { intros e He.
    destruct (trendingPipeline_In _ _ _ _ _ _ _ Hpipe He) as (m & Hm & -> & Hwin).
    exists m. repeat split; [exact Hm|]. now apply withinWindow_days. }
  split; [exact Hin|].
  split; [|split; [intros m; apply withinWindow_ms|]];
    [|intros now_s scored; apply trendingRanked_eligible].
  intros m Hold e He Hview.
  destruct (Hin e He) as (m0 & _ & Hview0 & Hle).
  assert (Hc : createdAt m0 = createdAt m).
  { change (Api.createdAt (Api.view m0) = Api.createdAt (Api.view m)). congruence. }
  unfold Routes.daysSinceCreation in *. rewrite Hc in Hle.
  exact (Qlt_not_le _ _ Hold Hle).
Qed.

Lemma trending_excludes_older_than_30_days_witness :
  let w := Fixtures.world Fixtures.noon [Fixtures.stale; Fixtures.fresh] in
  exists ms tag pg,
    (Routes.trending None None w).1
      = Some (Api.json 200 (Api.TrendingResult ms tag pg))
    /\ length ms = 1%nat
    /\ (forall e, In e ms ->
          exists m, In m (catalog w) /\ Api.trending e = Api.view m
            /\ (Routes.daysSinceCreation Fixtures.noon m <= 30)%Q)
    /\ (forall m, (30 < Routes.daysSinceCreation Fixtures.noon m)%Q ->
          forall e, In e ms -> Api.trending e <> Api.view m)
    /\ (forall m,
          Routes.withinWindow (Routes.daysSinceCreation Fixtures.noon m) = true
          <-> Fixtures.noon - createdAt m <= 30 * Routes.msPerDay)
    /\ (forall now_s scored,
          Routes.addFields Fixtures.noon now_s (catalog w) = Ok scored ->
          Permutation (map Routes.doc (Routes.trendingRanked scored))
            (List.filter
               (fun m => Routes.withinWindow
                           (Routes.daysSinceCreation Fixtures.noon m))
               (catalog w))).
Proof.
  intros w. eexists _, _, _.
  split; [vm_compute; reflexivity|].
  split; [reflexivity|].
  eapply (trending_excludes_older_than_30_days None None w).
  vm_compute. reflexivity.
Defined.






(** ** Decay of the trending score *)

Lemma trendingScore_zero (now : Z) (m : Meme) :
  upvotes m * 2 + downloads m = 0 -> (Routes.trendingScore now m == 0)%Q.
Proof.
  intros H. unfold Routes.trendingScore. rewrite H.
  unfold Qdiv. apply Qmult_0_l.
Qed.

(** C7, as the code has it.  For two evaluations with the same upvotes
    and downloads, of which at least one counter is positive ([2*upvotes +
    downloads > 0]), and with a positive denominator for the younger one
    ([daysSinceCreation > -1], which holds for every record not dated in
    the future), the one with the strictly larger [daysSinceCreation] has
    the strictly smaller unrounded trending score.  With both counters at
    0 the score is 0 at every age. *)
Theorem trending_score_strictly_decreasing
    (now1 now2 : Z) (m1 m2 : Meme) :
  upvotes m1 = upvotes m2 -> downloads m1 = downloads m2 ->
  (-1 < Routes.daysSinceCreation now1 m1)%Q ->
  (Routes.daysSinceCreation now1 m1 < Routes.daysSinceCreation now2 m2)%Q ->
  (0 < upvotes m1 * 2 + downloads m1 ->
     (Routes.trendingScore now2 m2 < Routes.trendingScore now1 m1)%Q)
  /\ (upvotes m1 * 2 + downloads m1 = 0 ->
        (Routes.trendingScore now2 m2 == Routes.trendingScore now1 m1)%Q).
Proof.
  intros Hu Hd H0 Hlt. split.
  - intros Hpos. unfold Routes.trendingScore. rewrite <- Hu, <- Hd.
    set (d1 := Routes.daysSinceCreation now1 m1) in *.
    set (d2 := Routes.daysSinceCreation now2 m2) in *.
    set (k := inject_Z (upvotes m1 * 2 + downloads m1)).
    assert (Hk : (0 < k)%Q).
    { unfold k. change 0%Q with (inject_Z 0). now rewrite <- Zlt_Qlt. }
    assert (Ha : (0 < d1 + 1)%Q) by lra.
    assert (Hb : (0 < d2 + 1)%Q) by lra.
    unfold Qdiv. apply Qmult_lt_l; [exact Hk|].
    apply (proj1 (Qinv_lt_contravar (d1 + 1) (d2 + 1) Ha Hb)). lra.
  - intros Hz. rewrite (trendingScore_zero now1 m1 Hz).
    apply trendingScore_zero. now rewrite <- Hu, <- Hd.
Qed.

Lemma trending_score_strictly_decreasing_witness :
  (Routes.trendingScore Fixtures.noon Fixtures.stale
   < Routes.trendingScore (Fixtures.noon - 29 * Fixtures.day) Fixtures.stale)%Q.
Proof.
  refine (proj1 (trending_score_strictly_decreasing
            (Fixtures.noon - 29 * Fixtures.day) Fixtures.noon
            Fixtures.stale Fixtures.stale eq_refl eq_refl _ _) _);
    vm_compute; reflexivity || discriminate.
Defined.

(** C7 as stated fails when nobody has voted or downloaded: two records
    with 0 upvotes and 0 downloads, one a day old and one two days old,
    both score 0.  (It also fails across the pole of the formula: a
    record dated two days in the future scores below one created now.) *)
Lemma trending_score_flat_at_zero :
  ~ (forall (now : Z) (m1 m2 : Meme),
       upvotes m1 = upvotes m2 -> downloads m1 = downloads m2 ->
       (Routes.daysSinceCreation now m1 < Routes.daysSinceCreation now m2)%Q ->
       (Routes.trendingScore now m2 < Routes.trendingScore now m1)%Q)
  /\ (Routes.trendingScore Fixtures.noon Fixtures.quiet1 == 0)%Q
  /\ (Routes.trendingScore Fixtures.noon Fixtures.quiet2 == 0)%Q
  /\ (Routes.trendingScore Fixtures.noon Fixtures.ahead
      < Routes.trendingScore Fixtures.noon Fixtures.justNow)%Q.
Proof.
  split; [|repeat split; vm_compute; reflexivity].
  intros H.
  specialize (H Fixtures.noon Fixtures.quiet1 Fixtures.quiet2 eq_refl eq_refl).
  assert (Hd : (Routes.daysSinceCreation Fixtures.noon Fixtures.quiet1
                < Routes.daysSinceCreation Fixtures.noon Fixtures.quiet2)%Q)
    by (vm_compute; reflexivity).
  specialize (H Hd). vm_compute in H. discriminate.
Qed.

(** ** Pagination *)



Lemma search_success (q page limit : option string) (w : World)
    (qs : string) (words : list string) (ms : list Api.ScoredMeme)
    (pg : Api.Pagination.t) :
  (Routes.search q page limit w).1
    = Some (Api.json 200 (Api.SearchResult qs words ms pg)) ->
  exists p l n found,
    q = Some qs /\ words = Routes.searchWords qs
    /\ JS.ToNumber (JS.with_default 1 page) = Some p
    /\ JS.ToNumber (JS.with_default 20 limit) = Some l
    /\ JS.parseInt (JS.with_default 20 limit) = Some n
    /\ skip_limit ((p - 1) * l) n
         (sort_by Routes.newestFirst
            (List.filter (Routes.searchQuery words) (catalog w))) = Ok found
    /\ ms = Routes.sortRelevance (map (Routes.withRelevance words) found).
Proof.
  unfold Routes.search. destruct q as [s|]; [|discriminate].
  destruct (negb (JS.truthy (Some s))); [discriminate|].
  destruct (length (Routes.searchWords s) =? 0)%nat; [discriminate|].
  destruct (JS.ToNumber (JS.with_default 1 page)) as [p|]; [|discriminate].
  destruct (JS.ToNumber (JS.with_default 20 limit)) as [l|]; [|discriminate].
  destruct (JS.parseInt (JS.with_default 20 limit)) as [n|]; [|discriminate].
  destruct (negb (forallb _ _) || _ || _); [discriminate|].
  run_handler. cbn.
  destruct (skip_limit _ _ _) as [found|] eqn:Hfound; cbn; [|discriminate].
  intros [= <- <- <- _]. now exists p, l, n, found.
Qed.

Lemma popular_success (limit : option string) (w : World) (out : list Api.TagStat) :
  (Routes.popular limit w).1 = Some (Api.json 200 (Api.PopularResult out)) ->
  exists n top,
    JS.parseInt (JS.with_default 30 limit) = Some n
    /\ stage_limit n (Routes.popularRanked (catalog w)) = Ok top
    /\ out = map Routes.projectTag top.
Proof.
  unfold Routes.popular.
  destruct (JS.parseInt _) as [n|]; [|discriminate].
  destruct (negb (JS.safe _)); [discriminate|].
  run_handler. cbn. unfold Routes.popularPipeline.
  destruct (stage_limit _ _) as [top|] eqn:Htop; cbn; [|discriminate].
  intros [= <-]. now exists n, top.
Qed.

(** *** Rounding to a double *)

Lemma round_shift_ge (a e : Z) : 0 < e -> a / 2 ^ e <= JS.round_shift a e.
Proof.
  intros He. unfold JS.round_shift.
  repeat match goal with |- context [if ?b then _ else _] => destruct b end; lia.
Qed.

Lemma fl_safe (z : Z) : Z.abs z <= 2 ^ 53 -> JS.fl z = JS.Int z.
Proof.
  intros Hz. unfold JS.fl.
  destruct (Z.leb_spec (Z.log2 (Z.abs z) - 52) 0) as [|He]; [reflexivity|].
  assert (Ha : 0 < Z.abs z).
  { destruct (Z.eq_dec (Z.abs z) 0) as [E|]; [|lia].
    rewrite E in He. cbn in He. lia. }
  pose proof (Z.log2_spec _ Ha) as [Hlo _].
  assert (2 ^ 53 <= 2 ^ Z.log2 (Z.abs z)) by (apply Z.pow_le_mono_r; lia).
  assert (E : Z.abs z = 2 ^ 53) by lia.
  destruct (Z.abs_spec z) as [[_ E'] | [_ E']]; rewrite E' in E.
  - subst z. vm_compute. reflexivity.
  - assert (z = - 2 ^ 53) as -> by lia. vm_compute. reflexivity.
Qed.




(** Past the safe integers the helper follows the doubles: a page of
    [2^53 + 1] is read as [2^53] and its skip is rounded; a page of 400
    digits is [Infinity], and so is its skip; and the number [10^21],
    which prints as [1e+21], is read as page 1. *)
Example validatePagination_beyond_safe :
  Helpers.validatePagination (Some (JS.VStr "9007199254740993")) (Some (JS.VStr "10"))
  = {| Helpers.page := JS.Int 9007199254740992;
       Helpers.limit := JS.Int 10;
       Helpers.skip := JS.Int 90071992547409904 |}
  /\ Helpers.validatePagination (Some (JS.VStr long_page)) None
     = {| Helpers.page := JS.PInf; Helpers.limit := JS.Int 20;
          Helpers.skip := JS.PInf |}
  /\ Helpers.validatePagination (Some (JS.VNum (10 ^ 21))) (Some (JS.VNum 20))
     = {| Helpers.page := JS.Int 1; Helpers.limit := JS.Int 20;
          Helpers.skip := JS.Int 0 |}.
Proof. vm_compute. repeat split. Qed.


(** ** Popular tags *)

Lemma group_by_lookup {V} (l : list (string * V)) (k : string) :
  group_by l !! k = match members k l with [] => None | vs => Some vs end.
Proof.
  induction l as [|[k' v] l IH]; [reflexivity|].
  cbn [group_by foldr fst snd]. fold (group_by l).
  unfold members. cbn [List.filter fst].
  destruct (String.eqb_spec k k') as [<-|Hne].
  - rewrite lookup_insert_eq, IH. cbn [map snd]. fold (members k l).
    now destruct (members k l).
  - rewrite lookup_insert_ne by congruence. exact IH.
Qed.

Lemma members_app {V} (k : string) (l1 l2 : list (string * V)) :
  members k (l1 ++ l2)%list = (members k l1 ++ members k l2)%list.
Proof. unfold members. now rewrite List.filter_app, map_app. Qed.

Lemma members_tags (k : string) (m : Meme) (ts : list string) :
  members k (map (fun t => (t, m)) ts)
  = repeat m (length (List.filter (String.eqb k) ts)).
Proof.
  unfold members. induction ts as [|t ts IH]; [reflexivity|].
  cbn [map List.filter fst]. destruct (String.eqb k t); cbn; now rewrite IH.
Qed.

Lemma sum_of_app {V} (f : V -> Z) (l1 l2 : list V) :
  sum_of f (l1 ++ l2)%list = sum_of f l1 + sum_of f l2.
Proof. unfold sum_of. induction l1 as [|x l1 IH]; cbn; lia. Qed.

Lemma sum_of_repeat {V} (f : V -> Z) (x : V) (n : nat) :
  sum_of f (repeat x n) = Z.of_nat n * f x.
Proof. unfold sum_of. induction n as [|n IH]; cbn [repeat foldr]; lia. Qed.

Lemma members_unwind_length (T : string) (c : list Meme) :
  Z.of_nat (length (members T (unwind c))) = sum_of (Spec.occurrences T) c.
Proof.
  unfold unwind. induction c as [|m c IH]; [reflexivity|].
  cbn [flat_map]. rewrite members_app, length_app, members_tags, repeat_length.
  cbn [sum_of foldr]. fold (sum_of (Spec.occurrences T) c).
  unfold Spec.occurrences at 1. lia.
Qed.

Lemma members_unwind_sum (f : Meme -> Z) (T : string) (c : list Meme) :
  sum_of f (members T (unwind c))
  = sum_of (fun m => Spec.occurrences T m * f m) c.
Proof.
  unfold unwind. induction c as [|m c IH]; [reflexivity|].
  cbn [flat_map]. rewrite members_app, sum_of_app, members_tags, sum_of_repeat, IH.
  reflexivity.
Qed.

Lemma occurrences_NoDup (T : string) (m : Meme) :
  NoDup (tags m) ->
  Spec.occurrences T m = if Spec.hasTag T m then 1 else 0.
Proof.
  unfold Spec.occurrences, Spec.hasTag.
  induction 1 as [|t ts Hnotin _ IH]; [reflexivity|].
  cbn [List.filter existsb]. destruct (String.eqb_spec T t) as [->|Hne].
  - cbn [orb length].
    assert (Hnone : List.filter (String.eqb t) ts = []).
    { clear IH. induction ts as [|t' ts IH']; [reflexivity|].
      cbn. destruct (String.eqb_spec t t') as [->|_].
      - exfalso. apply Hnotin. now left.
      - apply IH'. intros Hin. apply Hnotin. now right. }
    now rewrite Hnone.
  - cbn [orb]. exact IH.
Qed.

Lemma sum_of_recordsWith (f : Meme -> Z) (T : string) (c : list Meme) :
  (forall m, In m c -> NoDup (tags m)) ->
  sum_of (fun m => Spec.occurrences T m * f m) c = sum_of f (Spec.recordsWith T c).
Proof.
  unfold Spec.recordsWith.
  induction c as [|m c IH]; intros Hnd; [reflexivity|].
  cbn [sum_of foldr List.filter].
  fold (sum_of (fun m => Spec.occurrences T m * f m) c).
  rewrite IH by (intros; apply Hnd; now right).
  rewrite (occurrences_NoDup T m) by (apply Hnd; now left).
  destruct (Spec.hasTag T m); cbn [sum_of foldr]; unfold sum_of; lia.
Qed.

Lemma count_recordsWith (T : string) (c : list Meme) :
  (forall m, In m c -> NoDup (tags m)) ->
  sum_of (Spec.occurrences T) c = Z.of_nat (length (Spec.recordsWith T c)).
Proof.
  intros Hnd.
  assert (Hl : forall l : list Meme, sum_of (fun _ => 1) l = Z.of_nat (length l)).
  { unfold sum_of. induction l as [|x l IHl]; cbn [foldr length]; lia. }
  rewrite <- Hl, <- (sum_of_recordsWith (fun _ => 1) T c Hnd).
  clear Hnd Hl. unfold sum_of.
  induction c as [|m c IH]; cbn [foldr]; [reflexivity|]. rewrite IH. lia.
Qed.

Lemma popularOrder_spec (a b : Api.TagStat) :
  Routes.popularOrder a b = true <-> Spec.popularBefore a b.
Proof.
  unfold Routes.popularOrder, Spec.popularBefore.
  destruct (Z.compare_spec (Api.count a) (Api.count b)); rewrite ?Z.leb_le; split;
    intros; try lia; try reflexivity; discriminate.
Qed.

Lemma popularBefore_total (a b : Api.TagStat) :
  Routes.popularOrder a b = true \/ Routes.popularOrder b a = true.
Proof. rewrite !popularOrder_spec. unfold Spec.popularBefore. lia. Qed.

Lemma popularBefore_trans : Transitive Spec.popularBefore.
Proof. intros a b c. unfold Spec.popularBefore. lia. Qed.

Lemma StronglySorted_take {A} (R : A -> A -> Prop) (n : nat) (l : list A) :
  StronglySorted R l -> StronglySorted R (take n l).
Proof.
  intros H. rewrite <- (take_drop n l) in H.
  now apply StronglySorted_app_1_l in H.
Qed.

Lemma popularRanked_sorted (c : list Meme) :
  StronglySorted Spec.popularBefore (Routes.popularRanked c).
Proof.
  apply Sorted_StronglySorted; [exact popularBefore_trans|].
  unfold Routes.popularRanked.
  eapply Sorted_ind with
    (P := fun l => Sorted Spec.popularBefore l);
    [constructor| |apply (sort_by_Sorted Routes.popularOrder popularBefore_total)].
  intros a l _ IH Hhd. constructor; [exact IH|].
  destruct Hhd; constructor. now apply popularOrder_spec.
Qed.

Lemma popularBefore_project (l : list Api.TagStat) :
  StronglySorted Spec.popularBefore l ->
  StronglySorted Spec.popularBefore (map Routes.projectTag l).
Proof.
  induction 1 as [|a l _ IH Hall]; cbn [map]; constructor; [exact IH|].
  apply List.Forall_forall. intros b' (b & <- & Hb)%in_map_iff.
  rewrite List.Forall_forall in Hall. exact (Hall b Hb).
Qed.

Lemma popular_entry (c : list Meme) (s : Api.TagStat) :
  In s (Routes.popularRanked c) ->
  s = Routes.tagStat (Api.tag s, members (Api.tag s) (unwind c))
  /\ members (Api.tag s) (unwind c) <> [].
Proof.
  unfold Routes.popularRanked. rewrite sort_by_In.
  intros ([t vs] & <- & Hg)%in_map_iff.
  apply list_elem_of_In, elem_of_map_to_list in Hg.
  rewrite group_by_lookup in Hg. cbn [Routes.tagStat Api.tag fst].
  destruct (members t (unwind c)) as [|v vs'] eqn:Hm; [discriminate|].
  injection Hg as <-. split; [reflexivity|discriminate].
Qed.

(** C4, as the code has it.  For every tag [T] of the popular-tags
    output, [count] is the number of occurrences of [T] over the tag
    sequences of all records (a record whose sequence holds [T] k times
    adds k), and [totalUpvotes] and [totalDownloads] add a record's
    upvotes and downloads once per occurrence.  When no record repeats a
    tag, [count] is the number of records whose tag sequence contains [T]
    and the totals are the sums over exactly those records.  Entries are
    ordered by [count] descending, ties by [totalUpvotes] descending. *)
Theorem popular_counts_tag_occurrences
    (limit : option string) (w : World) (out : list Api.TagStat) :
  (Routes.popular limit w).1 = Some (Api.json 200 (Api.PopularResult out)) ->
  (forall e, In e out ->
     let T := Api.tag e in
     0 < Api.count e
     /\ Api.count e = sum_of (Spec.occurrences T) (catalog w)
     /\ Api.totalUpvotes e
        = sum_of (fun m => Spec.occurrences T m * upvotes m) (catalog w)
     /\ Api.totalDownloads e
        = sum_of (fun m => Spec.occurrences T m * downloads m) (catalog w))
  /\ ((forall m, In m (catalog w) -> NoDup (tags m)) ->
      forall e, In e out ->
        let T := Api.tag e in
        Api.count e = Z.of_nat (length (Spec.recordsWith T (catalog w)))
        /\ Api.totalUpvotes e = sum_of upvotes (Spec.recordsWith T (catalog w))
        /\ Api.totalDownloads e = sum_of downloads (Spec.recordsWith T (catalog w)))
  /\ StronglySorted Spec.popularBefore out.
Proof.
  intros H.
  destruct (popular_success _ _ _ H) as (n & top & _ & Htop & ->).
  unfold stage_limit in Htop. destruct (n <=? 0); [discriminate|].
  injection Htop as <-.
  assert (Hocc : forall e,
    In e (map Routes.projectTag (take (Z.to_nat n) (Routes.popularRanked (catalog w)))) ->
    0 < Api.count e
    /\ Api.count e = sum_of (Spec.occurrences (Api.tag e)) (catalog w)
    /\ Api.totalUpvotes e
       = sum_of (fun m => Spec.occurrences (Api.tag e) m * upvotes m) (catalog w)
    /\ Api.totalDownloads e
       = sum_of (fun m => Spec.occurrences (Api.tag e) m * downloads m) (catalog w)).
  { intros e (s & <- & Hs%In_take)%in_map_iff.
    destruct (popular_entry _ _ Hs) as [Hstat Hne].
    cbn [Routes.projectTag Api.tag Api.count Api.totalUpvotes Api.totalDownloads].
    rewrite Hstat.
    cbn [Routes.tagStat Api.tag Api.count Api.totalUpvotes Api.totalDownloads fst snd].
    rewrite <- members_unwind_length, <- !members_unwind_sum.
    repeat split. destruct (members _ _); [congruence|cbn [length]; lia]. }
  split; [exact Hocc|]. split.
  - intros Hnd e He. destruct (Hocc e He) as (_ & Hc & Hu & Hd).
    cbn zeta. rewrite Hc, Hu, Hd.
    now rewrite count_recordsWith, !sum_of_recordsWith.
  - apply popularBefore_project, StronglySorted_take, popularRanked_sorted.
Qed.

Lemma popular_counts_tag_occurrences_witness :
  let w := Fixtures.world Fixtures.noon
             [Fixtures.fresh; Fixtures.stale; Fixtures.quiet1; Fixtures.quiet2] in
  exists out,
    (Routes.popular (Some "2") w).1 = Some (Api.json 200 (Api.PopularResult out))
    /\ map Api.tag out = ["dog"; "cat"]
    /\ (forall e, In e out ->
          Api.count e = Z.of_nat (length (Spec.recordsWith (Api.tag e) (catalog w)))
          /\ Api.totalUpvotes e
             = sum_of upvotes (Spec.recordsWith (Api.tag e) (catalog w))
          /\ Api.totalDownloads e
             = sum_of downloads (Spec.recordsWith (Api.tag e) (catalog w)))
    /\ StronglySorted Spec.popularBefore out.
Proof.
  intros w. eexists. split; [vm_compute; reflexivity|].
  split; [reflexivity|].
  edestruct (popular_counts_tag_occurrences (Some "2") w) as (_ & Hrec & Hsorted);
    [vm_compute; reflexivity|].
  split; [|exact Hsorted].
  apply Hrec. intros m Hm. cbn in Hm.
  repeat (destruct Hm as [<-|Hm]; [apply (bool_decide_unpack _); vm_compute; exact I|]).
  contradiction.
Defined.

(** The claim as stated fails for a record that repeats a tag: with one
    record tagged [cat] twice (5 upvotes, 3 downloads), the entry for
    [cat] reports count 2, 10 upvotes and 6 downloads, while one record
    contains the tag. *)
Lemma popular_counts_repeated_tag_twice :
  let w := Fixtures.world Fixtures.noon [Fixtures.twice] in
  exists e, popularTags (Routes.popular None w).1 = [e]
    /\ Api.tag e = "cat"
    /\ Api.count e = 2 /\ Api.totalUpvotes e = 10 /\ Api.totalDownloads e = 6
    /\ length (Spec.recordsWith "cat" (catalog w)) = 1%nat
    /\ sum_of upvotes (Spec.recordsWith "cat" (catalog w)) = 5
    /\ Api.count e <> Z.of_nat (length (Spec.recordsWith (Api.tag e) (catalog w))).
Proof.
  intros w. eexists. split; [vm_compute; reflexivity|].
  repeat split. vm_compute. discriminate.
Qed.

(** ** Relevance *)

Lemma lower_char_idem (c : ascii) : JS.lower_char (JS.lower_char c) = JS.lower_char c.
Proof. destruct c as [[] [] [] [] [] [] [] []]; vm_compute; reflexivity. Qed.

Lemma toLowerCase_idem (s : string) :
  JS.toLowerCase (JS.toLowerCase s) = JS.toLowerCase s.
Proof.
  induction s as [|c s IH]; cbn [JS.toLowerCase]; [reflexivity|].
  now rewrite lower_char_idem, IH.
Qed.

Lemma split_ws_lower (s : string) :
  JS.toLowerCase s = s ->
  Forall (fun piece => JS.toLowerCase piece = piece) (JS.split_ws s).
Proof.
  induction s as [|c s IH]; cbn [JS.toLowerCase JS.split_ws].
  - intros _. now repeat constructor.
  - intros [= Hc Hs]. specialize (IH Hs).
    destruct (JS.is_space c).
    + destruct s as [|c' s']; [now constructor|].
      destruct (JS.is_space c'); [exact IH|now constructor].
    + destruct (JS.split_ws s) as [|piece rest]; [now repeat constructor; cbn; rewrite Hc|].
      inversion IH as [|? ? Hp Hrest]; subst.
      constructor; [|exact Hrest]. cbn [JS.toLowerCase]. now rewrite Hc, Hp.
Qed.

Lemma searchWords_lower (q word : string) :
  In word (Routes.searchWords q) -> JS.toLowerCase word = word.
Proof.
  unfold Routes.searchWords. intros [Hin _]%filter_In.
  pose proof (split_ws_lower _ (toLowerCase_idem q)) as Hall.
  rewrite List.Forall_forall in Hall. now apply Hall.
Qed.

Lemma searchWords_nonempty (q word : string) :
  In word (Routes.searchWords q) -> word <> EmptyString.
Proof.
  unfold Routes.searchWords. intros [_ Hok]%filter_In ->. discriminate.
Qed.

Lemma includes_empty (sub : string) :
  sub <> EmptyString -> JS.includes EmptyString sub = false.
Proof. destruct sub; [congruence|reflexivity]. Qed.

Lemma length_filter_ext {A} (f g : A -> bool) (l : list A) :
  (forall x, In x l -> f x = g x) ->
  length (List.filter f l) = length (List.filter g l).
Proof. intros H. now rewrite (List.filter_ext_in f g l H). Qed.

Lemma existsb_ext_in {A} (f g : A -> bool) (l : list A) :
  (forall x, In x l -> f x = g x) -> existsb f l = existsb g l.
Proof.
  induction l as [|x l IH]; intros H; [reflexivity|]. cbn [existsb].
  rewrite (H x) by now left. rewrite IH; [reflexivity|].
  intros y Hy. apply H. now right.
Qed.

Lemma descriptionMatches_tokens (q : string) (m : Meme) :
  Routes.descriptionMatches (Routes.searchWords q) m
  = Z.of_nat (length (List.filter (Spec.inDescription m) (Routes.searchWords q))).
Proof.
  unfold Routes.descriptionMatches, Spec.inDescription, JS.truthy.
  destruct (String.eqb_spec (description m) EmptyString) as [->|_]; cbn [negb].
  - rewrite (length_filter_ext _ (fun _ => false)).
    + now induction (Routes.searchWords q).
    + intros word Hw. apply includes_empty. eapply searchWords_nonempty, Hw.
  - f_equal. apply length_filter_ext.
    intros word Hw. now rewrite (searchWords_lower q word Hw).
Qed.

Lemma tagMatches_tokens (q : string) (m : Meme) :
  Routes.tagMatches (Routes.searchWords q) m
  = Z.of_nat (length (List.filter
      (fun tag => existsb (fun word => Spec.inTag word tag) (Routes.searchWords q))
      (tags m))).
Proof.
  unfold Routes.tagMatches, Spec.inTag. f_equal. apply length_filter_ext.
  intros tag _. apply existsb_ext_in.
  intros word Hw. now rewrite (searchWords_lower q word Hw).
Qed.

Lemma remove_dups_NoDup_id (l : list string) : NoDup l -> remove_dups l = l.
Proof.
  induction 1 as [|x l Hx _ IH]; [reflexivity|].
  cbn [remove_dups]. destruct (decide_rel elem_of x l); [contradiction|].
  now rewrite IH.
Qed.

Section Counting.
Context {T W : Type} (hit : T -> W -> bool).

Lemma length_filter_one_more (p p' : W -> bool) (w0 : W) (ws : list W) :
  NoDup ws -> In w0 ws -> p w0 = true -> p' w0 = false ->
  (forall w, In w ws -> w <> w0 -> p w = p' w) ->
  length (List.filter p ws) = S (length (List.filter p' ws)).
Proof.
  induction 1 as [|w ws Hw Hnd IH]; intros Hin Hp Hp' Hother; [destruct Hin|].
  cbn [List.filter]. destruct Hin as [->|Hin].
  - rewrite Hp, Hp'. cbn [length]. f_equal. apply length_filter_ext.
    intros x Hx. apply Hother; [now right|].
    intros ->. apply Hw. now apply list_elem_of_In.
  - assert (Hne : w <> w0).
    { intros ->. apply Hw. now apply list_elem_of_In. }
    rewrite (Hother w) by (auto; now left).
    assert (IH' : length (List.filter p ws) = S (length (List.filter p' ws))).
    { apply IH; auto. intros x Hx. apply Hother. now right. }
    destruct (p' w); cbn [length]; now rewrite IH'.
Qed.

(** When the hits pair rows and columns one to one, as many rows have a
    hit as columns do. *)
Lemma one_to_one_count (ts : list T) (ws : list W) :
  NoDup ts -> NoDup ws ->
  (forall t w1 w2, In t ts -> In w1 ws -> In w2 ws ->
     hit t w1 = true -> hit t w2 = true -> w1 = w2) ->
  (forall w t1 t2, In w ws -> In t1 ts -> In t2 ts ->
     hit t1 w = true -> hit t2 w = true -> t1 = t2) ->
  length (List.filter (fun t => existsb (hit t) ws) ts)
  = length (List.filter (fun w => existsb (fun t => hit t w) ts) ws).
Proof.
  intros Hts Hws. induction Hts as [|t ts Ht Hnd IH]; intros Hrow Hcol.
  - cbn. clear. induction ws as [|w ws IHws]; [reflexivity|exact IHws].
  - cbn [List.filter existsb].
    assert (IH' : length (List.filter (fun t => existsb (hit t) ws) ts)
                  = length (List.filter (fun w => existsb (fun t => hit t w) ts) ws)).
    { apply IH.
      - intros t' w1 w2 Ht'. apply Hrow. now right.
      - intros w t1 t2 Hw H1 H2. apply Hcol; auto; now right. }
    destruct (existsb (hit t) ws) eqn:Hex.
    + apply existsb_exists in Hex as (w0 & Hw0 & Hhit).
      cbn [length]. rewrite IH'. symmetry.
      apply (length_filter_one_more _ _ w0); auto.
      * now rewrite Hhit.
      * destruct (existsb (fun t' => hit t' w0) ts) eqn:Hex'; [|reflexivity].
        apply existsb_exists in Hex' as (t' & Ht' & Hhit').
        exfalso. apply Ht. apply list_elem_of_In.
        rewrite (Hcol w0 t t' Hw0); auto; [now left|now right].
      * intros w Hw Hne. destruct (hit t w) eqn:Hw'; [|reflexivity].
        exfalso. apply Hne. apply (Hrow t); auto. now left.
    + rewrite IH'. apply length_filter_ext. intros w Hw.
      destruct (hit t w) eqn:Hw'; [|reflexivity].
      assert (existsb (hit t) ws = true) by (apply existsb_exists; eauto).
      congruence.
Qed.

End Counting.

(** C2, as the code has it.  For every record and tokenized query, the
    description term of the relevance score is 2 times the number of
    query tokens that are substrings of the lower-cased description,
    counted with multiplicity (the token list is not de-duplicated).  When
    the tokens are pairwise distinct, the tags pairwise distinct, every
    tag contains at most one token and every token occurs in at most one
    tag, the score is 2 times the number of distinct tokens in the
    description plus the number of distinct tokens in at least one tag. *)
Theorem relevanceScore_tokens (q : string) (m : Meme) :
  let words := Routes.searchWords q in
  Routes.relevanceScore words m
  = 2 * Z.of_nat (length (List.filter (Spec.inDescription m) words))
    + Routes.tagMatches words m
  /\ (NoDup words -> NoDup (tags m) ->
      (forall tag w1 w2, In tag (tags m) -> In w1 words -> In w2 words ->
         Spec.inTag w1 tag = true -> Spec.inTag w2 tag = true -> w1 = w2) ->
      (forall w tag1 tag2, In w words -> In tag1 (tags m) -> In tag2 (tags m) ->
         Spec.inTag w tag1 = true -> Spec.inTag w tag2 = true -> tag1 = tag2) ->
      Routes.relevanceScore words m = Spec.relevance words m).
Proof.
  intros words. unfold Routes.relevanceScore. subst words.
  rewrite descriptionMatches_tokens. split; [lia|].
  intros Hw Ht Hrow Hcol. unfold Spec.relevance.
  rewrite (remove_dups_NoDup_id _ Hw), tagMatches_tokens.
  rewrite (one_to_one_count (fun tag word => Spec.inTag word tag)) by assumption.
  unfold Spec.inSomeTag. rewrite (Z.mul_comm 2). reflexivity.
Qed.

Lemma relevanceScore_tokens_witness :
  Routes.relevanceScore (Routes.searchWords "Drake  choices") Fixtures.fresh = 3
  /\ Spec.relevance (Routes.searchWords "Drake  choices") Fixtures.fresh = 3.
Proof.
  assert (H : Routes.relevanceScore (Routes.searchWords "Drake  choices") Fixtures.fresh
              = Spec.relevance (Routes.searchWords "Drake  choices") Fixtures.fresh).
  { apply (proj2 (relevanceScore_tokens "Drake  choices" Fixtures.fresh)).
    - apply (bool_decide_unpack _). vm_compute. exact I.
    - apply (bool_decide_unpack _). vm_compute. exact I.
    - intros tag w1 w2 Ht H1 H2. vm_compute in Ht, H1, H2.
      repeat match goal with
             | H : _ \/ _ |- _ => destruct H as [<-|H]
             | H : False |- _ => destruct H
             end; vm_compute; congruence.
    - intros w tag1 tag2 Hw H1 H2. vm_compute in Hw, H1, H2.
      repeat match goal with
             | H : _ \/ _ |- _ => destruct H as [<-|H]
             | H : False |- _ => destruct H
             end; vm_compute; congruence. }
  split; [rewrite H|]; vm_compute; reflexivity.
Defined.

(** The claim as stated fails in two ways: the token [cat] is found in
    the two tags [cat] and [category] and adds 2 to the score, not 1; and
    the query [cat cat] keeps both copies of its token, so a description
    containing [cat] scores 4, not 2. *)
Lemma relevance_counts_tags_and_repeats :
  (Routes.relevanceScore (Routes.searchWords "cat") Fixtures.category = 2
   /\ Spec.relevance (Routes.searchWords "cat") Fixtures.category = 1)
  /\ (Routes.relevanceScore (Routes.searchWords "cat cat") Fixtures.newer = 4
      /\ Spec.relevance (Routes.searchWords "cat cat") Fixtures.newer = 2)
  /\ ~ (forall q m, Routes.relevanceScore (Routes.searchWords q) m
                    = Spec.relevance (Routes.searchWords q) m).
Proof.
  repeat split; try (vm_compute; reflexivity).
  intros H. specialize (H "cat" Fixtures.category). vm_compute in H. discriminate.
Qed.

(** ** Search pages *)

(** C1 fails on the code: the store query sorts the matching set by
    [createdAt] alone and applies [skip]/[limit]; relevance is computed
    for, and orders, the page only.  With two matching records, the older
    one scoring 4 and the newer one scoring 2, the first page of size 1
    holds the newer record, where the slice of the full ranking holds the
    older one; the second page holds the older record. *)
Lemma search_first_page_misses_top_ranked :
  let w := Fixtures.world Fixtures.noon [Fixtures.older; Fixtures.newer] in
  let words := Routes.searchWords "cat dog" in
  let served (page : string) :=
    map (fun s => (Api.id (Api.meme s), Api.relevanceScore s))
        (searchMemes (Routes.search (Some "cat dog") (Some page) (Some "1") w).1) in
  served "1" = [(_id Fixtures.newer, 2)]
  /\ served "2" = [(_id Fixtures.older, 4)]
  /\ map _id (Spec.page words 0 1 (catalog w)) = [_id Fixtures.older]
  /\ map _id (Spec.page words 1 1 (catalog w)) = [_id Fixtures.newer]
  /\ map _id (Spec.ranked words (catalog w)) = [_id Fixtures.older; _id Fixtures.newer].
Proof. vm_compute. repeat split. Qed.

(** The page the search handler serves, in general. *)
Lemma search_page_shape (q page limit : option string) (w : World)
    (qs : string) (words : list string) (ms : list Api.ScoredMeme)
    (pg : Api.Pagination.t) :
  (Routes.search q page limit w).1
    = Some (Api.json 200 (Api.SearchResult qs words ms pg)) ->
  exists skip n found,
    skip_limit skip n
      (sort_by Routes.newestFirst
         (List.filter (Routes.searchQuery words) (catalog w))) = Ok found
    /\ ms = Routes.sortRelevance (map (Routes.withRelevance words) found).
Proof.
  intros H.
  destruct (search_success _ _ _ _ _ _ _ _ H)
    as (p & l & n & found & _ & _ & _ & _ & _ & Hfound & Hms).
  now exists ((p - 1) * l), n, found.
Qed.

(** ** The handlers answer on the fragment the embedding follows *)

Lemma search_responds (q page limit : option string) (w : World) (p l n : Z) :
  JS.ToNumber (JS.with_default 1 page) = Some p ->
  JS.ToNumber (JS.with_default 20 limit) = Some l ->
  JS.parseInt (JS.with_default 20 limit) = Some n -> 0 <= n ->
  Routes.followed ((p - 1) * l) n = true ->
  (forall s, q = Some s -> forallb regex_plain (Routes.searchWords s) = true) ->
  exists r, (Routes.search q page limit w).1 = Some r.
Proof.
  intros Hp Hl Hn Hpos Hsafe Hplain. unfold Routes.search.
  destruct q as [s|]; [|eexists; reflexivity].
  destruct (negb (JS.truthy (Some s))); [eexists; reflexivity|].
  destruct (length (Routes.searchWords s) =? 0)%nat; [eexists; reflexivity|].
  rewrite Hp, Hl, Hn, (Hplain s eq_refl), Hsafe.
  destruct (Z.ltb_spec n 0) as [|_]; [lia|]. cbn [negb orb].
  run_handler. cbn.
  destruct (skip_limit _ _ _); eexists; reflexivity.
Qed.

Lemma trending_responds (page limit : option string) (w : World) (p l n : Z) :
  JS.ToNumber (JS.with_default 1 page) = Some p ->
  JS.ToNumber (JS.with_default 20 limit) = Some l ->
  JS.parseInt (JS.with_default 20 limit) = Some n ->
  Routes.followed ((p - 1) * l) n = true ->
  exists r, (Routes.trending page limit w).1 = Some r.
Proof.
  intros Hp Hl Hn Hsafe. unfold Routes.trending. rewrite Hp, Hl, Hn, Hsafe.
  cbn [negb].
  run_handler. cbn.
  destruct (Routes.trendingPipeline _ _ _ _ _); eexists; reflexivity.
Qed.

Lemma popular_responds (limit : option string) (w : World) (n : Z) :
  JS.parseInt (JS.with_default 30 limit) = Some n -> JS.safe n = true ->
  exists r, (Routes.popular limit w).1 = Some r.
Proof.
  intros Hn Hsafe. unfold Routes.popular. rewrite Hn, Hsafe. cbn [negb].
  run_handler. cbn.
  destruct (Routes.popularPipeline _ _); eexists; reflexivity.
Qed.

Lemma update_upvote_responds (memeId : option string) (w : World) :
  (forall s, memeId = Some s -> String.length s <> 12%nat) ->
  exists r, (Routes.update_upvote memeId w).1 = Some r.
Proof.
  intros Hlen. unfold Routes.update_upvote.
  destruct memeId as [s|]; [|eexists; reflexivity].
  destruct (negb (JS.truthy (Some s))); [eexists; reflexivity|].
  run_handler. unfold Routes.ObjectId.
  destruct (_ && _); cbn.
  - destruct (list_find _ _) as [[i m]|]; eexists; reflexivity.
  - destruct (Nat.eqb_spec (String.length s) 12) as [E|_];
      [now destruct (Hlen s eq_refl)|].
    eexists; reflexivity.
Qed.

(** ** The scenarios of the specification *)

Example scenario_search :
  let R1 := Fixtures.meme "65a000000000000000000011" ["drake"; "reaction"]
              "pointing at choices" 0 0 Fixtures.noon in
  let R2 := Fixtures.meme "65a000000000000000000012" ["cat"]
              "pointing meme" 0 0 Fixtures.noon in
  map (fun s => (Api.id (Api.meme s), Api.relevanceScore s))
      (searchMemes (Routes.search (Some "pointing choices") None None
                      (Fixtures.world Fixtures.noon [R2; R1])).1)
  = [(_id R1, 4); (_id R2, 2)].
Proof. vm_compute. reflexivity. Qed.

Example scenario_popular :
  let c := [Fixtures.meme "65a000000000000000000021" ["funny"; "cat"] "" 1 0 0;
            Fixtures.meme "65a000000000000000000022" ["funny"] "" 2 0 0;
            Fixtures.meme "65a000000000000000000023" ["dog"] "" 3 0 0] in
  head (popularTags (Routes.popular None (Fixtures.world Fixtures.noon c)).1)
  = Some {| Api.tag := "funny"; Api.count := 2; Api.totalUpvotes := 3;
            Api.totalDownloads := 0; Api.avgUpvotes := (150 # 100)%Q |}.
Proof. vm_compute. reflexivity. Qed.

Example split_ws_pieces :
  JS.split_ws " pointing   choices " = [""; "pointing"; "choices"; ""].
Proof. reflexivity. Qed.

Example parseInt_examples :
  JS.parseInt_string "  12abc" = Some 12
  /\ JS.parseInt_string "-0x1F" = Some (-31)
  /\ JS.parseInt_string "abc" = None
  /\ JS.parseInt_string "" = None.
Proof. repeat split. Qed.

Example validatePagination_examples :
  Helpers.validatePagination None None
    = {| Helpers.page := JS.Int 1; Helpers.limit := JS.Int 20;
         Helpers.skip := JS.Int 0 |}
  /\ Helpers.validatePagination (Some (JS.VStr "3")) (Some (JS.VStr "500"))
     = {| Helpers.page := JS.Int 3; Helpers.limit := JS.Int 100;
          Helpers.skip := JS.Int 200 |}
  /\ Helpers.validatePagination (Some (JS.VStr "-2")) (Some (JS.VStr "0"))
     = {| Helpers.page := JS.Int 1; Helpers.limit := JS.Int 20;
          Helpers.skip := JS.Int 0 |}.
Proof. repeat split. Qed.

(* ===================================================================== *)
(** * Further properties of the routes and helpers                        *)
(* ===================================================================== *)

(** ** The two counters *)

Lemma list_find_insert_same (oid : string) (c : list Meme) (i : nat) (m m' : Meme) :
  list_find (fun x => _id x = oid) c = Some (i, m) ->
  _id m' = oid ->
  list_find (fun x => _id x = oid) (<[i := m']> c) = Some (i, m').
Proof.
  intros (Hi & Hm & Hbefore)%list_find_Some Hid. apply list_find_Some.
  assert (Hlt : (i < length c)%nat) by (eapply lookup_lt_Some; eassumption).
  split; [now apply list_lookup_insert_eq|]. split; [exact Hid|].
  intros j y Hj Hji. rewrite list_lookup_insert_ne in Hj by lia.
  now apply (Hbefore j y).
Qed.

Lemma track_downloads_success (memeId : string) (w : World) (d : Z) :
  (Listing.track_downloads (Some memeId) w).1
    = Some (Reply.json 200 (Reply.Downloads d)) ->
  exists oid i m,
    Routes.ObjectId memeId = Some (Ok oid)
    /\ list_find (fun m => _id m = oid) (catalog w) = Some (i, m)
    /\ catalog (Listing.track_downloads (Some memeId) w).2
       = <[i := Listing.incDownloads (clock w (ticks w)) m]> (catalog w)
    /\ d = downloads m + 1.
Proof.
  unfold Listing.track_downloads.
  destruct (negb (JS.truthy (Some memeId))); [discriminate|].
  unfold Listing.respond, Listing.unmodelled. run_handler.
  destruct (Routes.ObjectId memeId) as [[oid|]|]; cbn; try discriminate.
  destruct (list_find _ _) as [[i m]|] eqn:Hfind; cbn; [|discriminate].
  intros [= <-]. now exists oid, i, m.
Qed.

(** X1.  A successful track-downloads call changes exactly one record:
    its [downloads] grows by 1 and its [updatedAt] becomes the instant
    read from the clock; [upvotes] and every other field are as before,
    every other position of the catalog holds the record it held, and
    the response reports the new counter. *)
Theorem track_downloads_frame (memeId : string) (w : World) (d : Z) :
  (Listing.track_downloads (Some memeId) w).1
    = Some (Reply.json 200 (Reply.Downloads d)) ->
  let after := catalog (Listing.track_downloads (Some memeId) w).2 in
  exists (i : nat) (m m' : Meme),
    catalog w !! i = Some m /\ after !! i = Some m'
    /\ d = downloads m'
    /\ downloads m' = downloads m + 1
    /\ updatedAt m' = clock w (ticks w)
    /\ upvotes m' = upvotes m /\ tags m' = tags m
    /\ description m' = description m /\ createdAt m' = createdAt m
    /\ image_url m' = image_url m /\ cloudinary_id m' = cloudinary_id m
    /\ _id m' = _id m
    /\ (forall j : nat, j <> i -> after !! j = catalog w !! j)
    /\ length after = length (catalog w).
Proof.
  intros H after.
  destruct (track_downloads_success _ _ _ H) as (oid & i & m & _ & Hfind & Hcat & ->).
  apply list_find_Some in Hfind as (Hi & _ & _).
  exists i, m, (Listing.incDownloads (clock w (ticks w)) m).
  subst after. rewrite Hcat.
  assert (Hlt : (i < length (catalog w))%nat) by (eapply lookup_lt_Some; eassumption).
  repeat split; try reflexivity; try assumption.
  - now apply list_lookup_insert_eq.
  - intros j Hj. apply list_lookup_insert_ne. congruence.
  - apply length_insert.
Qed.

Lemma track_downloads_frame_witness :
  let w := Fixtures.world Fixtures.noon [Fixtures.stale; Fixtures.fresh] in
  let after := catalog (Listing.track_downloads (Some "65a000000000000000000001") w).2 in
  (Listing.track_downloads (Some "65a000000000000000000001") w).1
    = Some (Reply.json 200 (Reply.Downloads 6))
  /\ exists (i : nat) (m m' : Meme),
       catalog w !! i = Some m /\ after !! i = Some m'
       /\ 6 = downloads m'
       /\ downloads m' = downloads m + 1
       /\ updatedAt m' = Fixtures.noon
       /\ upvotes m' = upvotes m /\ tags m' = tags m
       /\ description m' = description m /\ createdAt m' = createdAt m
       /\ image_url m' = image_url m /\ cloudinary_id m' = cloudinary_id m
       /\ _id m' = _id m
       /\ (forall j : nat, j <> i -> after !! j = catalog w !! j)
       /\ length after = length (catalog w).
Proof.
  intros w after.
  assert (H : (Listing.track_downloads (Some "65a000000000000000000001") w).1
              = Some (Reply.json 200 (Reply.Downloads 6)))
    by (vm_compute; reflexivity).
  split; [exact H|].
  exact (track_downloads_frame "65a000000000000000000001" w 6 H).
Defined.

(** X2.  The two counter routes fail closed: whatever the request, a
    response other than 200 leaves the catalog exactly as it was, and a
    request without a meme id is answered 400 without any store
    operation. *)
Theorem counters_fail_closed (memeId : option string) (w : World) :
  (forall r, (Routes.update_upvote memeId w).1 = Some r ->
     Api.status r <> 200 ->
     catalog (Routes.update_upvote memeId w).2 = catalog w)
  /\ (forall r, (Listing.track_downloads memeId w).1 = Some r ->
        Reply.status r <> 200 ->
        catalog (Listing.track_downloads memeId w).2 = catalog w)
  /\ (JS.truthy memeId = false ->
      Routes.update_upvote memeId w
        = (Some (Api.json 400 (Api.Failure "Meme ID is required")), w)
      /\ Listing.track_downloads memeId w
         = (Some (Reply.json 400 (Reply.Failure "Meme ID is required")), w)).
Proof.
  split; [|split].
  - unfold Routes.update_upvote. destruct memeId as [s|]; [|reflexivity].
    destruct (negb (JS.truthy (Some s))); [reflexivity|].
    run_handler. destruct (Routes.ObjectId s) as [[oid|]|]; cbn; try reflexivity.
    destruct (list_find _ _) as [[i m]|]; cbn; [|reflexivity].
    intros r [= <-] Hst. now destruct Hst.
  - unfold Listing.track_downloads. destruct memeId as [s|]; [|reflexivity].
    destruct (negb (JS.truthy (Some s))); [reflexivity|].
    unfold Listing.respond, Listing.unmodelled. run_handler.
    destruct (Routes.ObjectId s) as [[oid|]|]; cbn; try reflexivity.
    destruct (list_find _ _) as [[i m]|]; cbn; [|reflexivity].
    intros r [= <-] Hst. now destruct Hst.
  - intros Hq. unfold Routes.update_upvote, Listing.track_downloads.
    destruct memeId as [s|]; [|split; reflexivity].
    rewrite Hq. split; reflexivity.
Qed.

Lemma counters_fail_closed_witness :
  let w := Fixtures.world Fixtures.noon [Fixtures.stale; Fixtures.fresh] in
  catalog (Routes.update_upvote (Some "65a0000000000000000000ff") w).2 = catalog w
  /\ catalog (Listing.track_downloads (Some "not-an-id") w).2 = catalog w
  /\ Routes.update_upvote (Some "") w
     = (Some (Api.json 400 (Api.Failure "Meme ID is required")), w).
Proof.
  intros w. split; [|split].
  - eapply (proj1 (counters_fail_closed (Some "65a0000000000000000000ff") w));
      [vm_compute; reflexivity|vm_compute; discriminate].
  - eapply (proj1 (proj2 (counters_fail_closed (Some "not-an-id") w)));
      [vm_compute; reflexivity|vm_compute; discriminate].
  - apply (proj2 (proj2 (counters_fail_closed (Some "") w))). reflexivity.
Defined.

Lemma ObjectId_truthy (s oid : string) :
  Routes.ObjectId s = Some (Ok oid) -> JS.truthy (Some s) = true.
Proof. destruct s; [discriminate|reflexivity]. Qed.

Lemma ObjectId_lower (s oid : string) :
  Routes.ObjectId s = Some (Ok oid) -> oid = JS.toLowerCase s.
Proof.
  unfold Routes.ObjectId. destruct (_ && _); [congruence|].
  destruct (_ =? _)%nat; discriminate.
Qed.

Lemma update_upvote_step (s oid : string) (w : World) (i : nat) (m : Meme) :
  Routes.ObjectId s = Some (Ok oid) ->
  list_find (fun x => _id x = oid) (catalog w) = Some (i, m) ->
  (Routes.update_upvote (Some s) w).2
  = {| catalog := <[i := Routes.incUpvotes (clock w (ticks w)) m]> (catalog w);
       clock := clock w;
       ticks := S (ticks w);
       ops := (ops w ++ [Connect]) ++ [FindOneAndUpdate];
       localTZA := localTZA w |}.
Proof.
  intros Hoid Hfind. unfold Routes.update_upvote.
  rewrite (ObjectId_truthy _ _ Hoid). cbn [negb]. run_handler.
  rewrite Hoid. cbn. rewrite Hfind. reflexivity.
Qed.

Lemma track_downloads_step (s oid : string) (w : World) (i : nat) (m : Meme) :
  Routes.ObjectId s = Some (Ok oid) ->
  list_find (fun x => _id x = oid) (catalog w) = Some (i, m) ->
  (Listing.track_downloads (Some s) w).2
  = {| catalog := <[i := Listing.incDownloads (clock w (ticks w)) m]> (catalog w);
       clock := clock w;
       ticks := S (ticks w);
       ops := (ops w ++ [Connect]) ++ [FindOneAndUpdate];
       localTZA := localTZA w |}.
Proof.
  intros Hoid Hfind. unfold Listing.track_downloads.
  rewrite (ObjectId_truthy _ _ Hoid). cbn [negb].
  unfold Listing.respond, Listing.unmodelled. run_handler.
  rewrite Hoid. cbn. rewrite Hfind. reflexivity.
Qed.

Lemma update_upvote_miss (s oid : string) (w : World) :
  Routes.ObjectId s = Some (Ok oid) ->
  list_find (fun x => _id x = oid) (catalog w) = None ->
  (Routes.update_upvote (Some s) w).2
  = {| catalog := catalog w; clock := clock w; ticks := S (ticks w);
       ops := (ops w ++ [Connect]) ++ [FindOneAndUpdate];
       localTZA := localTZA w |}.
Proof.
  intros Hoid Hfind. unfold Routes.update_upvote.
  rewrite (ObjectId_truthy _ _ Hoid). cbn [negb]. run_handler.
  rewrite Hoid. cbn. rewrite Hfind. reflexivity.
Qed.

Lemma track_downloads_miss (s oid : string) (w : World) :
  Routes.ObjectId s = Some (Ok oid) ->
  list_find (fun x => _id x = oid) (catalog w) = None ->
  (Listing.track_downloads (Some s) w).2
  = {| catalog := catalog w; clock := clock w; ticks := S (ticks w);
       ops := (ops w ++ [Connect]) ++ [FindOneAndUpdate];
       localTZA := localTZA w |}.
Proof.
  intros Hoid Hfind. unfold Listing.track_downloads.
  rewrite (ObjectId_truthy _ _ Hoid). cbn [negb].
  unfold Listing.respond, Listing.unmodelled. run_handler.
  rewrite Hoid. cbn. rewrite Hfind. reflexivity.
Qed.

(** X3.  An upvote and a download of the same meme commute: issued one
    after the other in either order, the two requests leave the same
    world (the same catalog, with both counters raised and [updatedAt] at
    the second clock reading, the same clock position and the same log of
    store operations), whatever the id (valid, unknown or malformed). *)
Theorem upvote_download_commute (memeId : string) (w : World) :
  (Listing.track_downloads (Some memeId)
     (Routes.update_upvote (Some memeId) w).2).2
  = (Routes.update_upvote (Some memeId)
       (Listing.track_downloads (Some memeId) w).2).2.
Proof.
  destruct (Routes.ObjectId memeId) as [[oid|]|] eqn:Hoid.
  - destruct (list_find (fun x => _id x = oid) (catalog w)) as [[i m]|] eqn:Hfind.
    + rewrite (update_upvote_step _ _ _ _ _ Hoid Hfind).
      rewrite (track_downloads_step _ _ _ _ _ Hoid Hfind).
      apply list_find_Some in Hfind as Hfacts. destruct Hfacts as (_ & Hid & _).
      erewrite track_downloads_step;
        [|exact Hoid|cbn [catalog]; eapply list_find_insert_same; [exact Hfind|exact Hid]].
      erewrite update_upvote_step;
        [|exact Hoid|cbn [catalog]; eapply list_find_insert_same; [exact Hfind|exact Hid]].
      cbn [catalog clock ticks ops]. now rewrite !list_insert_insert_eq.
    + rewrite (update_upvote_miss _ _ _ Hoid Hfind).
      rewrite (track_downloads_miss _ _ _ Hoid Hfind).
      erewrite track_downloads_miss; [|exact Hoid|exact Hfind].
      erewrite update_upvote_miss; [|exact Hoid|exact Hfind].
      reflexivity.
  - unfold Routes.update_upvote, Listing.track_downloads,
      Listing.respond, Listing.unmodelled.
    destruct (negb (JS.truthy (Some memeId))); [reflexivity|].
    run_handler. rewrite Hoid. reflexivity.
  - unfold Routes.update_upvote, Listing.track_downloads,
      Listing.respond, Listing.unmodelled.
    destruct (negb (JS.truthy (Some memeId))); [reflexivity|].
    run_handler. rewrite Hoid. reflexivity.
Qed.

Lemma upvote_times_found (n : nat) (s oid : string) (w : World) (i : nat) (m : Meme) :
  Routes.ObjectId s = Some (Ok oid) ->
  list_find (fun x => _id x = oid) (catalog w) = Some (i, m) ->
  exists m',
    catalog (upvote_times n s w) = <[i := m']> (catalog w)
    /\ upvotes m' = upvotes m + Z.of_nat n
    /\ downloads m' = downloads m /\ tags m' = tags m
    /\ description m' = description m /\ createdAt m' = createdAt m
    /\ image_url m' = image_url m /\ cloudinary_id m' = cloudinary_id m
    /\ _id m' = _id m.
Proof.
  intros Hoid. revert w m. induction n as [|n IH]; intros w m Hfind.
  - exists m. cbn [upvote_times]. apply list_find_Some in Hfind as (Hi & _ & _).
    rewrite list_insert_id by exact Hi. repeat split; lia.
  - cbn [upvote_times]. rewrite (update_upvote_step _ _ _ _ _ Hoid Hfind).
    apply list_find_Some in Hfind as Hfacts. destruct Hfacts as (_ & Hid & _).
    match goal with |- context [upvote_times n s ?w1] => set (w' := w1) end.
    destruct (IH w' (Routes.incUpvotes (clock w (ticks w)) m)) as (m' & Hc & Hu & Hrest).
    { subst w'. cbn [catalog]. eapply list_find_insert_same; [exact Hfind|exact Hid]. }
    exists m'. subst w'. cbn [catalog] in Hc. rewrite list_insert_insert_eq in Hc.
    split; [exact Hc|]. cbn in Hu, Hrest. split; [lia|exact Hrest].
Qed.

(** X4.  Upvotes accumulate: [n] update-upvote requests for a meme the
    store holds raise its [upvotes] by exactly [n], leave its [downloads]
    and its other fields except [updatedAt] as they were, and leave every
    other record of the catalog untouched. *)
Theorem upvotes_accumulate (n : nat) (s oid : string) (w : World) (i : nat) (m : Meme) :
  Routes.ObjectId s = Some (Ok oid) ->
  list_find (fun x => _id x = oid) (catalog w) = Some (i, m) ->
  let after := catalog (upvote_times n s w) in
  (exists m', after !! i = Some m'
     /\ upvotes m' = upvotes m + Z.of_nat n
     /\ downloads m' = downloads m /\ tags m' = tags m
     /\ description m' = description m /\ createdAt m' = createdAt m
     /\ _id m' = _id m)
  /\ (forall j : nat, j <> i -> after !! j = catalog w !! j)
  /\ length after = length (catalog w).
Proof.
  intros Hoid Hfind after.
  destruct (upvote_times_found n _ _ _ _ _ Hoid Hfind)
    as (m' & Hc & Hu & Hd & Ht & Hde & Hcr & _ & _ & Hid).
  apply list_find_Some in Hfind as (Hi & _ & _).
  assert (Hlt : (i < length (catalog w))%nat) by (eapply lookup_lt_Some; eassumption).
  subst after. rewrite Hc. split; [|split].
  - exists m'. split; [now apply list_lookup_insert_eq|]. repeat split; assumption.
  - intros j Hj. apply list_lookup_insert_ne. congruence.
  - apply length_insert.
Qed.

Lemma upvotes_accumulate_witness :
  let w := Fixtures.world Fixtures.noon [Fixtures.stale; Fixtures.fresh] in
  let after := catalog (upvote_times 3 "65A000000000000000000001" w) in
  (exists m', after !! 1%nat = Some m'
     /\ upvotes m' = upvotes Fixtures.fresh + 3
     /\ downloads m' = downloads Fixtures.fresh /\ tags m' = tags Fixtures.fresh
     /\ description m' = description Fixtures.fresh
     /\ createdAt m' = createdAt Fixtures.fresh
     /\ _id m' = _id Fixtures.fresh)
  /\ (forall j : nat, j <> 1%nat -> after !! j = catalog w !! j)
  /\ length after = length (catalog w).
Proof.
  intros w.
  apply (upvotes_accumulate 3 "65A000000000000000000001"
           "65a000000000000000000001" w 1 Fixtures.fresh);
    vm_compute; reflexivity.
Defined.

(** ** The listings: GET /memes and GET /:tag *)

Lemma listing_success (query : Meme -> bool) (page limit sort : option string)
    (reply : list Api.MemeView -> Api.Pagination.t -> Reply.Body)
    (failure : string) (w : World) (r : Reply.Response) :
  (Listing.listing query page limit sort reply failure w).1 = Some r ->
  Reply.status r = 200 ->
  exists p l n found,
    JS.ToNumber (JS.with_default 1 page) = Some p
    /\ JS.ToNumber (JS.with_default 20 limit) = Some l
    /\ JS.parseInt (JS.with_default 20 limit) = Some n
    /\ 0 <= n
    /\ skip_limit ((p - 1) * l) n (listed query sort (catalog w)) = Ok found
    /\ r = Reply.json 200
             (reply (map Api.view found)
                {| Api.Pagination.current := JS.parseInt (JS.with_default 1 page);
                   Api.Pagination.total :=
                     JS.ceil_div (Z.of_nat (length (List.filter query (catalog w)))) l;
                   Api.Pagination.count := Z.of_nat (length found);
                   Api.Pagination.totalItems :=
                     Z.of_nat (length (List.filter query (catalog w))) |}).
Proof.
  unfold Listing.listing, Listing.respond, Listing.unmodelled.
  destruct (JS.ToNumber (JS.with_default 1 page)) as [p|]; [|discriminate].
  destruct (JS.ToNumber (JS.with_default 20 limit)) as [l|]; [|discriminate].
  destruct (JS.parseInt (JS.with_default 20 limit)) as [n|]; [|discriminate].
  destruct (Z.ltb_spec n 0) as [|Hn]; [discriminate|]. cbn [orb].
  destruct (negb (Routes.followed _ _)); [discriminate|].
  run_handler. cbn. fold (listed query sort (catalog w)).
  destruct (skip_limit _ _ _) as [found|] eqn:Hfound; cbn.
  - intros [= <-] _. now exists p, l, n, found.
  - intros [= <-]. discriminate.
Qed.

Lemma skip_limit_In {A} (s n : Z) (l out : list A) (x : A) :
  skip_limit s n l = Ok out -> In x out -> In x l.
Proof.
  unfold skip_limit. destruct (s <? 0); [discriminate|]. intros [= <-].
  destruct (n =? 0); [apply In_drop|]. intros H%In_take. eapply In_drop, H.
Qed.

Lemma skip_limit_le_length {A} (s n : Z) (l out : list A) :
  skip_limit s n l = Ok out -> (length out <= length l)%nat.
Proof.
  unfold skip_limit. destruct (s <? 0); [discriminate|]. intros [= <-].
  destruct (n =? 0); rewrite ?length_take, length_drop; lia.
Qed.

Lemma listed_In (query : Meme -> bool) (sort : option string) (c : list Meme) (m : Meme) :
  In m (listed query sort c) <-> In m c /\ query m = true.
Proof. unfold listed. now rewrite sort_by_In, filter_In. Qed.

Lemma listed_length (query : Meme -> bool) (sort : option string) (c : list Meme) :
  length (listed query sort c) = length (List.filter query c).
Proof. apply sort_by_length. Qed.

Lemma tagsIn_spec (values : list string) (m : Meme) :
  Listing.tagsIn values m = true <-> exists t, In t (tags m) /\ In t values.
Proof.
  unfold Listing.tagsIn. rewrite existsb_exists. split.
  - intros (t & Ht & (v & Hv & ->%String.eqb_eq)%existsb_exists). eauto.
  - intros (t & Ht & Hv). exists t. split; [exact Ht|].
    apply existsb_exists. exists t. split; [exact Hv|apply String.eqb_refl].
Qed.

(** X5.  GET /memes lists only records of the catalog that pass the tag
    filter.  With a non-empty [tags] parameter a record passes exactly
    when one of its tags is, literally, one of the comma-separated values
    after trimming and lower-casing; without it every record passes.
    [totalItems] is the number of records that pass, whatever the page,
    and [count], the length of the page, never exceeds it. *)
Theorem memes_filtered_by_tags (page limit sort tags : option string) (w : World)
    (ms : list Api.MemeView) (pg : Api.Pagination.t) :
  (Listing.memes page limit sort tags w).1
    = Some (Reply.json 200 (Reply.Memes ms pg)) ->
  (forall e, In e ms ->
     exists m, In m (catalog w) /\ e = Api.view m
       /\ Listing.memesQuery tags m = true)
  /\ Api.Pagination.totalItems pg
     = Z.of_nat (length (List.filter (Listing.memesQuery tags) (catalog w)))
  /\ Api.Pagination.count pg = Z.of_nat (length ms)
  /\ Api.Pagination.count pg <= Api.Pagination.totalItems pg
  /\ (forall m, Listing.memesQuery tags m = true <->
        (JS.truthy tags = false
         \/ exists s t piece, tags = Some s /\ In t (Store.tags m)
              /\ In piece (Listing.split_comma s)
              /\ t = JS.toLowerCase (JS.trim piece))).
Proof.
  intros H. unfold Listing.memes in H.
  destruct (listing_success _ _ _ _ _ _ _ _ H eq_refl)
    as (p & l & n & found & _ & _ & _ & _ & Hfound & [= -> ->]).
  cbn [Api.Pagination.totalItems Api.Pagination.count].
  split; [|split; [reflexivity|split; [now rewrite length_map|split]]].
  - intros e (m & <- & Hm)%in_map_iff.
    apply (skip_limit_In _ _ _ _ _ Hfound), listed_In in Hm as [Hm Hq]. eauto.
  - apply skip_limit_le_length in Hfound. rewrite listed_length in Hfound. lia.
  - intros m. unfold Listing.memesQuery. destruct tags as [s|]; [|tauto].
    destruct (JS.truthy (Some s)) eqn:Ht; [|tauto].
    rewrite tagsIn_spec. unfold Listing.tagArray. split.
    + intros (t & Hin & (piece & <- & Hp)%in_map_iff). right.
      exists s, (JS.toLowerCase (JS.trim piece)), piece. auto.
    + intros [Hf|(s' & t & piece & [= <-] & Hin & Hp & ->)]; [discriminate|].
      exists (JS.toLowerCase (JS.trim piece)). split; [exact Hin|].
      apply in_map_iff. eauto.
Qed.

Lemma memes_filtered_by_tags_witness :
  let w := Fixtures.world Fixtures.noon
             [Fixtures.fresh; Fixtures.stale; Fixtures.quiet1; Fixtures.newer] in
  exists ms pg,
    (Listing.memes None None None (Some " Cat , DOG") w).1
      = Some (Reply.json 200 (Reply.Memes ms pg))
    /\ map Api.id ms = [_id Fixtures.quiet1; _id Fixtures.stale]
    /\ Api.Pagination.totalItems pg = 2
    /\ (forall e, In e ms ->
          exists m, In m (catalog w) /\ e = Api.view m
            /\ Listing.memesQuery (Some " Cat , DOG") m = true).
Proof.
  intros w. eexists _, _. split; [vm_compute; reflexivity|].
  split; [reflexivity|]. split; [reflexivity|].
  eapply (memes_filtered_by_tags None None None (Some " Cat , DOG") w).
  vm_compute. reflexivity.
Defined.

Lemma sort_by_StronglySorted {A} (le : A -> A -> bool) (R : A -> A -> Prop) (l : list A) :
  (forall a b, le a b = true \/ le b a = true) ->
  (forall a b, le a b = true -> R a b) ->
  Transitive R ->
  StronglySorted R (sort_by le l).
Proof.
  intros Htotal Hle Htrans. apply Sorted_StronglySorted; [exact Htrans|].
  pose proof (sort_by_Sorted le Htotal l) as Hs.
  induction Hs as [|a l' _ IH Hhd]; constructor; [exact IH|].
  destruct Hhd; constructor. now apply Hle.
Qed.

Lemma StronglySorted_drop {A} (R : A -> A -> Prop) (n : nat) (l : list A) :
  StronglySorted R l -> StronglySorted R (drop n l).
Proof.
  intros H. rewrite <- (take_drop n l) in H.
  now apply StronglySorted_app_1_r in H.
Qed.

Lemma StronglySorted_skip_limit {A} (R : A -> A -> Prop) (s n : Z) (l out : list A) :
  skip_limit s n l = Ok out -> StronglySorted R l -> StronglySorted R out.
Proof.
  unfold skip_limit. destruct (s <? 0); [discriminate|]. intros [= <-] H.
  destruct (n =? 0); [|apply StronglySorted_take]; now apply StronglySorted_drop.
Qed.

Lemma StronglySorted_map {A B} (f : A -> B) (R : B -> B -> Prop) (l : list A) :
  StronglySorted (fun a b => R (f a) (f b)) l -> StronglySorted R (map f l).
Proof.
  induction 1 as [|a l _ IH Hall]; cbn [map]; constructor; [exact IH|].
  apply List.Forall_forall. intros b' (b & <- & Hb)%in_map_iff.
  rewrite List.Forall_forall in Hall. exact (Hall b Hb).
Qed.

Lemma sortCriteria_spec (sort : option string) (a b : Meme) :
  Listing.sortCriteria sort a b = true <-> listedBefore sort (Api.view a) (Api.view b).
Proof.
  unfold Listing.sortCriteria, listedBefore, Listing.popularFirst,
    Listing.upvotedFirst, Routes.newestFirst. cbn [Api.view Api.upvotes Api.downloads Api.createdAt].
  destruct (String.eqb _ "popular"); [|destruct (String.eqb _ "trending")].
  - destruct (Z.compare_spec (upvotes a) (upvotes b)); rewrite ?Z.leb_le;
      split; intros; try lia; try reflexivity; discriminate.
  - destruct (Z.compare_spec (upvotes a) (upvotes b)); rewrite ?Z.leb_le;
      split; intros; try lia; try reflexivity; discriminate.
  - apply Z.leb_le.
Qed.

Lemma listedBefore_total (sort : option string) (a b : Api.MemeView) :
  listedBefore sort a b \/ listedBefore sort b a.
Proof.
  unfold listedBefore.
  destruct (String.eqb _ "popular"); [|destruct (String.eqb _ "trending")]; lia.
Qed.

Lemma listedBefore_trans (sort : option string) : Transitive (listedBefore sort).
Proof.
  intros a b c. unfold listedBefore.
  destruct (String.eqb _ "popular"); [|destruct (String.eqb _ "trending")]; lia.
Qed.

Lemma listed_sorted (query : Meme -> bool) (sort : option string) (c : list Meme) :
  StronglySorted (fun a b => listedBefore sort (Api.view a) (Api.view b))
    (listed query sort c).
Proof.
  unfold listed. apply sort_by_StronglySorted.
  - intros a b. rewrite !sortCriteria_spec. apply listedBefore_total.
  - intros a b. apply sortCriteria_spec.
  - intros x y z. apply listedBefore_trans.
Qed.

(** X6.  Both listings come in the order the [sort] parameter names:
    [popular] by upvotes and then downloads, [trending] by upvotes and
    then creation time, and any other value (or none) by creation time,
    always descending.  Every entry of a page stands before all the
    entries that follow it. *)
Theorem listings_sorted (page limit sort : option string) (w : World)
    (ms : list Api.MemeView) (pg : Api.Pagination.t) :
  (forall tags,
     (Listing.memes page limit sort tags w).1
       = Some (Reply.json 200 (Reply.Memes ms pg)) ->
     StronglySorted (listedBefore sort) ms)
  /\ (forall tag,
        (Listing.by_tag tag page limit sort w).1
          = Some (Reply.json 200 (Reply.TagMemes tag ms pg)) ->
        StronglySorted (listedBefore sort) ms).
Proof.
  split.
  - intros tags H. unfold Listing.memes in H.
    destruct (listing_success _ _ _ _ _ _ _ _ H eq_refl)
      as (p & l & n & found & _ & _ & _ & _ & Hfound & [= -> _]).
    apply StronglySorted_map.
    eapply StronglySorted_skip_limit; [exact Hfound|apply listed_sorted].
  - intros tag H. unfold Listing.by_tag in H.
    destruct (listing_success _ _ _ _ _ _ _ _ H eq_refl)
      as (p & l & n & found & _ & _ & _ & _ & Hfound & [= -> _]).
    apply StronglySorted_map.
    eapply StronglySorted_skip_limit; [exact Hfound|apply listed_sorted].
Qed.

Lemma listings_sorted_witness :
  let w := Fixtures.world Fixtures.noon
             [Fixtures.fresh; Fixtures.stale; Fixtures.quiet1; Fixtures.newer] in
  exists ms pg,
    (Listing.memes None None (Some "popular") None w).1
      = Some (Reply.json 200 (Reply.Memes ms pg))
    /\ map Api.upvotes ms = [1000; 10; 0; 0]
    /\ StronglySorted (listedBefore (Some "popular")) ms.
Proof.
  intros w. eexists _, _. split; [vm_compute; reflexivity|].
  split; [reflexivity|].
  eapply (proj1 (listings_sorted None None (Some "popular") w _ _) None).
  vm_compute. reflexivity.
Defined.

(** ** Pages tile the listed result *)

Lemma slices_tile {A} (n : nat) (l : list A) (K : nat) :
  concat (map (fun k => slice n k l) (seq 0 K)) = take (K * n) l.
Proof.
  induction K as [|K IH]; [reflexivity|].
  rewrite seq_S, map_app, concat_app, IH. cbn [map concat plus].
  rewrite app_nil_r. unfold slice.
  replace (S K * n)%nat with (K * n + n)%nat by lia.
  apply take_take_drop.
Qed.

Lemma listing_page (query : Meme -> bool) (page limit sort : option string)
    (reply : list Api.MemeView -> Api.Pagination.t -> Reply.Body)
    (failure : string) (w : World) (p n : Z) :
  JS.ToNumber (JS.with_default 1 page) = Some p -> 1 <= p ->
  JS.ToNumber (JS.with_default 20 limit) = Some n ->
  JS.parseInt (JS.with_default 20 limit) = Some n -> 0 < n ->
  Routes.followed ((p - 1) * n) n = true ->
  exists pg,
    (Listing.listing query page limit sort reply failure w).1
    = Some (Reply.json 200
              (reply (map Api.view
                        (slice (Z.to_nat n) (Z.to_nat (p - 1))
                           (listed query sort (catalog w)))) pg)).
Proof.
  intros Hp Hp1 Hl Hn Hpos Hsafe.
  unfold Listing.listing, Listing.respond, Listing.unmodelled.
  rewrite Hp, Hl, Hn, Hsafe. destruct (Z.ltb_spec n 0) as [|_]; [lia|].
  cbn [negb orb].
  run_handler. cbn. fold (listed query sort (catalog w)).
  unfold skip_limit. destruct (Z.ltb_spec ((p - 1) * n) 0) as [|_]; [nia|].
  destruct (Z.eqb_spec n 0) as [|_]; [lia|]. cbn.
  unfold slice. rewrite Z2Nat.inj_mul by lia. eexists. reflexivity.
Qed.

Lemma sorted_unique {A} (R : A -> A -> Prop) (l1 l2 : list A) :
  (forall a b, In a l1 -> In b l1 -> R a b -> R b a -> a = b) ->
  Permutation l1 l2 -> StronglySorted R l1 -> StronglySorted R l2 -> l1 = l2.
Proof.
  revert l2. induction l1 as [|a l1 IH]; intros l2 Hanti Hperm H1 H2.
  - now apply Permutation_nil in Hperm.
  - destruct l2 as [|b l2].
    { symmetry in Hperm. now apply Permutation_nil in Hperm. }
    apply StronglySorted_inv in H1 as [H1 Ha].
    apply StronglySorted_inv in H2 as [H2 Hb].
    rewrite List.Forall_forall in Ha, Hb.
    assert (Hab : a = b).
    { assert (Hin_a : In a (b :: l2))
        by (eapply Permutation_in; [exact Hperm|now left]).
      assert (Hin_b : In b (a :: l1))
        by (eapply Permutation_in; [symmetry; exact Hperm|now left]).
      destruct Hin_a as [->|Hin_a]; [reflexivity|].
      destruct Hin_b as [->|Hin_b]; [reflexivity|].
      apply Hanti; [now left|now right|now apply Ha|now apply Hb]. }
    subst b. f_equal. apply IH; try assumption.
    + intros x y Hx Hy. apply Hanti; now right.
    + eapply Permutation_cons_inv. exact Hperm.
Qed.

Lemma listed_inOrder (query : Meme -> bool) (sort : option string) (c : list Meme) :
  inOrder sort (listed query sort c).
Proof.
  apply sort_by_StronglySorted.
  - intros a b. rewrite !sortCriteria_spec. apply listedBefore_total.
  - auto.
  - intros a b d. rewrite !sortCriteria_spec. apply listedBefore_trans.
Qed.

Lemma listed_only_order (query : Meme -> bool) (sort : option string)
    (c other : list Meme) :
  untied sort (List.filter query c) ->
  Permutation other (List.filter query c) -> inOrder sort other ->
  other = listed query sort c.
Proof.
  intros Hun Hperm Hsorted.
  apply (sorted_unique (fun a b => Listing.sortCriteria sort a b = true)).
  - intros a b Ha Hb. apply Hun; eapply Permutation_in; eassumption.
  - rewrite Hperm. symmetry. apply sort_by_Permutation.
  - exact Hsorted.
  - apply listed_inOrder.
Qed.

(** X7.  The pages of a listing tile its result.  When no two different
    records that pass the filter tie under the sort criteria, the store
    has one order only in which to return them: every ordering of those
    records that the criteria allow is the same list.  For a page number
    [p >= 1] and a limit [n >= 1] (decimal integers, [n] and the [skip]
    safe integers), GET /memes and GET /:tag then answer with slice [p - 1] of
    size [n] of that list; the slices 0, 1, ..., K-1 put end to end are
    its first [K * n] entries, and the whole list once [K * n] reaches
    its length: no entry is served twice and none is skipped. *)
Theorem listing_pages_tile (page limit sort : option string) (w : World) (p n : Z) :
  JS.ToNumber (JS.with_default 1 page) = Some p -> 1 <= p ->
  JS.ToNumber (JS.with_default 20 limit) = Some n ->
  JS.parseInt (JS.with_default 20 limit) = Some n -> 0 < n ->
  JS.safe ((p - 1) * n) = true -> JS.safe n = true ->
  (forall tags,
     let matching := List.filter (Listing.memesQuery tags) (catalog w) in
     let L := listed (Listing.memesQuery tags) sort (catalog w) in
     untied sort matching ->
     (forall other, Permutation other matching -> inOrder sort other -> other = L)
     /\ Permutation L matching /\ inOrder sort L
     /\ listedMemes (Listing.memes page limit sort tags w).1
        = map Api.view (slice (Z.to_nat n) (Z.to_nat (p - 1)) L))
  /\ (forall tag,
        let matching :=
          List.filter (Listing.tagsContain (JS.toLowerCase tag)) (catalog w) in
        let L := listed (Listing.tagsContain (JS.toLowerCase tag)) sort (catalog w) in
        untied sort matching ->
        (forall other, Permutation other matching -> inOrder sort other -> other = L)
        /\ Permutation L matching /\ inOrder sort L
        /\ listedMemes (Listing.by_tag tag page limit sort w).1
           = map Api.view (slice (Z.to_nat n) (Z.to_nat (p - 1)) L))
  /\ (forall (L : list Meme) (K : nat),
        concat (map (fun k => slice (Z.to_nat n) k L) (seq 0 K))
        = take (K * Z.to_nat n) L
        /\ ((length L <= K * Z.to_nat n)%nat ->
            concat (map (fun k => slice (Z.to_nat n) k L) (seq 0 K)) = L)).
Proof.
  intros Hp Hp1 Hl Hn Hpos Hskip Hlim.
  assert (Hsafe : Routes.followed ((p - 1) * n) n = true)
    by (unfold Routes.followed; now rewrite Hskip, Hlim).
  split; [|split].
  - intros tags matching L Hun.
    split; [intros other; now apply listed_only_order|].
    split; [apply sort_by_Permutation|]. split; [apply listed_inOrder|].
    unfold Listing.memes.
    destruct (listing_page (Listing.memesQuery tags) page limit sort Reply.Memes
                "Failed to get memes" w p n Hp Hp1 Hl Hn Hpos Hsafe) as [pg ->].
    reflexivity.
  - intros tag matching L Hun.
    split; [intros other; now apply listed_only_order|].
    split; [apply sort_by_Permutation|]. split; [apply listed_inOrder|].
    unfold Listing.by_tag.
    destruct (listing_page (Listing.tagsContain (JS.toLowerCase tag)) page limit sort
                (Reply.TagMemes tag) "Failed to get memes by tag" w p n
                Hp Hp1 Hl Hn Hpos Hsafe) as [pg ->].
    reflexivity.
  - intros L K. split; [apply slices_tile|].
    intros Hlen. rewrite slices_tile. now apply take_ge.
Qed.

Lemma listing_pages_tile_witness :
  let w := Fixtures.world Fixtures.noon
             [Fixtures.fresh; Fixtures.stale; Fixtures.quiet1; Fixtures.justNow] in
  let L := listed (Listing.memesQuery None) None (catalog w) in
  listedMemes (Listing.memes (Some "2") (Some "3") None None w).1
  = map Api.view (slice 3 1 L)
  /\ map Api.id (listedMemes (Listing.memes (Some "2") (Some "3") None None w).1)
     = [_id Fixtures.stale]
  /\ [Fixtures.justNow; Fixtures.quiet1; Fixtures.fresh; Fixtures.stale] = L
  /\ concat (map (fun k => slice 3 k L) (seq 0 2)) = L.
Proof.
  intros w L.
  destruct (listing_pages_tile (Some "2") (Some "3") None w 2 3
              eq_refl ltac:(lia) eq_refl eq_refl ltac:(lia) eq_refl eq_refl)
    as (Hm & _ & Htile).
  assert (Hun : untied None (List.filter (Listing.memesQuery None) (catalog w))).
  { intros a b Ha Hb.
    destruct Ha as [<-|[<-|[<-|[<-|[]]]]]; destruct Hb as [<-|[<-|[<-|[<-|[]]]]];
      intros H1 H2; try reflexivity; vm_compute in H1, H2; discriminate. }
  destruct (Hm None Hun) as (Honly & _ & _ & Hpage).
  split; [exact Hpage|]. split; [vm_compute; reflexivity|].
  split.
  - apply Honly; [vm_compute|].
    + eapply perm_trans; [apply perm_swap|]. eapply perm_trans; [apply perm_skip, perm_swap|].
      eapply perm_trans; [apply perm_swap|].
      apply perm_skip. eapply perm_trans; [apply perm_skip, perm_swap|].
      apply perm_swap.
    + repeat (constructor; [|repeat constructor; vm_compute; reflexivity]).
      constructor.
  - apply (proj2 (Htile L 2%nat)). vm_compute. lia.
Defined.

Lemma tagsContain_In (value : string) (m : Meme) :
  Listing.tagsContain value m = true <-> In value (tags m).
Proof.
  unfold Listing.tagsContain. rewrite existsb_exists. split.
  - now intros (t & Ht & ->%String.eqb_eq).
  - intros H. exists value. split; [exact H|apply String.eqb_refl].
Qed.

(** X8.  GET /:tag lists exactly the records whose tag sequence holds the
    requested tag in lower case: every listed entry has it among its
    tags, [totalItems] is the number of catalog records that have it, and
    the letter case of the request does not matter.  Stored tags are
    compared as they are, so a record none of whose tags is in lower case
    is listed under no tag at all. *)
Theorem by_tag_lists_lowercase_tag (tag : string) (page limit sort : option string)
    (w : World) (ms : list Api.MemeView) (pg : Api.Pagination.t) :
  (Listing.by_tag tag page limit sort w).1
    = Some (Reply.json 200 (Reply.TagMemes tag ms pg)) ->
  (forall e, In e ms ->
     In (JS.toLowerCase tag) (Api.tags e)
     /\ exists m, In m (catalog w) /\ e = Api.view m)
  /\ Api.Pagination.totalItems pg
     = Z.of_nat (length (Spec.recordsWith (JS.toLowerCase tag) (catalog w)))
  /\ (Listing.by_tag (JS.toLowerCase tag) page limit sort w).1
     = Some (Reply.json 200 (Reply.TagMemes (JS.toLowerCase tag) ms pg))
  /\ (forall m, (forall t, In t (tags m) -> JS.toLowerCase t <> t) ->
        forall request, Listing.tagsContain (JS.toLowerCase request) m = false).
Proof.
  intros H. pose proof H as H'. unfold Listing.by_tag in H.
  destruct (listing_success _ _ _ _ _ _ _ _ H eq_refl)
    as (p & l & n & found & Hp & Hl & Hn & Hn0 & Hfound & [= -> ->]).
  split; [|split; [reflexivity|split]].
  - intros e (m & <- & Hm)%in_map_iff.
    apply (skip_limit_In _ _ _ _ _ Hfound), listed_In in Hm as [Hm Hq].
    split; [|eauto]. now apply tagsContain_In in Hq.
  - unfold Listing.by_tag in *. rewrite toLowerCase_idem.
    unfold Listing.listing, Listing.respond, Listing.unmodelled in *.
    rewrite Hp, Hl, Hn in *. destruct (n <? 0); [discriminate|]. cbn [orb] in *.
    destruct (negb (Routes.followed _ _)); [discriminate|].
    run_handler. cbn in *.
    destruct (skip_limit _ _ _); cbn in *; [|discriminate].
    now injection H' as -> ->.
  - intros m Hup request.
    destruct (Listing.tagsContain _ m) eqn:Hc; [|reflexivity].
    apply tagsContain_In in Hc. destruct (Hup _ Hc). apply toLowerCase_idem.
Qed.

Lemma by_tag_lists_lowercase_tag_witness :
  let w := Fixtures.world Fixtures.noon
             [Fixtures.fresh; Fixtures.stale; Fixtures.quiet1; Fixtures.category] in
  exists ms pg,
    (Listing.by_tag "CAT" None None None w).1
      = Some (Reply.json 200 (Reply.TagMemes "CAT" ms pg))
    /\ map Api.id ms = [_id Fixtures.category; _id Fixtures.stale]
    /\ (forall e, In e ms ->
          In "cat" (Api.tags e) /\ exists m, In m (catalog w) /\ e = Api.view m)
    /\ Api.Pagination.totalItems pg = 2.
Proof.
  intros w. eexists _, _. split; [vm_compute; reflexivity|].
  split; [reflexivity|].
  edestruct (by_tag_lists_lowercase_tag "CAT" None None None w) as (Hin & Htot & _);
    [vm_compute; reflexivity|].
  split; [exact Hin|reflexivity].
Defined.

(** X9.  The popular-tags count and the tag listing agree: when no record
    repeats a tag, the [count] that GET /popular reports for a lower-case
    tag is the [totalItems] that GET /:tag reports for it over the same
    catalog. *)
Theorem popular_count_is_tag_total (limit : option string) (w w' : World)
    (out : list Api.TagStat) (e : Api.TagStat)
    (page limit' sort : option string) (ms : list Api.MemeView)
    (pg : Api.Pagination.t) :
  (forall m, In m (catalog w) -> NoDup (tags m)) ->
  catalog w' = catalog w ->
  (Routes.popular limit w).1 = Some (Api.json 200 (Api.PopularResult out)) ->
  In e out ->
  JS.toLowerCase (Api.tag e) = Api.tag e ->
  (Listing.by_tag (Api.tag e) page limit' sort w').1
    = Some (Reply.json 200 (Reply.TagMemes (Api.tag e) ms pg)) ->
  Api.Pagination.totalItems pg = Api.count e.
Proof.
  intros Hnd Hcat Hpop He Hlow Htag.
  destruct (popular_success _ _ _ Hpop) as (n & top & _ & Htop & ->).
  unfold stage_limit in Htop. destruct (n <=? 0); [discriminate|].
  injection Htop as <-.
  apply in_map_iff in He as (s & <- & Hs%In_take).
  destruct (popular_entry _ _ Hs) as [Hstat _].
  cbn [Routes.projectTag Api.tag Api.count] in *.
  unfold Listing.by_tag in Htag.
  destruct (listing_success _ _ _ _ _ _ _ _ Htag eq_refl)
    as (p & l & n' & found & _ & _ & _ & _ & _ & [= _ ->]).
  cbn [Api.Pagination.totalItems]. rewrite Hlow, Hcat.
  rewrite Hstat at 2. cbn [Routes.tagStat Api.count snd].
  rewrite members_unwind_length, (count_recordsWith _ _ Hnd). reflexivity.
Qed.

Lemma popular_count_is_tag_total_witness :
  let w := Fixtures.world Fixtures.noon
             [Fixtures.fresh; Fixtures.stale; Fixtures.quiet1; Fixtures.quiet2] in
  exists out e ms pg,
    (Routes.popular None w).1 = Some (Api.json 200 (Api.PopularResult out))
    /\ In e out /\ Api.tag e = "dog"
    /\ (Listing.by_tag "dog" None None None w).1
       = Some (Reply.json 200 (Reply.TagMemes "dog" ms pg))
    /\ Api.Pagination.totalItems pg = Api.count e
    /\ Api.count e = 2.
Proof.
  intros w. eexists _, _, _, _.
  split; [vm_compute; reflexivity|].
  split; [left; reflexivity|]. split; [reflexivity|].
  split; [vm_compute; reflexivity|]. split; [|reflexivity].
  eapply (popular_count_is_tag_total None w w _ _ None None None).
  - intros m Hm. cbn in Hm.
    repeat (destruct Hm as [<-|Hm]; [apply (bool_decide_unpack _); vm_compute; exact I|]).
    contradiction.
  - reflexivity.
  - vm_compute. reflexivity.
  - left. reflexivity.
  - reflexivity.
  - vm_compute. reflexivity.
Defined.

(** ** More on GET /search *)

Lemma filter_length_pos {A} (f : A -> bool) (l : list A) (x : A) :
  In x l -> f x = true -> (1 <= length (List.filter f l))%nat.
Proof.
  intros Hin Hf. assert (H : In x (List.filter f l)) by now apply filter_In.
  destruct (List.filter f l); [destruct H|cbn; lia].
Qed.

Lemma toLowerCase_nonempty (s : string) :
  s <> EmptyString -> JS.toLowerCase s <> EmptyString.
Proof. destruct s; [congruence|discriminate]. Qed.

Lemma searchQuery_score (q : string) (m : Meme) :
  Routes.searchQuery (Routes.searchWords q) m = true ->
  1 <= Routes.relevanceScore (Routes.searchWords q) m
  /\ exists word, In word (Routes.searchWords q)
       /\ ((exists tag, In tag (tags m) /\ JS.includes (JS.toLowerCase tag) word = true)
           \/ JS.includes (JS.toLowerCase (description m)) word = true).
Proof.
  set (words := Routes.searchWords q).
  unfold Routes.searchQuery, Routes.relevanceScore.
  assert (Hd : 0 <= Routes.descriptionMatches words m).
  { unfold Routes.descriptionMatches. destruct (JS.truthy _); lia. }
  assert (Ht : 0 <= Routes.tagMatches words m) by (unfold Routes.tagMatches; lia).
  intros [Htag|Hdesc]%orb_prop.
  - apply existsb_exists in Htag as (tag & Hin & Hre). split.
    + assert (1 <= Routes.tagMatches words m); [|lia].
      unfold Routes.tagMatches.
      pose proof (filter_length_pos _ _ tag Hin Hre). unfold regex_test in H. lia.
    + unfold regex_test in Hre. apply existsb_exists in Hre as (word & Hw & Hinc).
      exists word. split; [exact Hw|]. left. exists tag. split; [exact Hin|].
      now rewrite (searchWords_lower q word Hw) in Hinc.
  - unfold regex_test in Hdesc. apply existsb_exists in Hdesc as (word & Hw & Hinc).
    split.
    + assert (1 <= Routes.descriptionMatches words m); [|lia].
      unfold Routes.descriptionMatches.
      destruct (JS.truthy (Some (description m))) eqn:Htr.
      * pose proof (filter_length_pos
          (fun word => JS.includes (JS.toLowerCase (description m)) (JS.toLowerCase word))
          words word Hw Hinc). lia.
      * unfold JS.truthy in Htr. apply negb_false_iff, String.eqb_eq in Htr.
        rewrite Htr in Hinc. cbn [JS.toLowerCase] in Hinc.
        rewrite includes_empty in Hinc; [discriminate|].
        apply toLowerCase_nonempty. eapply searchWords_nonempty, Hw.
    + exists word. split; [exact Hw|]. right.
      now rewrite (searchWords_lower q word Hw) in Hinc.
Qed.

(** X10.  Search is sound for plain words.  When no token of the query
    holds regular-expression syntax (a backslash or one of
    [^$.|?*+()[]{}]), every entry of a search response is a catalog
    record in which some token occurs, as a substring of one of its tags
    or of its description (letter case ignored); its [relevanceScore] is
    the score of that record and is at least 1.  (A token with pattern
    syntax is matched by the store as a pattern and scored as a
    substring, and the two need not agree.) *)
Theorem search_results_match (q page limit : option string) (w : World)
    (qs : string) (words : list string) (ms : list Api.ScoredMeme)
    (pg : Api.Pagination.t) :
  (Routes.search q page limit w).1
    = Some (Api.json 200 (Api.SearchResult qs words ms pg)) ->
  forallb regex_plain words = true ->
  forall e, In e ms ->
    exists m, In m (catalog w)
      /\ e = Routes.withRelevance words m
      /\ 1 <= Api.relevanceScore e
      /\ exists word, In word words
           /\ ((exists tag, In tag (tags m)
                  /\ JS.includes (JS.toLowerCase tag) word = true)
               \/ JS.includes (JS.toLowerCase (description m)) word = true).
Proof.
  intros H _ e He.
  destruct (search_success _ _ _ _ _ _ _ _ H)
    as (p & l & n & found & _ & -> & _ & _ & _ & Hfound & ->).
  apply sort_by_In, in_map_iff in He as (m & <- & Hm).
  apply (skip_limit_In _ _ _ _ _ Hfound), sort_by_In, filter_In in Hm as [Hm Hq].
  exists m. split; [exact Hm|]. split; [reflexivity|].
  exact (searchQuery_score qs m Hq).
Qed.

Lemma search_results_match_witness :
  let w := Fixtures.world Fixtures.noon
             [Fixtures.fresh; Fixtures.stale; Fixtures.quiet1; Fixtures.category] in
  exists qs words ms pg,
    (Routes.search (Some "Cat  pointing") None None w).1
      = Some (Api.json 200 (Api.SearchResult qs words ms pg))
    /\ map Api.relevanceScore ms = [3; 2; 2]
    /\ forall e, In e ms ->
         exists m, In m (catalog w)
           /\ e = Routes.withRelevance words m
           /\ 1 <= Api.relevanceScore e
           /\ exists word, In word words
                /\ ((exists tag, In tag (tags m)
                       /\ JS.includes (JS.toLowerCase tag) word = true)
                    \/ JS.includes (JS.toLowerCase (description m)) word = true).
Proof.
  intros w. eexists _, _, _, _. split; [vm_compute; reflexivity|].
  split; [reflexivity|].
  eapply (search_results_match (Some "Cat  pointing") None None w);
    vm_compute; reflexivity.
Defined.

Lemma Permutation_filter_length {A} (f : A -> bool) (l1 l2 : list A) :
  Permutation l1 l2 -> length (List.filter f l1) = length (List.filter f l2).
Proof.
  induction 1 as [|x l1 l2 _ IH|x y l|l1 l2 l3 _ IH1 _ IH2]; cbn.
  - reflexivity.
  - destruct (f x); cbn; now rewrite IH.
  - destruct (f x), (f y); reflexivity.
  - congruence.
Qed.

Lemma Permutation_existsb {A} (f : A -> bool) (l1 l2 : list A) :
  Permutation l1 l2 -> existsb f l1 = existsb f l2.
Proof.
  induction 1 as [|x l1 l2 _ IH|x y l|l1 l2 l3 _ IH1 _ IH2]; cbn.
  - reflexivity.
  - now rewrite IH.
  - destruct (f x), (f y); reflexivity.
  - congruence.
Qed.

(** X11.  The relevance score does not depend on the order of the query
    tokens: two token lists that are permutations of each other give
    every record the same score. *)
Theorem relevanceScore_order_invariant (words1 words2 : list string) (m : Meme) :
  Permutation words1 words2 ->
  Routes.relevanceScore words1 m = Routes.relevanceScore words2 m.
Proof.
  intros Hp. unfold Routes.relevanceScore, Routes.descriptionMatches, Routes.tagMatches.
  rewrite (Permutation_filter_length _ _ _ Hp).
  rewrite (length_filter_ext
    (fun tag => existsb
       (fun word => JS.includes (JS.toLowerCase tag) (JS.toLowerCase word)) words1)
    (fun tag => existsb
       (fun word => JS.includes (JS.toLowerCase tag) (JS.toLowerCase word)) words2));
    [reflexivity|].
  intros tag _. now apply Permutation_existsb.
Qed.

Lemma relevanceScore_order_invariant_witness :
  Routes.relevanceScore (Routes.searchWords "choices drake") Fixtures.fresh
  = Routes.relevanceScore (Routes.searchWords "drake choices") Fixtures.fresh.
Proof.
  apply relevanceScore_order_invariant. vm_compute. apply perm_swap.
Defined.

Lemma compareRelevance_spec (a b : Api.ScoredMeme) :
  (Routes.compareRelevance a b <=? 0) = true <-> rankedBefore a b.
Proof.
  unfold Routes.compareRelevance, rankedBefore. rewrite Z.leb_le.
  destruct (Z.eqb_spec (Api.relevanceScore b) (Api.relevanceScore a)); cbn [negb]; lia.
Qed.

(** X12.  Within a search page the entries are ordered by relevance
    score, highest first, and by creation time, newest first, among equal
    scores: every entry stands before all the entries that follow it. *)
Theorem search_page_sorted (q page limit : option string) (w : World)
    (qs : string) (words : list string) (ms : list Api.ScoredMeme)
    (pg : Api.Pagination.t) :
  (Routes.search q page limit w).1
    = Some (Api.json 200 (Api.SearchResult qs words ms pg)) ->
  StronglySorted rankedBefore ms.
Proof.
  intros H.
  destruct (search_success _ _ _ _ _ _ _ _ H)
    as (p & l & n & found & _ & _ & _ & _ & _ & _ & ->).
  unfold Routes.sortRelevance. apply sort_by_StronglySorted.
  - intros a b. rewrite !compareRelevance_spec. unfold rankedBefore. lia.
  - intros a b. apply compareRelevance_spec.
  - intros a b c. unfold rankedBefore. lia.
Qed.

Lemma search_page_sorted_witness :
  let w := Fixtures.world Fixtures.noon
             [Fixtures.newer; Fixtures.older; Fixtures.category] in
  exists qs words ms pg,
    (Routes.search (Some "cat dog") None None w).1
      = Some (Api.json 200 (Api.SearchResult qs words ms pg))
    /\ map Api.relevanceScore ms = [4; 2; 2]
    /\ StronglySorted rankedBefore ms.
Proof.
  intros w. eexists _, _, _, _. split; [vm_compute; reflexivity|].
  split; [reflexivity|].
  eapply (search_page_sorted (Some "cat dog") None None w).
  vm_compute. reflexivity.
Defined.

Lemma search_success_pagination (q page limit : option string) (w : World)
    (qs : string) (words : list string) (ms : list Api.ScoredMeme)
    (pg : Api.Pagination.t) :
  (Routes.search q page limit w).1
    = Some (Api.json 200 (Api.SearchResult qs words ms pg)) ->
  exists p l n found,
    JS.ToNumber (JS.with_default 1 page) = Some p
    /\ JS.ToNumber (JS.with_default 20 limit) = Some l
    /\ JS.parseInt (JS.with_default 20 limit) = Some n
    /\ skip_limit ((p - 1) * l) n
         (sort_by Routes.newestFirst
            (List.filter (Routes.searchQuery words) (catalog w))) = Ok found
    /\ length ms = length found
    /\ pg = {| Api.Pagination.current := JS.parseInt (JS.with_default 1 page);
               Api.Pagination.total :=
                 JS.ceil_div
                   (Z.of_nat (length (List.filter (Routes.searchQuery words) (catalog w)))) l;
               Api.Pagination.count := Z.of_nat (length found);
               Api.Pagination.totalItems :=
                 Z.of_nat (length (List.filter (Routes.searchQuery words) (catalog w))) |}.
Proof.
  unfold Routes.search. destruct q as [s|]; [|discriminate].
  destruct (negb (JS.truthy (Some s))); [discriminate|].
  destruct (length (Routes.searchWords s) =? 0)%nat; [discriminate|].
  destruct (JS.ToNumber (JS.with_default 1 page)) as [p|]; [|discriminate].
  destruct (JS.ToNumber (JS.with_default 20 limit)) as [l|]; [|discriminate].
  destruct (JS.parseInt (JS.with_default 20 limit)) as [n|]; [|discriminate].
  destruct (negb (forallb _ _) || _ || _); [discriminate|].
  run_handler. cbn.
  destruct (skip_limit _ _ _) as [found|] eqn:Hfound; cbn; [|discriminate].
  intros [= <- <- <- <-]. exists p, l, n, found.
  repeat split; try assumption.
  unfold Routes.sortRelevance. now rewrite sort_by_length, length_map.
Qed.

Lemma skip_limit_count {A} (s n : Z) (l out : list A) :
  skip_limit s n l = Ok out -> 0 < n ->
  0 <= s /\ Z.of_nat (length out) = Z.max 0 (Z.min n (Z.of_nat (length l) - s)).
Proof.
  unfold skip_limit. destruct (Z.ltb_spec s 0); [discriminate|].
  intros [= <-] Hn. destruct (Z.eqb_spec n 0); [lia|].
  rewrite length_take, length_drop. lia.
Qed.

(** X13.  The pagination block of a search response: [totalItems] is the
    number of catalog records the query matches, whatever the page;
    [count] is the length of the page and never exceeds [totalItems];
    [current] is the parsed page number.  For a positive integer limit
    [n] the page holds [min n (totalItems - skip)] entries, none when
    [skip] is past the end (the response is still a success), and [total]
    is the number of pages: the least [k] with [k * n >= totalItems]. *)
Theorem search_pagination_block (q page limit : option string) (w : World)
    (qs : string) (words : list string) (ms : list Api.ScoredMeme)
    (pg : Api.Pagination.t) :
  (Routes.search q page limit w).1
    = Some (Api.json 200 (Api.SearchResult qs words ms pg)) ->
  let T := Z.of_nat (length (List.filter (Routes.searchQuery words) (catalog w))) in
  Api.Pagination.totalItems pg = T
  /\ Api.Pagination.count pg = Z.of_nat (length ms)
  /\ Api.Pagination.count pg <= T
  /\ Api.Pagination.current pg = JS.parseInt (JS.with_default 1 page)
  /\ (forall p n,
        JS.ToNumber (JS.with_default 1 page) = Some p ->
        JS.ToNumber (JS.with_default 20 limit) = Some n ->
        JS.parseInt (JS.with_default 20 limit) = Some n -> 0 < n ->
        0 <= (p - 1) * n
        /\ Api.Pagination.count pg = Z.max 0 (Z.min n (T - (p - 1) * n))
        /\ exists k, Api.Pagination.total pg = Some k
             /\ (k - 1) * n < T <= k * n).
Proof.
  intros H T.
  destruct (search_success_pagination _ _ _ _ _ _ _ _ H)
    as (p & l & n & found & Hp & Hl & Hn & Hfound & Hlen & ->).
  cbn [Api.Pagination.totalItems Api.Pagination.count Api.Pagination.current
       Api.Pagination.total].
  split; [reflexivity|]. split; [now rewrite Hlen|]. split.
  { apply skip_limit_le_length in Hfound. rewrite sort_by_length in Hfound.
    subst T. lia. }
  split; [reflexivity|].
  intros p' n' Hp' Hl' Hn' Hpos.
  assert (p' = p) as -> by congruence. assert (n' = l) as -> by congruence.
  assert (n = l) as -> by congruence.
  destruct (skip_limit_count _ _ _ _ Hfound Hpos) as [Hskip Hcount].
  rewrite sort_by_length in Hcount. fold T in Hcount.
  split; [exact Hskip|]. split; [exact Hcount|].
  unfold JS.ceil_div. destruct (Z.eqb_spec l 0); [lia|].
  eexists. split; [reflexivity|]. fold T.
  pose proof (Z.div_mod (- T) l ltac:(lia)) as Hdm.
  pose proof (Z.mod_pos_bound (- T) l Hpos) as Hmod.
  clearbody T. clear - Hdm Hmod Hpos.
  set (d := - T / l) in *. set (r := - T mod l) in *. clearbody d r. nia.
Qed.

Lemma search_pagination_block_witness :
  let w := Fixtures.world Fixtures.noon Fixtures.crowd in
  exists qs words ms pg,
    (Routes.search (Some "cat") (Some "11") (Some "10") w).1
      = Some (Api.json 200 (Api.SearchResult qs words ms pg))
    /\ Api.Pagination.totalItems pg = 101
    /\ Api.Pagination.count pg = 1
    /\ Api.Pagination.total pg = Some 11
    /\ Api.Pagination.count pg
       = Z.max 0 (Z.min 10
           (Z.of_nat (length (List.filter (Routes.searchQuery words) (catalog w)))
            - (11 - 1) * 10)).
Proof.
  intros w. eexists _, _, _, _. split; [vm_compute; reflexivity|].
  split; [reflexivity|]. split; [reflexivity|]. split; [reflexivity|].
  edestruct (search_pagination_block (Some "cat") (Some "11") (Some "10") w)
    as (_ & _ & _ & _ & Hpage); [vm_compute; reflexivity|].
  exact (proj1 (proj2 (Hpage 11 10 eq_refl eq_refl eq_refl ltac:(lia)))).
Defined.

(** ** More on the tag pipelines *)

Lemma In_unwind (t : string) (m : Meme) (c : list Meme) :
  In (t, m) (unwind c) <-> In m c /\ In t (tags m).
Proof.
  unfold unwind. rewrite in_flat_map. split.
  - intros (m' & Hm' & (t' & [= <- <-] & Ht)%in_map_iff). auto.
  - intros [Hm Ht]. exists m. split; [exact Hm|]. apply in_map_iff. eauto.
Qed.

Lemma In_members {V} (k : string) (v : V) (l : list (string * V)) :
  In v (members k l) <-> In (k, v) l.
Proof.
  unfold members. rewrite in_map_iff. split.
  - intros ([k' v'] & <- & [Hin ->%String.eqb_eq]%filter_In). exact Hin.
  - intros Hin. exists (k, v). split; [reflexivity|].
    apply filter_In. split; [exact Hin|apply String.eqb_refl].
Qed.

Lemma group_by_row {V} (l : list (string * V)) (k : string) (vs : list V) :
  In (k, vs) (map_to_list (group_by l)) ->
  vs = members k l /\ exists v, In (k, v) l.
Proof.
  intros H%list_elem_of_In%elem_of_map_to_list.
  rewrite group_by_lookup in H.
  destruct (members k l) as [|v vs'] eqn:Hm; [discriminate|].
  injection H as <-. split; [reflexivity|].
  exists v. apply In_members. rewrite Hm. now left.
Qed.

Lemma group_by_keys_NoDup {V} (l : list (string * V)) :
  NoDup (map fst (map_to_list (group_by l))).
Proof. exact (NoDup_fst_map_to_list (group_by l)). Qed.

Lemma NoDup_take_list {A} (n : nat) (l : list A) : NoDup l -> NoDup (take n l).
Proof.
  intros H. rewrite <- (take_drop n l) in H. now apply NoDup_app in H as [H _].
Qed.

Lemma map_take {A B} (f : A -> B) (n : nat) (l : list A) :
  map f (take n l) = take n (map f l).
Proof. revert l. induction n as [|n IH]; intros [|x l]; cbn; congruence. Qed.

Lemma suggestPipeline_tags (pattern : string) (c : list Meme) :
  exists ts,
    Routes.suggestPipeline pattern c = Ok ts
    /\ (length ts <= 10)%nat
    /\ NoDup ts
    /\ forall t, In t ts ->
         (exists m, In m c /\ In t (tags m))
         /\ JS.includes (JS.toLowerCase t) (JS.toLowerCase pattern) = true.
Proof.
  unfold Routes.suggestPipeline.
  set (matched := List.filter _ (unwind c)).
  set (rows := map _ (map_to_list (group_by matched))).
  eexists. split; [reflexivity|].
  split; [rewrite length_map, length_take; cbn; lia|]. split.
  - rewrite map_take. apply NoDup_take_list.
    rewrite (Permutation_map fst (sort_by_Permutation _ rows)).
    subst rows. rewrite List.map_map. cbn [fst]. apply group_by_keys_NoDup.
  - intros t (row & <- & Hrow%In_take%sort_by_In)%in_map_iff.
    subst rows. apply in_map_iff in Hrow as ([k vs] & <- & Hg). cbn [fst].
    apply group_by_row in Hg as [_ (m & Hm)].
    subst matched. apply filter_In in Hm as [Hun Hre]. cbn [fst] in Hre.
    apply In_unwind in Hun as [Hm Ht]. split; [eauto|].
    unfold regex_test in Hre. cbn [existsb] in Hre.
    now rewrite orb_false_r in Hre.
Qed.

(** X14.  The tag suggestions of GET /search-assist are at most 10 tags,
    without repetition; each of them is a tag of some record of the
    catalog and, when the query holds no regular-expression syntax (a
    backslash or one of [^$.|?*+()[]{}]), contains the query as a
    substring, letter case ignored. *)
Theorem search_assist_suggestions (q : option string) (w : World) (ts : list string) :
  (Routes.search_assist q w).1 = Some (Api.json 200 (Api.SuggestResult ts)) ->
  (length ts <= 10)%nat
  /\ NoDup ts
  /\ forall t, In t ts ->
       (exists m, In m (catalog w) /\ In t (tags m))
       /\ forall qs, q = Some qs -> regex_plain (JS.toLowerCase qs) = true ->
            JS.includes (JS.toLowerCase t) (JS.toLowerCase qs) = true.
Proof.
  unfold Routes.search_assist.
  destruct q as [qs|]; [|intros [= <-]; split; [cbn; lia|split; [constructor|intros t []]]].
  destruct (negb (JS.truthy (Some qs)));
    [intros [= <-]; split; [cbn; lia|split; [constructor|intros t []]]|].
  destruct (negb (regex_plain _)); [discriminate|].
  run_handler. cbn [catalog].
  destruct (suggestPipeline_tags (JS.toLowerCase qs) (catalog w))
    as (ts' & -> & Hlen & Hnd & Hin).
  intros [= <-]. split; [exact Hlen|]. split; [exact Hnd|].
  intros t Ht. destruct (Hin t Ht) as [Hm Hinc]. split; [exact Hm|].
  intros qs' [= <-] _. now rewrite toLowerCase_idem in Hinc.
Qed.

Lemma search_assist_suggestions_witness :
  let w := Fixtures.world Fixtures.noon
             [Fixtures.fresh; Fixtures.stale; Fixtures.category; Fixtures.twice] in
  exists ts,
    (Routes.search_assist (Some "CA") w).1
      = Some (Api.json 200 (Api.SuggestResult ts))
    /\ ts = ["cat"; "category"]
    /\ NoDup ts
    /\ forall t, In t ts ->
         (exists m, In m (catalog w) /\ In t (tags m))
         /\ JS.includes (JS.toLowerCase t) "ca" = true.
Proof.
  intros w. eexists. split; [vm_compute; reflexivity|]. split; [reflexivity|].
  edestruct (search_assist_suggestions (Some "CA") w) as (_ & Hnd & Hin);
    [vm_compute; reflexivity|].
  split; [exact Hnd|]. intros t Ht. split; [exact (proj1 (Hin t Ht))|].
  exact (proj2 (Hin t Ht) "CA" eq_refl eq_refl).
Defined.

(** ** More on GET /trending *)

Lemma round_half_even_bounds (q : Q) :
  Qfloor q <= round_half_even q <= Qfloor q + 1.
Proof.
  unfold round_half_even. destruct (_ ?= _)%Q; [destruct (Z.even _)| |]; lia.
Qed.

Lemma round_half_even_mono (q1 q2 : Q) :
  (q1 <= q2)%Q -> round_half_even q1 <= round_half_even q2.
Proof.
  intros Hle. pose proof (Qfloor_resp_le _ _ Hle) as Hf.
  destruct (Z.eq_dec (Qfloor q1) (Qfloor q2)) as [Heq|Hne].
  - unfold round_half_even. rewrite <- Heq.
    destruct (Qcompare_spec (q1 - inject_Z (Qfloor q1)) (1 # 2)) as [H1|H1|H1];
      destruct (Qcompare_spec (q2 - inject_Z (Qfloor q1)) (1 # 2)) as [H2|H2|H2];
      try (destruct (Z.even (Qfloor q1))); try lia; exfalso; lra.
  - pose proof (round_half_even_bounds q1). pose proof (round_half_even_bounds q2). lia.
Qed.

Lemma round_to_mono (places : nat) (q1 q2 : Q) :
  (q1 <= q2)%Q -> (round_to places q1 <= round_to places q2)%Q.
Proof.
  intros Hle. unfold round_to.
  assert (Hs : 0 < 10 ^ Z.of_nat places) by (apply Z.pow_pos_nonneg; lia).
  unfold Qle. cbn [Qnum Qden]. apply Z.mul_le_mono_nonneg_r; [lia|].
  apply round_half_even_mono. apply Qmult_le_compat_r; [exact Hle|].
  change 0%Q with (inject_Z 0). rewrite <- Zle_Qle. lia.
Qed.

Lemma trendingOrder_score (a b : Routes.Scored) :
  Routes.trendingOrder a b = true -> (Routes.score b <= Routes.score a)%Q.
Proof.
  unfold Routes.trendingOrder.
  destruct (Qcompare_spec (Routes.score a) (Routes.score b)) as [H|H|H];
    intros Ho; try discriminate; lra.
Qed.

Lemma trendingOrder_total (a b : Routes.Scored) :
  Routes.trendingOrder a b = true \/ Routes.trendingOrder b a = true.
Proof.
  unfold Routes.trendingOrder.
  destruct (Qcompare_spec (Routes.score a) (Routes.score b)) as [H|H|H];
    destruct (Qcompare_spec (Routes.score b) (Routes.score a)) as [H'|H'|H'];
    try (exfalso; lra); auto.
  destruct (Z.compare_spec (upvotes (Routes.doc a)) (upvotes (Routes.doc b)));
    destruct (Z.compare_spec (upvotes (Routes.doc b)) (upvotes (Routes.doc a)));
    try lia; auto; rewrite !Z.leb_le; lia.
Qed.

(** X15.  The scores a trending response reports never increase down the
    page: each entry's [trendingScore] is at least that of every entry
    after it. *)
Theorem trending_scores_descend
    (page limit : option string) (w : World)
    (ms : list Api.TrendingMeme) (tag : option string) (pg : Api.Pagination.t) :
  (Routes.trending page limit w).1
    = Some (Api.json 200 (Api.TrendingResult ms tag pg)) ->
  StronglySorted (fun a b => (Api.trendingScore b <= Api.trendingScore a)%Q) ms.
Proof.
  intros H.
  destruct (trending_success _ _ _ _ _ _ H) as (skip & n & _ & Hpipe).
  unfold Routes.trendingPipeline, stage_skip, stage_limit in Hpipe.
  destruct (Routes.addFields _ _ _) as [scored|]; [|discriminate].
  destruct (skip <? 0); [discriminate|]. destruct (n <=? 0); [discriminate|].
  injection Hpipe as <-.
  apply (StronglySorted_map Routes.projectTrending
           (fun a b => (Api.trendingScore b <= Api.trendingScore a)%Q)).
  apply StronglySorted_take, StronglySorted_drop.
  unfold Routes.trendingRanked.
  apply (sort_by_StronglySorted Routes.trendingOrder).
  - apply trendingOrder_total.
  - intros a b Hab. cbn [Routes.projectTrending Api.trendingScore].
    now apply round_to_mono, trendingOrder_score.
  - intros a b c Hab Hbc. cbn beta in *. lra.
Qed.

Lemma trending_scores_descend_witness :
  let w := Fixtures.world Fixtures.noon
             [Fixtures.quiet1; Fixtures.newer; Fixtures.fresh; Fixtures.justNow] in
  exists ms tag pg,
    (Routes.trending None None w).1
      = Some (Api.json 200 (Api.TrendingResult ms tag pg))
    /\ map Api.trendingScore ms = [(833 # 100); (200 # 100); (0 # 100); (0 # 100)]%Q
    /\ StronglySorted
         (fun a b => (Api.trendingScore b <= Api.trendingScore a)%Q) ms.
Proof.
  intros w. eexists _, _, _. split; [vm_compute; reflexivity|].
  split; [reflexivity|].
  eapply (trending_scores_descend None None w). vm_compute. reflexivity.
Defined.

Lemma trending_success_meta (page limit : option string) (w : World)
    (ms : list Api.TrendingMeme) (tag : option string) (pg : Api.Pagination.t) :
  (Routes.trending page limit w).1
    = Some (Api.json 200 (Api.TrendingResult ms tag pg)) ->
  exists rows,
    Routes.tagStatsPipeline
      (Routes.sevenDaysBefore (localTZA w) (clock w (ticks w))) (catalog w)
      = Ok rows
    /\ tag = match rows with row :: _ => Some row.1.1 | [] => None end
    /\ Api.Pagination.count pg = Z.of_nat (length ms)
    /\ Api.Pagination.totalItems pg
       = Z.of_nat (length (List.filter
           (fun m => Routes.withinWindow
                       (Routes.daysSinceCreation (clock w (S (S (S (ticks w))))) m))
           (catalog w))).
Proof.
  unfold Routes.trending.
  destruct (JS.ToNumber _) as [p|]; [|discriminate].
  destruct (JS.ToNumber _) as [l|]; [|discriminate].
  destruct (JS.parseInt _) as [n|]; [|discriminate].
  destruct (negb (Routes.followed _ _)); [discriminate|].
  run_handler. cbn [catalog clock ticks ops localTZA].
  destruct (Routes.trendingPipeline _ _ _ _ _) as [out|]; [|discriminate].
  unfold Routes.totalPipeline. cbn [catalog clock ticks ops localTZA fst snd].
  destruct (Routes.tagStatsPipeline _ _) as [rows|]; [|discriminate].
  cbn [fst]. intros [= <- <- <-]. exists rows. repeat split.
Qed.

Lemma tagStatsPipeline_rows (since : Z) (c : list Meme) :
  exists rows,
    Routes.tagStatsPipeline since c = Ok rows
    /\ (forall row, In row rows ->
          exists m, In m c /\ since <= createdAt m /\ In row.1.1 (tags m))
    /\ (rows = [] <-> forall m, In m c -> since <= createdAt m -> tags m = []).
Proof.
  unfold Routes.tagStatsPipeline, stage_limit. cbn [Z.leb Z.compare].
  set (recent := List.filter _ c).
  set (stats := map _ (map_to_list (group_by (unwind recent)))).
  set (sorted := sort_by _ stats).
  assert (Hrow : forall row, In row stats ->
            exists m, In m c /\ since <= createdAt m /\ In row.1.1 (tags m)).
  { intros row Hin. subst stats. apply in_map_iff in Hin as ([k vs] & <- & Hg).
    cbn [fst]. apply group_by_row in Hg as [_ (m & Hm)].
    apply In_unwind in Hm as [Hm Ht]. subst recent.
    apply filter_In in Hm as [Hm Hs%Z.leb_le]. eauto. }
  eexists. split; [reflexivity|]. split.
  - intros row Hin%In_take. apply Hrow. subst sorted. now apply sort_by_In in Hin.
  - split.
    + intros Hnil m Hm Hs. destruct (tags m) as [|t ts] eqn:Ht; [reflexivity|].
      exfalso.
      assert (Hun : In (t, m) (unwind recent)).
      { apply In_unwind. split; [|rewrite Ht; now left].
        subst recent. apply filter_In. split; [exact Hm|now apply Z.leb_le]. }
      assert (Hmem : members t (unwind recent) <> []).
      { intros Hn. apply In_members in Hun. now rewrite Hn in Hun. }
      assert (Hst : In (t, Z.of_nat (length (members t (unwind recent))),
                        avg_of (fun m => upvotes m * 2 + downloads m)
                          (members t (unwind recent))) stats).
      { subst stats. apply in_map_iff.
        exists (t, members t (unwind recent)). split; [reflexivity|].
        apply list_elem_of_In, elem_of_map_to_list. rewrite group_by_lookup.
        now destruct (members t (unwind recent)). }
      assert (Hlen : length sorted = length stats) by apply sort_by_length.
      destruct stats as [|s0 stats']; [destruct Hst|].
      destruct sorted as [|r0 sorted']; [discriminate|]. discriminate.
    + intros Hall. destruct (take (Z.to_nat 1) sorted) as [|row rest] eqn:Htake;
        [reflexivity|]. exfalso.
      assert (Hin : In row stats).
      { subst sorted. eapply sort_by_In, In_take. rewrite Htake. now left. }
      destruct (Hrow row Hin) as (m & Hm & Hs & Ht).
      rewrite (Hall m Hm Hs) in Ht. destruct Ht.
Qed.

(** X16.  In a trending response [count] is the length of the page and
    [totalItems] is the number of catalog records at most 30 days old at
    the instant the counting query is built.  [mostTrendingTag] is a tag
    of some record created since the instant that
    [setDate(getDate() - 7)] gives from the request's first clock
    reading: seven calendar days earlier in the server's local time,
    which is seven times 24 hours earlier whenever the zone's offset from
    UTC is the same at both ends.  It is [null] exactly when no such
    record has a tag. *)
Theorem trending_total_and_top_tag
    (page limit : option string) (w : World)
    (ms : list Api.TrendingMeme) (tag : option string) (pg : Api.Pagination.t) :
  (Routes.trending page limit w).1
    = Some (Api.json 200 (Api.TrendingResult ms tag pg)) ->
  let t0 := clock w (ticks w) in
  let since := Routes.sevenDaysBefore (localTZA w) t0 in
  let now := clock w (S (S (S (ticks w)))) in
  Api.Pagination.count pg = Z.of_nat (length ms)
  /\ Api.Pagination.totalItems pg
     = Z.of_nat (length (List.filter
         (fun m => now - createdAt m <=? 30 * Routes.msPerDay) (catalog w)))
  /\ (forall t, tag = Some t ->
        exists m, In m (catalog w) /\ since <= createdAt m /\ In t (tags m))
  /\ (tag = None <->
      forall m, In m (catalog w) -> since <= createdAt m -> tags m = [])
  /\ (localTZA w (t0 + localTZA w t0 true - 7 * Routes.msPerDay) false
      = localTZA w t0 true ->
      since = t0 - 7 * Routes.msPerDay).
Proof.
  intros H t0 since now.
  destruct (trending_success_meta _ _ _ _ _ _ H) as (rows & Hrows & -> & Hcount & Htotal).
  destruct (tagStatsPipeline_rows since (catalog w)) as (rows' & Hrows' & Hin & Hnil).
  fold t0 in Hrows. fold since in Hrows.
  assert (rows' = rows) as -> by congruence.
  split; [exact Hcount|]. split; [|split; [|split]].
  - rewrite Htotal. f_equal. apply length_filter_ext. intros m _. fold now.
    destruct (Z.leb_spec (now - createdAt m) (30 * Routes.msPerDay)) as [Hle|Hgt].
    + now apply withinWindow_ms.
    + destruct (Routes.withinWindow _) eqn:Hw; [|reflexivity].
      apply withinWindow_ms in Hw. lia.
  - intros t Ht. destruct rows as [|row rest]; [discriminate|].
    injection Ht as <-. apply Hin. now left.
  - rewrite <- Hnil. destruct rows; split; intros; congruence.
  - intros Hzone. subst since. unfold Routes.sevenDaysBefore. rewrite Hzone. lia.
Qed.

Lemma trending_total_and_top_tag_witness :
  let w := Fixtures.autumnWorld Fixtures.noon [Fixtures.lastWeek] in
  exists ms pg,
    (Routes.trending None None w).1
      = Some (Api.json 200 (Api.TrendingResult ms (Some "x") pg))
    /\ Api.Pagination.totalItems pg = 1
    /\ Routes.sevenDaysBefore (localTZA w) Fixtures.noon
       = Fixtures.noon - 7 * Fixtures.day - 3600000
    /\ exists m, In m (catalog w)
         /\ Routes.sevenDaysBefore (localTZA w) Fixtures.noon <= createdAt m
         /\ In "x" (tags m).
Proof.
  intros w.
  let r := eval vm_compute in (Routes.trending None None w).1 in
  match r with
  | Some (Api.Build_Response _ (Api.TrendingResult ?ms _ ?pg)) => exists ms, pg
  end.
  assert (H : (Routes.trending None None w).1
              = Some (Api.json 200 (Api.TrendingResult
                  [{| Api.trending := Api.view Fixtures.lastWeek;
                      Api.trendingScore := (25 # 100)%Q;
                      Api.daysSinceCreation := (70 # 10)%Q |}]
                  (Some "x")
                  {| Api.Pagination.current := Some 1;
                     Api.Pagination.total := Some 1;
                     Api.Pagination.count := 1;
                     Api.Pagination.totalItems := 1 |})))
    by (vm_compute; reflexivity).
  split; [vm_compute; reflexivity|].
  split; [reflexivity|]. split; [reflexivity|].
  destruct (trending_total_and_top_tag None None w _ _ _ H) as (_ & _ & Htag & _).
  exact (Htag "x" eq_refl).
Defined.

(** ** More on GET /popular *)





(** A quotient half way between two hundredths goes to the even one:
    one upvote over eight records of a tag averages 0.125 and is
    reported as 0.12; three over eight, 0.375, as 0.38. *)
Example round_to_ties :
  round_to 2 (1 # 8) = (12 # 100)%Q /\ round_to 2 (3 # 8) = (38 # 100)%Q.
Proof. split; reflexivity. Qed.

(** ** Characters of tokens, tags and sanitized queries *)

Lemma every_impl (P Q : ascii -> bool) (s : string) :
  (forall c, P c = true -> Q c = true) -> every P s = true -> every Q s = true.
Proof.
  intros HPQ. induction s as [|c s IH]; cbn [every]; [easy|].
  intros [Hc Hs]%andb_prop. now rewrite (HPQ c Hc), IH.
Qed.

Lemma every_split_ws (P : ascii -> bool) (s : string) :
  every P s = true -> Forall (fun piece => every P piece = true) (JS.split_ws s).
Proof.
  induction s as [|c s IH]; cbn [every JS.split_ws].
  - intros _. now repeat constructor.
  - intros [Hc Hs]%andb_prop. specialize (IH Hs).
    destruct (JS.is_space c).
    + destruct s as [|c' s']; [now repeat constructor|].
      destruct (JS.is_space c'); [exact IH|now constructor].
    + destruct (JS.split_ws s) as [|piece rest]; [repeat constructor; cbn; now rewrite Hc|].
      inversion IH as [|? ? Hp Hrest]; subst.
      constructor; [|exact Hrest]. cbn [every]. now rewrite Hc, Hp.
Qed.

Lemma split_ws_no_space (s : string) :
  Forall (fun piece => every (fun c => negb (JS.is_space c)) piece = true) (JS.split_ws s).
Proof.
  induction s as [|c s IH]; cbn [JS.split_ws]; [now repeat constructor|].
  destruct (JS.is_space c) eqn:Hc.
  - destruct s as [|c' s']; [now repeat constructor|].
    destruct (JS.is_space c'); [exact IH|now constructor].
  - destruct (JS.split_ws s) as [|piece rest]; [repeat constructor; cbn; now rewrite Hc|].
    inversion IH as [|? ? Hp Hrest]; subst.
    constructor; [|exact Hrest]. cbn [every]. now rewrite Hc, Hp.
Qed.

Lemma every_trim_start (P : ascii -> bool) (s : string) :
  every P s = true -> every P (JS.trim_start s) = true.
Proof.
  induction s as [|c s IH]; cbn [every JS.trim_start]; [easy|].
  intros [Hc Hs]%andb_prop. destruct (JS.is_space c); [now apply IH|].
  cbn [every]. now rewrite Hc, Hs.
Qed.

Lemma every_trim_end (P : ascii -> bool) (s : string) :
  every P s = true -> every P (JS.trim_end s) = true.
Proof.
  induction s as [|c s IH]; cbn [every JS.trim_end]; [easy|].
  intros [Hc Hs]%andb_prop. specialize (IH Hs).
  destruct (JS.trim_end s) as [|c' t].
  - destruct (JS.is_space c); cbn [every]; [reflexivity|now rewrite Hc].
  - cbn [every] in *. now rewrite Hc, IH.
Qed.

Lemma every_trim (P : ascii -> bool) (s : string) :
  every P s = true -> every P (JS.trim s) = true.
Proof. intros H. now apply every_trim_end, every_trim_start. Qed.

Lemma every_substring (P : ascii -> bool) (n m : nat) (s : string) :
  every P s = true -> every P (String.substring n m s) = true.
Proof.
  revert n m. induction s as [|c s IH]; intros n m.
  - destruct n, m; reflexivity.
  - cbn [every]. intros [Hc Hs]%andb_prop.
    destruct n as [|n]; cbn [String.substring].
    + destruct m as [|m]; [reflexivity|]. cbn [every]. now rewrite Hc, IH.
    + now apply IH.
Qed.

Lemma every_strip (s : string) : every Util.word_char (Util.strip s) = true.
Proof.
  induction s as [|c s IH]; cbn [Util.strip]; [reflexivity|].
  destruct (Util.word_char c) eqn:Hc; [|exact IH]. cbn [every]. now rewrite Hc, IH.
Qed.

Lemma every_strip_keeps (P : ascii -> bool) (s : string) :
  every P s = true -> every P (Util.strip s) = true.
Proof.
  induction s as [|c s IH]; cbn [every Util.strip]; [easy|].
  intros [Hc Hs]%andb_prop. destruct (Util.word_char c); [|now apply IH].
  cbn [every]. now rewrite Hc, IH.
Qed.

Lemma every_lower_fixed (s : string) :
  every lower_fixed s = true <-> JS.toLowerCase s = s.
Proof.
  unfold lower_fixed. induction s as [|c s IH]; cbn [every JS.toLowerCase]; [easy|].
  rewrite andb_true_iff, IH, Ascii.eqb_eq. split; [intros [-> ->]; reflexivity|].
  intros [= Hc Hs]. now rewrite Hc, Hs.
Qed.

Lemma toLowerCase_every_fixed (s : string) : every lower_fixed (JS.toLowerCase s) = true.
Proof. apply every_lower_fixed, toLowerCase_idem. Qed.

Lemma all_word_chars_every (s : string) : Util.all_word_chars s = every Util.word_char s.
Proof.
  induction s as [|c s IH]; cbn [Util.all_word_chars every]; congruence.
Qed.

Lemma regex_plain_every (s : string) :
  regex_plain s = every (fun c => negb (regex_meta c)) s.
Proof. induction s as [|c s IH]; cbn [regex_plain every]; congruence. Qed.

Lemma word_char_not_meta (c : ascii) :
  Util.word_char c = true -> negb (regex_meta c) = true.
Proof. destruct c as [[] [] [] [] [] [] [] []]; vm_compute; congruence. Qed.

Lemma word_char_lower (c : ascii) :
  Util.word_char c = true -> Util.word_char (JS.lower_char c) = true.
Proof. destruct c as [[] [] [] [] [] [] [] []]; vm_compute; congruence. Qed.

Lemma toLowerCase_length (s : string) :
  String.length (JS.toLowerCase s) = String.length s.
Proof.
  induction s as [|c s IH]; cbn [JS.toLowerCase String.length]; congruence.
Qed.

Lemma every_word_lower (s : string) :
  every Util.word_char s = true -> every Util.word_char (JS.toLowerCase s) = true.
Proof.
  induction s as [|c s IH]; cbn [every JS.toLowerCase]; [easy|].
  intros [Hc Hs]%andb_prop. now rewrite (word_char_lower c Hc), IH.
Qed.

(** X18.  The tokens of a search query: each one has at least two
    characters, holds no white space and is in lower case. *)
Theorem searchWords_tokens (q word : string) :
  In word (Routes.searchWords q) ->
  (2 <= String.length word)%nat
  /\ every (fun c => negb (JS.is_space c)) word = true
  /\ JS.toLowerCase word = word.
Proof.
  intros Hin. split; [|split].
  - unfold Routes.searchWords in Hin. apply filter_In in Hin as [_ Hok].
    apply andb_prop in Hok as [_ Hlen%Z.ltb_lt]. lia.
  - unfold Routes.searchWords in Hin. apply filter_In in Hin as [Hin _].
    pose proof (split_ws_no_space (JS.toLowerCase q)) as Hall.
    rewrite List.Forall_forall in Hall. now apply Hall.
  - eapply searchWords_lower, Hin.
Qed.

Lemma searchWords_tokens_witness :
  (2 <= String.length "pointing")%nat
  /\ every (fun c => negb (JS.is_space c)) "pointing" = true
  /\ JS.toLowerCase "pointing" = "pointing".
Proof.
  apply (searchWords_tokens " Pointing  a  CHOICES " "pointing").
  vm_compute. now left.
Defined.

(** ** validatePagination on its own result *)

Lemma round_shift_exact (m e : Z) : 0 < e -> JS.round_shift (m * 2 ^ e) e = m.
Proof.
  intros He. unfold JS.round_shift.
  assert (Hp : 0 < 2 ^ e) by (apply Z.pow_pos_nonneg; lia).
  assert (Hh : 0 < 2 ^ (e - 1)) by (apply Z.pow_pos_nonneg; lia).
  rewrite Z.div_mul, Z.mod_mul by lia.
  destruct (Z.ltb_spec 0 (2 ^ (e - 1))); [reflexivity|lia].
Qed.

Lemma round_shift_le (a e : Z) : 0 < e -> JS.round_shift a e <= a / 2 ^ e + 1.
Proof.
  intros He. unfold JS.round_shift.
  repeat match goal with |- context [if ?b then _ else _] => destruct b end; lia.
Qed.

Lemma fl_idem (z x : Z) : JS.fl z = JS.Int x -> JS.fl x = JS.Int x.
Proof.
  unfold JS.fl at 1.
  destruct (Z.leb_spec (Z.log2 (Z.abs z) - 52) 0) as [Hle|He].
  { intros [= <-]. unfold JS.fl.
    destruct (Z.leb_spec (Z.log2 (Z.abs z) - 52) 0); [reflexivity|lia]. }
  set (a := Z.abs z) in *. set (e := Z.log2 a - 52) in *.
  set (m := JS.round_shift a e).
  destruct (Z.leb_spec (2 ^ 1024) (m * 2 ^ e)) as [|Hfin];
    [destruct (z <? 0); discriminate|].
  intros [= <-].
  assert (Ha : 0 < a).
  { destruct (Z.eq_dec a 0) as [E|]; [|lia]. subst e. rewrite E in He. cbn in He. lia. }
  pose proof (Z.log2_spec _ Ha) as [Hlo Hhi].
  replace (Z.log2 a) with (52 + e) in Hlo by lia.
  replace (Z.succ (Z.log2 a)) with (53 + e) in Hhi by lia.
  rewrite Z.pow_add_r in Hlo, Hhi by lia.
  assert (Hp : 0 < 2 ^ e) by (apply Z.pow_pos_nonneg; lia).
  assert (Hq1 : 2 ^ 52 <= a / 2 ^ e) by (apply Z.div_le_lower_bound; lia).
  assert (Hq2 : a / 2 ^ e < 2 ^ 53) by (apply Z.div_lt_upper_bound; lia).
  pose proof (round_shift_ge a e He) as Hm1.
  pose proof (round_shift_le a e He) as Hm2. fold m in Hm1, Hm2.
  assert (Hsgn : Z.abs (Z.sgn z * (m * 2 ^ e)) = m * 2 ^ e).
  { subst a. destruct (Z.abs_spec z) as [[? E]|[? E]].
    - rewrite Z.sgn_pos by lia. rewrite Z.abs_eq; nia.
    - rewrite Z.sgn_neg by lia. rewrite Z.abs_neq; nia. }
  assert (Hsg : Z.sgn (Z.sgn z * (m * 2 ^ e)) = Z.sgn z).
  { subst a. destruct (Z.abs_spec z) as [[? E]|[? E]].
    - rewrite (Z.sgn_pos z) by lia. rewrite Z.sgn_pos; nia.
    - rewrite (Z.sgn_neg z) by lia. rewrite Z.sgn_neg; nia. }
  assert (Hneg : (Z.sgn z * (m * 2 ^ e) <? 0) = (z <? 0)).
  { subst a. destruct (Z.abs_spec z) as [[? E]|[? E]].
    - rewrite (Z.sgn_pos z) by lia.
      destruct (Z.ltb_spec (1 * (m * 2 ^ e)) 0), (Z.ltb_spec z 0); try reflexivity; nia.
    - rewrite (Z.sgn_neg z) by lia.
      destruct (Z.ltb_spec (-1 * (m * 2 ^ e)) 0), (Z.ltb_spec z 0); try reflexivity; nia. }
  unfold JS.fl. rewrite Hsgn, Hsg.
  destruct (Z.eq_dec m (2 ^ 53)) as [Em|Nm].
  - assert (Hlog : Z.log2 (m * 2 ^ e) = 53 + e).
    { apply Z.log2_unique; [lia|]. rewrite Em.
      replace (Z.succ (53 + e)) with ((53 + e) + 1) by lia.
      rewrite !Z.pow_add_r by lia. lia. }
    rewrite Hlog.
    destruct (Z.leb_spec (53 + e - 52) 0); [lia|].
    replace (53 + e - 52) with (e + 1) by lia.
    replace (m * 2 ^ e) with (2 ^ 52 * 2 ^ (e + 1))
      by (rewrite Em, Z.pow_add_r by lia; change (2 ^ 53) with (2 ^ 52 * 2 ^ 1); lia).
    rewrite round_shift_exact by lia.
    destruct (Z.leb_spec (2 ^ 1024) (2 ^ 52 * 2 ^ (e + 1))) as [Hov|]; [|reflexivity].
    exfalso. rewrite Z.pow_add_r in Hov by lia. rewrite Em in Hfin.
    change (2 ^ 53) with (2 ^ 52 * 2 ^ 1) in Hfin. lia.
  - assert (Hlog : Z.log2 (m * 2 ^ e) = 52 + e).
    { apply Z.log2_unique; [lia|].
      replace (Z.succ (52 + e)) with (53 + e) by lia.
      rewrite !Z.pow_add_r by lia. split; [nia|].
      apply Z.mul_lt_mono_pos_r; lia. }
    rewrite Hlog.
    destruct (Z.leb_spec (52 + e - 52) 0); [lia|].
    replace (52 + e - 52) with e by lia.
    rewrite round_shift_exact by lia.
    destruct (Z.leb_spec (2 ^ 1024) (m * 2 ^ e)); [lia|reflexivity].
Qed.

Lemma decimal_length_spec (fuel : nat) (a : Z) :
  0 < a -> a < 2 ^ (Z.of_nat fuel + 1) ->
  1 <= JS.decimal_length fuel a
  /\ 10 ^ (JS.decimal_length fuel a - 1) <= a < 10 ^ JS.decimal_length fuel a.
Proof.
  revert a. induction fuel as [|fuel IH]; intros a Ha Hlt.
  - cbn in Hlt. cbn. lia.
  - cbn [JS.decimal_length]. destruct (Z.ltb_spec a 10) as [|H10]; [cbn; lia|].
    rewrite Nat2Z.inj_succ in Hlt.
    replace (Z.succ (Z.of_nat fuel) + 1) with ((Z.of_nat fuel + 1) + 1) in Hlt by lia.
    rewrite (Z.pow_add_r _ _ 1) in Hlt by lia. change (2 ^ 1) with 2 in Hlt.
    assert (Hpos : 0 < a / 10) by (apply Z.div_str_pos; lia).
    assert (Hup : a / 10 < 2 ^ (Z.of_nat fuel + 1))
      by (apply Z.div_lt_upper_bound; lia).
    destruct (IH (a / 10) Hpos Hup) as (Hn & Hlo & Hhi).
    set (n := JS.decimal_length fuel (a / 10)) in *.
    replace (1 + n - 1) with ((n - 1) + 1) by lia.
    replace (1 + n) with (n + 1) by lia.
    rewrite !(Z.pow_add_r 10 _ 1) by lia. change (10 ^ 1) with 10.
    pose proof (Z.div_mod a 10 ltac:(lia)) as Hdm.
    pose proof (Z.mod_pos_bound a 10 ltac:(lia)) as Hmod.
    lia.
Qed.

Lemma leading_digit_range (fuel : nat) (k n v : Z) :
  1 <= k -> k + Z.of_nat fuel <= n ->
  10 ^ (n - 1) <= v < 10 ^ n ->
  0 <= JS.leading_digit fuel k n v <= 9.
Proof.
  revert k. induction fuel as [|fuel IH]; intros k Hk Hkn Hv.
  - cbn [JS.leading_digit].
    assert (0 < 10 ^ (n - 1)) by (apply Z.pow_pos_nonneg; lia).
    split; [apply Z.div_pos; lia|].
    apply Z.lt_succ_r, Z.div_lt_upper_bound; [lia|].
    replace n with ((n - 1) + 1) in Hv at 2 by lia.
    rewrite Z.pow_add_r in Hv by lia. change (10 ^ 1) with 10 in Hv. lia.
  - cbn [JS.leading_digit]. cbn zeta.
    rewrite Nat2Z.inj_succ in Hkn.
    set (p := 10 ^ (n - k)). set (lo := v / p).
    assert (Hp : 0 < p) by (apply Z.pow_pos_nonneg; lia).
    assert (Hk1 : 0 < 10 ^ (k - 1)) by (apply Z.pow_pos_nonneg; lia).
    assert (Ek : 10 ^ k = 10 ^ (k - 1) * 10).
    { replace k with ((k - 1) + 1) at 1 by lia. now rewrite Z.pow_add_r by lia. }
    assert (En : 10 ^ n = 10 ^ k * p).
    { subst p. rewrite <- Z.pow_add_r by lia. f_equal. lia. }
    assert (En1 : 10 ^ (n - 1) = 10 ^ (k - 1) * p).
    { subst p. rewrite <- Z.pow_add_r by lia. f_equal. lia. }
    assert (Hlo1 : 10 ^ (k - 1) <= lo)
      by (apply Z.div_le_lower_bound; lia).
    assert (Hlo2 : lo < 10 ^ k)
      by (apply Z.div_lt_upper_bound; lia).
    match goal with
    | |- context [if ?c then (if ?s =? _ then _ else _) else _] =>
        assert (Hs : s = lo \/ s = lo + 1);
        [repeat match goal with |- context [if ?b then _ else _] => destruct b end;
         auto|];
        set (s0 := s) in *; destruct c
    end.
    + destruct (Z.eqb_spec s0 (10 ^ k)); [lia|].
      split; [apply Z.div_pos; lia|].
      apply Z.lt_succ_r, Z.div_lt_upper_bound; lia.
    + apply IH; lia.
Qed.

Lemma parseInt_number_double (v : JS.value) (x : Z) :
  JS.parseInt_number v = JS.Int x -> JS.fl x = JS.Int x.
Proof.
  destruct v as [z|s]; cbn [JS.parseInt_number].
  - destruct (JS.fl z) as [y| | |] eqn:Hy; try discriminate.
    destruct (Z.ltb_spec (Z.abs y) (10 ^ 21)) as [|Hbig].
    + intros [= <-]. eapply fl_idem, Hy.
    + set (a := Z.abs y) in *.
      assert (Ha : 0 < a) by (assert (0 < 10 ^ 21) by reflexivity; lia).
      pose proof (Z.log2_spec _ Ha) as [_ Hhi].
      pose proof (Z.log2_nonneg a).
      destruct (decimal_length_spec (Z.to_nat (Z.log2 a)) a Ha) as (Hn & Hlo & Hup).
      { rewrite Z2Nat.id by lia. exact Hhi. }
      set (n := JS.decimal_length _ a) in *.
      assert (Hn22 : 21 < n).
      { apply (Z.pow_lt_mono_r_iff 10); lia. }
      pose proof (leading_digit_range 17 1 n a ltac:(lia) ltac:(cbn; lia)
                    (conj Hlo Hup)) as Hd.
      set (d := JS.leading_digit 17 1 n a) in *. clearbody d.
      intros [= <-]. apply fl_safe.
      assert (9 < 2 ^ 53) by reflexivity.
      destruct (Z.sgn_spec y) as [[_ ->]|[[_ ->]|[_ ->]]]; lia.
  - destruct (JS.parseInt_string s) as [z|]; [|discriminate].
    apply fl_idem.
Qed.

(** X19.  [validatePagination] is idempotent below [10^21]: applied to
    the page and limit it has returned, it returns the same page, limit
    and skip, as long as the page is less than [10^21] (the numbers that
    print in full). *)
Theorem validatePagination_idempotent (page limit : option JS.value) (p l : Z) :
  let r := Helpers.validatePagination page limit in
  Helpers.page r = JS.Int p -> Helpers.limit r = JS.Int l -> p < 10 ^ 21 ->
  Helpers.validatePagination (Some (JS.VNum p)) (Some (JS.VNum l)) = r.
Proof.
  intros r Hp Hl Hsmall. subst r.
  unfold Helpers.validatePagination in *. cbn [Helpers.page Helpers.limit] in *.
  set (P := JS.max (JS.Int 1) (JS.or_else (Helpers.parseInt_arg page) (JS.Int 1))) in *.
  set (L := JS.min (JS.Int 100)
              (JS.max (JS.Int 1) (JS.or_else (Helpers.parseInt_arg limit) (JS.Int 20)))) in *.
  assert (Hp1 : 1 <= p /\ JS.fl p = JS.Int p).
  { subst P. unfold Helpers.parseInt_arg in Hp. destruct page as [v|].
    - destruct (JS.parseInt_number v) as [z| | |] eqn:Hz; cbn in Hp; try discriminate;
        try (injection Hp as <-; split; [lia|reflexivity]).
      apply parseInt_number_double in Hz.
      destruct z as [|z|z]; cbn in Hp; injection Hp as <-;
        try (split; [lia|reflexivity]).
      split; [lia|]. now rewrite Z.max_r by lia.
    - cbn in Hp. injection Hp as <-. split; [lia|reflexivity]. }
  assert (Hl1 : 1 <= l <= 100).
  { subst L. destruct (Helpers.parseInt_arg limit) as [z| | |]; cbn in Hl;
      try (injection Hl as <-; lia).
    destruct z; cbn in Hl; injection Hl as <-; lia. }
  destruct Hp1 as [Hp1 Hfl].
  assert (HP' : JS.max (JS.Int 1)
                  (JS.or_else (Helpers.parseInt_arg (Some (JS.VNum p))) (JS.Int 1))
                = JS.Int p).
  { cbn [Helpers.parseInt_arg JS.parseInt_number]. rewrite Hfl.
    destruct (Z.ltb_spec (Z.abs p) (10 ^ 21)) as [_|]; [|lia].
    destruct p as [|p|p]; try lia. cbn [JS.or_else JS.max]. f_equal. lia. }
  assert (HL' : JS.min (JS.Int 100)
                  (JS.max (JS.Int 1)
                     (JS.or_else (Helpers.parseInt_arg (Some (JS.VNum l))) (JS.Int 20)))
                = JS.Int l).
  { cbn [Helpers.parseInt_arg JS.parseInt_number].
    rewrite (fl_safe l) by (assert (100 < 2 ^ 53) by reflexivity; lia).
    assert (1000 < 10 ^ 21) by reflexivity.
    destruct (Z.ltb_spec (Z.abs l) (10 ^ 21)) as [_|]; [|lia].
    destruct l as [|l|l]; try lia. cbn [JS.or_else JS.max JS.min]. f_equal. lia. }
  rewrite HP', HL', Hp, Hl. reflexivity.
Qed.

Lemma validatePagination_idempotent_witness :
  Helpers.validatePagination (Some (JS.VNum 7)) (Some (JS.VNum 100))
  = Helpers.validatePagination (Some (JS.VStr "7")) (Some (JS.VStr "500")).
Proof.
  apply (validatePagination_idempotent
           (Some (JS.VStr "7")) (Some (JS.VStr "500")) 7 100);
    reflexivity.
Defined.

(** From [10^21] on a page prints in exponent form and reads back as
    its first digit: the helper is not idempotent there. *)
Example validatePagination_not_idempotent :
  let r := Helpers.validatePagination
             (Some (JS.VStr "1000000000000000000000")) (Some (JS.VStr "20")) in
  Helpers.page r = JS.Int (10 ^ 21)
  /\ Helpers.limit r = JS.Int 20
  /\ Helpers.page
       (Helpers.validatePagination (Some (JS.VNum (10 ^ 21))) (Some (JS.VNum 20)))
     = JS.Int 1.
Proof. vm_compute. repeat split. Qed.

(** ** validateTags and sanitizeSearchQuery *)

Lemma validTag_lower (e : Util.element) :
  Util.validTag e = true -> Util.validTag (lowerElement e) = true.
Proof.
  destruct e as [s|]; [|easy]. cbn [Util.validTag lowerElement].
  rewrite toLowerCase_length, !all_word_chars_every.
  intros [Hlen Hw]%andb_prop. rewrite Hlen. now apply every_word_lower.
Qed.

(** X20.  [validateTags] accepts the empty array; it accepts a
    concatenation exactly when it accepts both parts; an accepted array
    stays accepted when its tags are put in lower case; and every element
    of an accepted array is a string of 1 to 50 characters without
    regular-expression syntax, so that a validated tag used as a search
    pattern is matched literally. *)
Theorem validateTags_accepts (l1 l2 : list Util.element) :
  Util.validateTags (Some []) = true
  /\ Util.validateTags (Some (l1 ++ l2)%list)
     = Util.validateTags (Some l1) && Util.validateTags (Some l2)
  /\ (Util.validateTags (Some l1) = true ->
      Util.validateTags (Some (map lowerElement l1)) = true
      /\ forall e, In e l1 ->
           exists s, e = Util.Str s
             /\ (1 <= String.length s <= 50)%nat
             /\ regex_plain s = true).
Proof.
  split; [reflexivity|]. split; [apply forallb_app|].
  cbn [Util.validateTags]. intros Hall. split.
  - rewrite forallb_forall in *. intros e' (e & <- & He)%in_map_iff.
    now apply validTag_lower, Hall.
  - intros e He. rewrite forallb_forall in Hall. specialize (Hall e He).
    destruct e as [s|]; [|discriminate]. exists s. split; [reflexivity|].
    cbn [Util.validTag] in Hall.
    apply andb_prop in Hall as [[Hpos%Nat.ltb_lt Hmax%Nat.leb_le]%andb_prop Hw].
    split; [lia|]. rewrite regex_plain_every. rewrite all_word_chars_every in Hw.
    eapply every_impl; [apply word_char_not_meta|exact Hw].
Qed.

Lemma validateTags_accepts_witness :
  Util.validateTags (Some (map lowerElement [Util.Str "Drake"; Util.Str "hot take"]))
    = true
  /\ forall e, In e [Util.Str "Drake"; Util.Str "hot take"] ->
       exists s, e = Util.Str s
         /\ (1 <= String.length s <= 50)%nat /\ regex_plain s = true.
Proof.
  apply (proj2 (proj2 (validateTags_accepts
                         [Util.Str "Drake"; Util.Str "hot take"] []))).
  reflexivity.
Defined.

Lemma trim_start_head (s : string) :
  JS.trim_start (JS.trim_start s) = JS.trim_start s
  /\ match JS.trim_start s with
     | EmptyString => True
     | String c _ => JS.is_space c = false
     end.
Proof.
  induction s as [|c s IH]; cbn [JS.trim_start]; [easy|].
  destruct (JS.is_space c) eqn:Hc; [exact IH|].
  cbn [JS.trim_start]. now rewrite Hc.
Qed.

Lemma trim_end_head (c : ascii) (s : string) :
  JS.is_space c = false -> exists t, JS.trim_end (String c s) = String c t.
Proof.
  intros Hc. cbn [JS.trim_end]. rewrite Hc.
  destruct (JS.trim_end s); eauto.
Qed.

Lemma trim_end_idem (s : string) : JS.trim_end (JS.trim_end s) = JS.trim_end s.
Proof.
  induction s as [|c s IH]; [reflexivity|]. cbn [JS.trim_end].
  destruct (JS.trim_end s) as [|c' t] eqn:Ht.
  - destruct (JS.is_space c) eqn:Hc; [reflexivity|]. cbn [JS.trim_end]. now rewrite Hc.
  - cbn [JS.trim_end] in *. now rewrite IH.
Qed.

Lemma trim_head (s : string) :
  match JS.trim s with
  | EmptyString => True
  | String c _ => JS.is_space c = false
  end.
Proof.
  unfold JS.trim. destruct (trim_start_head s) as [_ H].
  destruct (JS.trim_start s) as [|c u]; [exact I|].
  destruct (trim_end_head c u H) as [t ->]. exact H.
Qed.

Lemma trim_start_fixed (s : string) :
  match s with
  | EmptyString => True
  | String c _ => JS.is_space c = false
  end -> JS.trim_start s = s.
Proof. destruct s as [|c s]; [easy|]. cbn [JS.trim_start]. now intros ->. Qed.

Lemma trim_idem (s : string) : JS.trim (JS.trim s) = JS.trim s.
Proof.
  unfold JS.trim at 1. rewrite (trim_start_fixed _ (trim_head s)).
  unfold JS.trim. apply trim_end_idem.
Qed.

Lemma substring_length_le (m : nat) (s : string) :
  (String.length (String.substring 0 m s) <= m)%nat.
Proof.
  revert m. induction s as [|c s IH]; intros [|m]; cbn; try lia.
  specialize (IH m). lia.
Qed.

Lemma substring_all (m : nat) (s : string) :
  (String.length s <= m)%nat -> String.substring 0 m s = s.
Proof.
  revert m. induction s as [|c s IH]; intros [|m]; cbn; try easy; try lia.
  intros H. f_equal. apply IH. lia.
Qed.

Lemma substring_head (m : nat) (s : string) :
  match s with
  | EmptyString => True
  | String c _ => JS.is_space c = false
  end ->
  match String.substring 0 m s with
  | EmptyString => True
  | String c _ => JS.is_space c = false
  end.
Proof. destruct s as [|c s], m as [|m]; cbn; auto. Qed.

Lemma strip_fixed (s : string) : every Util.word_char s = true -> Util.strip s = s.
Proof.
  induction s as [|c s IH]; cbn [every Util.strip]; [easy|].
  intros [Hc Hs]%andb_prop. now rewrite Hc, IH.
Qed.

Lemma sanitized_chars (q : string) :
  let t := JS.trim (Util.strip (JS.toLowerCase q)) in
  every Util.word_char t = true /\ every lower_fixed t = true.
Proof.
  split.
  - apply every_trim, every_strip.
  - apply every_trim, every_strip_keeps, toLowerCase_every_fixed.
Qed.

Lemma sanitizeSearchQuery_chars (query : option string) :
  let r := Util.sanitizeSearchQuery query in
  every Util.word_char r = true /\ JS.toLowerCase r = r.
Proof.
  cbn zeta. unfold Util.sanitizeSearchQuery.
  destruct query as [q|]; [|split; reflexivity].
  destruct (JS.truthy (Some q)); cbn [negb]; [|split; reflexivity].
  destruct (sanitized_chars q) as [Hw Hl].
  split; [now apply every_substring|now apply every_lower_fixed, every_substring].
Qed.

(** X21.  The result of [sanitizeSearchQuery] has at most 200 characters,
    all of them lower-case letters, digits, white space, [-] or [_]; it
    does not begin with white space and holds no regular-expression
    syntax.  An argument that is missing, not a string or empty gives the
    empty string. *)
Theorem sanitizeSearchQuery_shape (query : option string) :
  let r := Util.sanitizeSearchQuery query in
  (String.length r <= 200)%nat
  /\ every Util.word_char r = true
  /\ JS.toLowerCase r = r
  /\ JS.trim_start r = r
  /\ regex_plain r = true
  /\ (JS.truthy query = false -> r = EmptyString).
Proof.
  cbn zeta. unfold Util.sanitizeSearchQuery.
  destruct query as [q|]; [|repeat split; cbn; lia].
  destruct (JS.truthy (Some q)); cbn [negb]; [|repeat split; cbn; lia].
  destruct (sanitized_chars q) as [Hw Hl].
  assert (Hword : every Util.word_char
            (String.substring 0 200 (JS.trim (Util.strip (JS.toLowerCase q)))) = true)
    by now apply every_substring.
  split; [apply substring_length_le|]. split; [exact Hword|].
  split; [now apply every_lower_fixed, every_substring|].
  split; [apply trim_start_fixed, substring_head, trim_head|].
  split; [|discriminate].
  rewrite regex_plain_every. eapply every_impl; [apply word_char_not_meta|exact Hword].
Qed.

(** X22.  The search words of a sanitized query hold no
    regular-expression syntax, so the search pattern built from them
    matches them literally; and those of at most 50 characters pass
    [validateTags]. *)
Theorem sanitized_query_words (query : option string) :
  let words := Routes.searchWords (Util.sanitizeSearchQuery query) in
  forallb regex_plain words = true
  /\ Util.validateTags
       (Some (map Util.Str
                (List.filter (fun w => (String.length w <=? 50)%nat) words))) = true.
Proof.
  cbn zeta.
  destruct (sanitizeSearchQuery_chars query) as [Hw Hlow]. cbn zeta in Hw, Hlow.
  set (r := Util.sanitizeSearchQuery query) in *.
  assert (Hall : forall word, In word (Routes.searchWords r) ->
                   every Util.word_char word = true).
  { intros word Hin. unfold Routes.searchWords in Hin.
    apply filter_In in Hin as [Hin _]. rewrite Hlow in Hin.
    pose proof (every_split_ws _ _ Hw) as Hf.
    rewrite List.Forall_forall in Hf. now apply Hf. }
  split.
  - apply forallb_forall. intros word Hin. rewrite regex_plain_every.
    eapply every_impl; [apply word_char_not_meta|now apply Hall].
  - cbn [Util.validateTags]. apply forallb_forall.
    intros e (word & <- & [Hin Hlen]%filter_In)%in_map_iff.
    cbn [Util.validTag]. rewrite Hlen, all_word_chars_every, (Hall word Hin).
    unfold Routes.searchWords in Hin. apply filter_In in Hin as [_ Hok].
    apply andb_prop in Hok as [_ H2%Z.ltb_lt].
    destruct (Nat.ltb_spec 0 (String.length word)); [reflexivity|lia].
Qed.

(** X23.  [sanitizeSearchQuery] is idempotent on every query whose
    cleaned form (lower-cased, stripped, trimmed) has at most 200
    characters: sanitizing its result again changes nothing. *)
Theorem sanitizeSearchQuery_idempotent (q : string) :
  (String.length (JS.trim (Util.strip (JS.toLowerCase q))) <= 200)%nat ->
  Util.sanitizeSearchQuery (Some (Util.sanitizeSearchQuery (Some q)))
  = Util.sanitizeSearchQuery (Some q).
Proof.
  intros Hlen. unfold Util.sanitizeSearchQuery at 2 3.
  destruct (JS.truthy (Some q)); cbn [negb]; [|reflexivity].
  rewrite !(substring_all _ _ Hlen).
  set (t := JS.trim (Util.strip (JS.toLowerCase q))) in *.
  destruct (sanitized_chars q) as [Hw Hl]. fold t in Hw, Hl.
  unfold Util.sanitizeSearchQuery. destruct t as [|c t'] eqn:Et; [reflexivity|].
  cbn [JS.truthy String.eqb negb]. rewrite <- Et in *.
  apply every_lower_fixed in Hl. rewrite Hl, (strip_fixed _ Hw).
  subst t. rewrite trim_idem. now apply substring_all.
Qed.

Lemma sanitizeSearchQuery_idempotent_witness :
  Util.sanitizeSearchQuery (Some (Util.sanitizeSearchQuery (Some "  Hello, World!  ")))
  = Util.sanitizeSearchQuery (Some "  Hello, World!  ")
  /\ Util.sanitizeSearchQuery (Some "  Hello, World!  ") = "hello world".
Proof.
  split; [|reflexivity].
  apply sanitizeSearchQuery_idempotent. vm_compute. lia.
Defined.

Lemma sanitizeSearchQuery_shape_witness :
  Util.sanitizeSearchQuery (Some "") = EmptyString
  /\ (String.length (Util.sanitizeSearchQuery (Some long_query)) <= 200)%nat
  /\ regex_plain (Util.sanitizeSearchQuery (Some "C++ (memes).*")) = true.
Proof.
  split; [|split].
  - apply (proj2 (proj2 (proj2 (proj2 (proj2
      (sanitizeSearchQuery_shape (Some ""))))))). reflexivity.
  - apply (proj1 (sanitizeSearchQuery_shape (Some long_query))).
  - apply (proj1 (proj2 (proj2 (proj2 (proj2
      (sanitizeSearchQuery_shape (Some "C++ (memes).*"))))))).
Defined.

(** Past 200 characters the cut can leave white space at the end, which a
    second pass trims away. *)
Example sanitizeSearchQuery_truncation :
  String.length (Util.sanitizeSearchQuery (Some long_query)) = 200%nat
  /\ String.length
       (Util.sanitizeSearchQuery (Some (Util.sanitizeSearchQuery (Some long_query))))
     = 199%nat.
Proof. vm_compute. split; reflexivity. Qed.

(** ** buildTagStatsPipeline *)

Lemma insert_by_map {A B} (f : A -> B) (le : B -> B -> bool) (x : A) (l : list A) :
  map f (insert_by (fun a b => le (f a) (f b)) x l) = insert_by le (f x) (map f l).
Proof.
  induction l as [|y l IH]; [reflexivity|].
  cbn [insert_by map]. destruct (le (f x) (f y)); [reflexivity|].
  cbn [map]. now rewrite IH.
Qed.

Lemma sort_by_map {A B} (f : A -> B) (le : B -> B -> bool) (l : list A) :
  map f (sort_by (fun a b => le (f a) (f b)) l) = sort_by le (map f l).
Proof.
  induction l as [|x l IH]; [reflexivity|].
  unfold sort_by in *. cbn [foldr map]. now rewrite insert_by_map, IH.
Qed.

Lemma max_of_fold {V} (f : V -> Z) (a : Z) (l : list V) :
  let m := foldr (fun x acc => Z.max (f x) acc) a l in
  a <= m /\ (forall v, In v l -> f v <= m) /\ (m = a \/ exists v, In v l /\ f v = m).
Proof.
  induction l as [|x l IH]; cbn [foldr].
  - split; [lia|]. split; [intros v []|now left].
  - cbn zeta in IH. destruct IH as (Ha & Hall & Hsome).
    set (m := foldr (fun x acc => Z.max (f x) acc) a l) in *.
    split; [lia|]. split.
    + intros v [<-|Hv]; [lia|]. specialize (Hall v Hv). lia.
    + destruct (Z.max_spec (f x) m) as [[_ ->]|[_ ->]].
      * destruct Hsome as [->|(v & Hv & <-)]; [now left|].
        right. exists v. split; [now right|reflexivity].
      * right. exists x. split; [now left|reflexivity].
Qed.

Lemma max_of_spec {V} (f : V -> Z) (d : Z) (l : list V) :
  l <> [] ->
  (forall v, In v l -> f v <= Util.max_of f d l)
  /\ exists v, In v l /\ f v = Util.max_of f d l.
Proof.
  destruct l as [|x l]; [congruence|]. intros _. unfold Util.max_of.
  destruct (max_of_fold f (f x) l) as (Ha & Hall & Hsome). cbn zeta in *.
  split.
  - intros v [<-|Hv]; [exact Ha|now apply Hall].
  - destruct Hsome as [->|(v & Hv & <-)].
    + exists x. split; [now left|reflexivity].
    + exists v. split; [now right|reflexivity].
Qed.

(** X25.  The tag-statistics pipeline built by the helper ranks and cuts
    the tags exactly as the popular-tags route does with the same limit
    (50 when none is given), and adds to each row [lastUsed]: the creation
    time of the most recent record carrying the tag. *)
Theorem buildTagStatsPipeline_rows (limit : option Z) (c : list Meme)
    (out : list Util.TagUse) :
  Util.buildTagStatsPipeline limit c = Ok out ->
  Routes.popularPipeline (default 50 limit) c = Ok (map Util.stat out)
  /\ forall u, In u out ->
       (exists m, In m c /\ In (Api.tag (Util.stat u)) (tags m)
                  /\ createdAt m = Util.lastUsed u)
       /\ (forall m, In m c -> In (Api.tag (Util.stat u)) (tags m) ->
             createdAt m <= Util.lastUsed u).
Proof.
  unfold Util.buildTagStatsPipeline, Routes.popularPipeline, Routes.popularRanked,
    stage_limit.
  destruct (default 50 limit <=? 0); [discriminate|].
  intros [= <-]. split.
  - f_equal.
    set (rows := map_to_list (group_by (unwind c))).
    set (n := Z.to_nat (default 50 limit)).
    transitivity (map Routes.projectTag
                    (map Util.stat
                       (take n (sort_by Util.useOrder (map Util.tagUse rows))))).
    2: { rewrite !map_map. reflexivity. }
    f_equal. rewrite map_take. f_equal.
    change Util.useOrder
      with (fun a b => Routes.popularOrder (Util.stat a) (Util.stat b)).
    rewrite (sort_by_map Util.stat Routes.popularOrder), map_map.
    reflexivity.
  - intros u (r & <- & Hr%In_take%sort_by_In)%in_map_iff.
    apply in_map_iff in Hr as ([k vs] & <- & Hg).
    apply group_by_row in Hg as (-> & v0 & Hv0).
    cbn [Util.projectUse Util.stat Util.lastUsed Util.tagUse Routes.projectTag
         Routes.tagStat Api.tag fst snd].
    assert (Hne : members k (unwind c) <> []).
    { intros He. apply In_members in Hv0. rewrite He in Hv0. destruct Hv0. }
    destruct (max_of_spec createdAt 0 _ Hne) as (Hall & m & Hm & Hmax).
    split.
    + exists m. apply In_members, In_unwind in Hm. tauto.
    + intros m' Hc Ht. apply Hall, In_members, In_unwind. tauto.
Qed.

Lemma buildTagStatsPipeline_rows_witness :
  let c := [Fixtures.stale; Fixtures.twice; Fixtures.quiet1] in
  exists out,
    Util.buildTagStatsPipeline (Some 1) c = Ok out
    /\ Routes.popularPipeline 1 c = Ok (map Util.stat out)
    /\ length out = 1%nat.
Proof.
  intros c. eexists. split; [vm_compute; reflexivity|]. split; [|reflexivity].
  apply (proj1 (buildTagStatsPipeline_rows (Some 1) c _ eq_refl)).
Defined.

(** ** calculatePopularityScore *)

Section PopularityScore.
Local Open Scope Q_scope.

Lemma two_pos (k : Z) : 0 < 2 ^ k.
Proof. apply Qpower_0_lt. reflexivity. Qed.

Lemma two_plus (a b : Z) : 2 ^ (a + b) == 2 ^ a * 2 ^ b.
Proof. apply Qpower_plus. discriminate. Qed.

Lemma two_Z (n : Z) : (0 <= n)%Z -> inject_Z (2 ^ n) == 2 ^ n.
Proof. intros Hn. now rewrite Zpower_Qpower. Qed.

Lemma round_half_even_Z (z : Z) : round_half_even (inject_Z z) = z.
Proof.
  unfold round_half_even. rewrite Qfloor_Z.
  destruct (Qcompare_spec (inject_Z z - inject_Z z) (1 # 2)) as [H|H|H];
    try reflexivity; exfalso; lra.
Qed.

Lemma ilog2_lower (a : Q) : 0 < a -> 2 ^ Double.ilog2 a <= a.
Proof.
  intros Ha. unfold Double.ilog2.
  set (n := Qnum a). set (d := Z.pos (Qden a)).
  destruct (Qle_bool (2 ^ (Z.log2 n - Z.log2 d)) a) eqn:Hb;
    [now apply Qle_bool_iff|].
  assert (Hn : (0 < n)%Z).
  { subst n. destruct a as [an ad]. unfold Qlt in Ha. cbn in *. lia. }
  assert (Hd : (0 < d)%Z) by (subst d; lia).
  pose proof (Z.log2_spec n Hn) as [Hn1 _].
  pose proof (Z.log2_spec d Hd) as [_ Hd2].
  pose proof (Z.log2_nonneg n). pose proof (Z.log2_nonneg d).
  replace (Z.log2 n - Z.log2 d - 1)%Z with (Z.log2 n - Z.succ (Z.log2 d))%Z by lia.
  rewrite Qpower_minus by discriminate.
  rewrite <- !two_Z by lia.
  assert (Ea : a == inject_Z n / inject_Z d).
  { subst n d. destruct a as [an ad]. cbn. apply Qmake_Qdiv. }
  rewrite Ea.
  assert (H1 : inject_Z (2 ^ Z.log2 n) <= inject_Z n) by now rewrite <- Zle_Qle.
  assert (H2 : inject_Z d <= inject_Z (2 ^ Z.succ (Z.log2 d)))
    by (rewrite <- Zle_Qle; lia).
  assert (H3 : 0 < inject_Z d) by (change 0 with (inject_Z 0); now rewrite <- Zlt_Qlt).
  assert (H4 : 0 < inject_Z (2 ^ Z.log2 n)).
  { change 0 with (inject_Z 0). rewrite <- Zlt_Qlt. apply Z.pow_pos_nonneg; lia. }
  set (x := inject_Z (2 ^ Z.log2 n)) in *.
  set (y := inject_Z (2 ^ Z.succ (Z.log2 d))) in *.
  set (u := inject_Z n) in *. set (v := inject_Z d) in *.
  apply Qle_shift_div_r; [lra|].
  assert (E : u / v * y == u * y / v) by (field; lra).
  rewrite E. apply Qle_shift_div_l; [lra|]. nra.
Qed.

Lemma scaled_integer (m k j : Z) :
  (j <= k)%Z -> inject_Z m * 2 ^ k / 2 ^ j == inject_Z (m * 2 ^ (k - j)).
Proof.
  intros Hjk. pose proof (two_pos j).
  rewrite inject_Z_mult, two_Z by lia.
  replace k with ((k - j) + j)%Z at 1 by lia. rewrite two_plus. field. lra.
Qed.

Lemma rnd_at_least (c q : Q) :
  Double.representable c -> 0 < c -> c <= q -> Double.at_least c (Double.rnd q).
Proof.
  intros (m & k & Ec & Hm & Hk) Hc Hq. unfold Double.rnd.
  destruct (Qeq_bool q 0) eqn:Hz; [apply Qeq_bool_iff in Hz; lra|].
  assert (Habs : Qabs q == q) by (apply Qabs_pos; lra).
  set (e := Z.max (Double.ilog2 (Qabs q)) (-1022)).
  set (ulp := 2 ^ (e - 52)).
  assert (Hulp : 0 < ulp) by apply two_pos.
  set (r := Qred (inject_Z (round_half_even (q / ulp)) * ulp)).
  assert (Er : r == inject_Z (round_half_even (q / ulp)) * ulp) by apply Qred_correct.
  assert (Hr : c <= r).
  { rewrite Er. destruct (Z.le_gt_cases (e - 52) k) as [Hle|Hgt].
    - assert (Hi : inject_Z (m * 2 ^ (k - (e - 52))) <= q / ulp).
      { rewrite <- scaled_integer by lia. fold ulp. rewrite <- Ec.
        apply Qmult_le_compat_r; [exact Hq|]. apply Qlt_le_weak, Qinv_lt_0_compat, Hulp. }
      apply round_half_even_mono in Hi. rewrite round_half_even_Z in Hi.
      rewrite Zle_Qle in Hi.
      apply Qle_trans with (inject_Z (m * 2 ^ (k - (e - 52))) * ulp).
      + rewrite <- scaled_integer by lia. fold ulp. rewrite <- Ec.
        apply Qle_lteq. right. field. lra.
      + apply Qmult_le_compat_r; [exact Hi|lra].
    - assert (He : e = Double.ilog2 (Qabs q)) by (subst e; lia).
      assert (Hlow : 2 ^ e <= q).
      { rewrite He. rewrite <- Habs at 2. apply ilog2_lower. lra. }
      assert (Hi : inject_Z (2 ^ 52) <= q / ulp).
      { rewrite two_Z by lia. apply Qle_shift_div_l; [exact Hulp|].
        unfold ulp. rewrite <- two_plus. now replace (52 + (e - 52))%Z with e by lia. }
      apply round_half_even_mono in Hi. rewrite round_half_even_Z in Hi.
      rewrite Zle_Qle in Hi.
      apply Qle_trans with (inject_Z (2 ^ 52) * ulp);
        [|apply Qmult_le_compat_r; [exact Hi|lra]].
      rewrite Ec.
      assert (Hm' : inject_Z m <= inject_Z (2 ^ 53)) by (rewrite <- Zle_Qle; lia).
      assert (Hk' : 2 ^ k <= 2 ^ (e - 52 - 1))
        by (apply Qpower_le_compat_l; [lia|lra]).
      pose proof (two_pos k) as Hkp.
      assert (E2 : inject_Z (2 ^ 52) * ulp == inject_Z (2 ^ 53) * 2 ^ (e - 52 - 1)).
      { unfold ulp. replace (e - 52)%Z with (1 + (e - 52 - 1))%Z at 1 by lia.
        rewrite two_plus. change (2 ^ 1) with 2.
        change (inject_Z (2 ^ 53)) with (inject_Z (2 ^ 52) * 2). ring. }
      rewrite E2.
      assert (0 < inject_Z (2 ^ 53)) by reflexivity.
      set (M := inject_Z (2 ^ 53)) in *. set (A := 2 ^ k) in *.
      set (B := 2 ^ (e - 52 - 1)) in *. nra. }
  destruct (Qle_bool (2 ^ 1024) (Qabs r)).
  - cbn. destruct (Qle_bool 0 q) eqn:H0; [exact I|].
    assert (0 <= q) by lra. apply Qle_bool_iff in H. congruence.
  - exact Hr.
Qed.

Lemma rnd_at_most (c q : Q) :
  Double.representable c -> c < 2 ^ 1024 -> 0 < q -> q <= c ->
  exists r, Double.rnd q = Double.Fin r /\ 0 <= r <= c.
Proof.
  intros (m & k & Ec & Hm & Hk) Hfin Hq Hle. unfold Double.rnd.
  destruct (Qeq_bool q 0) eqn:Hz; [apply Qeq_bool_iff in Hz; lra|].
  assert (Habs : Qabs q == q) by (apply Qabs_pos; lra).
  set (e := Z.max (Double.ilog2 (Qabs q)) (-1022)).
  set (ulp := 2 ^ (e - 52)).
  assert (Hulp : 0 < ulp) by apply two_pos.
  set (r := Qred (inject_Z (round_half_even (q / ulp)) * ulp)).
  assert (Er : r == inject_Z (round_half_even (q / ulp)) * ulp) by apply Qred_correct.
  assert (Hjk : (e - 52 <= k)%Z).
  { destruct (Z.max_spec (Double.ilog2 (Qabs q)) (-1022)) as [[_ E]|[_ E]];
      fold e in E; [lia|].
    assert (Hlow : 2 ^ e <= q).
    { rewrite E. rewrite <- Habs at 2. apply ilog2_lower. lra. }
    assert (Hm' : inject_Z m < inject_Z (2 ^ 53)) by (rewrite <- Zlt_Qlt; lia).
    pose proof (two_pos k) as Hkp.
    assert (Hlt : 2 ^ e < 2 ^ (53 + k)).
    { rewrite two_plus, <- (two_Z 53) by lia.
      apply Qle_lt_trans with c; [lra|]. rewrite Ec.
      apply Qmult_lt_compat_r; assumption. }
    apply Qpower_lt_compat_l_inv in Hlt; [lia|reflexivity]. }
  assert (Hup : inject_Z (round_half_even (q / ulp)) <= inject_Z (m * 2 ^ (k - (e - 52)))).
  { rewrite <- Zle_Qle. rewrite <- (round_half_even_Z (m * 2 ^ (k - (e - 52)))).
    apply round_half_even_mono.
    rewrite <- scaled_integer by lia. fold ulp. rewrite <- Ec.
    apply Qmult_le_compat_r; [exact Hle|]. apply Qlt_le_weak, Qinv_lt_0_compat, Hulp. }
  assert (Hlo : inject_Z 0 <= inject_Z (round_half_even (q / ulp))).
  { rewrite <- Zle_Qle. rewrite <- (round_half_even_Z 0).
    apply round_half_even_mono. change (inject_Z 0) with 0.
    apply Qle_shift_div_l; [exact Hulp|]. lra. }
  change (inject_Z 0) with 0 in Hlo.
  assert (Hr : 0 <= r <= c).
  { rewrite Er. split; [apply Qmult_le_0_compat; lra|].
    apply Qle_trans with (inject_Z (m * 2 ^ (k - (e - 52))) * ulp).
    - apply Qmult_le_compat_r; [exact Hup|lra].
    - rewrite <- scaled_integer by lia. fold ulp. rewrite <- Ec.
      apply Qle_lteq. right. field. lra. }
  destruct (Qle_bool (2 ^ 1024) (Qabs r)) eqn:Hov.
  - apply Qle_bool_iff in Hov. rewrite Qabs_pos in Hov by apply Hr. lra.
  - exists r. split; [reflexivity|exact Hr].
Qed.

Lemma rnd_nonneg (q : Q) : 0 <= q -> Double.at_least 0 (Double.rnd q).
Proof.
  intros Hq. unfold Double.rnd.
  destruct (Qeq_bool q 0); [cbn; lra|].
  set (e := Z.max (Double.ilog2 (Qabs q)) (-1022)).
  set (ulp := 2 ^ (e - 52)).
  assert (Hulp : 0 < ulp) by apply two_pos.
  set (r := Qred (inject_Z (round_half_even (q / ulp)) * ulp)).
  assert (Er : r == inject_Z (round_half_even (q / ulp)) * ulp) by apply Qred_correct.
  assert (Hlo : inject_Z 0 <= inject_Z (round_half_even (q / ulp))).
  { rewrite <- Zle_Qle. rewrite <- (round_half_even_Z 0).
    apply round_half_even_mono. change (inject_Z 0) with 0.
    apply Qle_shift_div_l; [exact Hulp|]. lra. }
  change (inject_Z 0) with 0 in Hlo.
  destruct (Qle_bool (2 ^ 1024) (Qabs r)).
  - cbn. destruct (Qle_bool 0 q) eqn:H0; [exact I|].
    apply Qle_bool_iff in Hq. congruence.
  - cbn. rewrite Er. apply Qmult_le_0_compat; lra.
Qed.

Lemma div_at_least (c c' y : Q) (d : Double.double) :
  Double.at_least c d -> 0 < y -> Double.representable c' -> 0 < c' -> c' <= c / y ->
  Double.at_least c' (Double.div d (Double.Fin y)).
Proof.
  intros Hd Hy Hrep Hc' Hle. destruct d as [r|[]|]; cbn in Hd; try contradiction.
  - cbn [Double.div]. destruct (Qeq_bool y 0) eqn:Hz; [apply Qeq_bool_iff in Hz; lra|].
    apply rnd_at_least; [assumption|assumption|].
    apply Qle_trans with (c / y); [exact Hle|].
    apply Qmult_le_compat_r; [exact Hd|]. apply Qlt_le_weak, Qinv_lt_0_compat, Hy.
  - assert (H : Qle_bool 0 y = true) by (apply Qle_bool_iff; lra).
    unfold Double.div, Double.negative. rewrite H. exact I.
Qed.

Lemma div_nonneg (y : Q) (d : Double.double) :
  Double.at_least 0 d -> 0 < y -> Double.at_least 0 (Double.div d (Double.Fin y)).
Proof.
  intros Hd Hy. destruct d as [r|[]|]; cbn in Hd; try contradiction.
  - cbn [Double.div]. destruct (Qeq_bool y 0) eqn:Hz; [apply Qeq_bool_iff in Hz; lra|].
    apply rnd_nonneg. apply Qle_shift_div_l; [exact Hy|lra].
  - assert (H : Qle_bool 0 y = true) by (apply Qle_bool_iff; lra).
    unfold Double.div, Double.negative. rewrite H. exact I.
Qed.

Lemma add_at_least (c c' y : Q) (d : Double.double) :
  Double.at_least c d -> Double.representable c' -> 0 < c' -> c' <= c + y ->
  Double.at_least c' (Double.add d (Double.Fin y)).
Proof.
  intros Hd Hrep Hc' Hle. destruct d as [r|[]|]; cbn in Hd; try contradiction.
  - cbn [Double.add]. apply rnd_at_least; [assumption|assumption|lra].
  - exact I.
Qed.

Lemma reciprocal_at_most (c u : Q) (x : Double.double) :
  Double.at_least c x -> 0 < c -> Double.representable u -> u < 2 ^ 1024 -> 1 / c <= u ->
  exists r, Double.div (Double.Fin 1) x = Double.Fin r /\ 0 <= r <= u.
Proof.
  intros Hx Hc Hrep Hfin Hle.
  assert (Hcu : 0 < 1 / c) by (apply Qlt_shift_div_l; lra).
  destruct x as [xq|[]|]; cbn in Hx; try contradiction.
  - cbn [Double.div]. destruct (Qeq_bool xq 0) eqn:Hz; [apply Qeq_bool_iff in Hz; lra|].
    apply rnd_at_most; [assumption|assumption| |].
    + apply Qlt_shift_div_l; lra.
    + apply Qle_trans with (1 / c); [|exact Hle].
      apply Qle_shift_div_r; [lra|].
      assert (E : 1 / c * xq == xq / c) by (field; lra).
      rewrite E. apply Qle_shift_div_l; lra.
  - exists 0. split; [reflexivity|lra].
Qed.

Lemma representable_Z (z : Z) : (Z.abs z < 2 ^ 53)%Z -> Double.representable (inject_Z z).
Proof. intros Hz. exists z, 0%Z. split; [|lia]. change (2 ^ 0) with 1. ring. Qed.

Lemma representable_tenth : Double.representable Double.tenth.
Proof.
  exists 3602879701896397%Z, (-55)%Z. split; [reflexivity|]. split; [reflexivity|lia].
Qed.

(** X24.  The recency factor of the popularity score has a floor.  For
    a record at least nine days old the helper returns [3 * upvotes +
    downloads] (as the doubles compute it) times the double nearest to
    0.1, whatever the age; for a record that is not dated in the future
    it returns that weighted sum times a factor between 0.1 and 1.  The
    helper reads the clock once. *)
Theorem popularityScore_floor (upvotes downloads : Double.double) (createdAt : Z) (w : World) :
  let now := clock w (ticks w) in
  let weighted := Double.add (Double.mul upvotes (Double.of_Z 3)) downloads in
  (Z.abs now <= 8640000000000000)%Z ->
  (Z.abs createdAt <= 8640000000000000)%Z ->
  ((9 * 86400000 <= now - createdAt)%Z ->
   (Util.calculatePopularityScore upvotes downloads createdAt w).1
   = Double.mul weighted (Double.rnd (1 # 10)))
  /\ ((0 <= now - createdAt)%Z ->
      exists f,
        (Util.calculatePopularityScore upvotes downloads createdAt w).1
        = Double.mul weighted (Double.Fin f)
        /\ 1 # 10 <= f <= 1)
  /\ ticks (Util.calculatePopularityScore upvotes downloads createdAt w).2
     = S (ticks w).
Proof.
  intros now weighted Hnow Hcreated.
  unfold Util.calculatePopularityScore, Handler.bind, Handler.newDate, Handler.ret.
  cbn [fst snd ticks]. fold now.
  assert (Eday : Double.mul (Double.mul (Double.mul (Double.of_Z 1000) (Double.of_Z 60)) (Double.of_Z 60)) (Double.of_Z 24)
                 = Double.Fin (inject_Z 86400000)) by (vm_compute; reflexivity).
  assert (Eone : Double.of_Z 1 = Double.Fin 1) by (vm_compute; reflexivity).
  assert (Etenth : Double.rnd (1 # 10) = Double.Fin Double.tenth) by (vm_compute; reflexivity).
  rewrite Eday, Eone, Etenth. fold weighted.
  unfold Double.time.
  destruct (Z.leb_spec (Z.abs now) 8640000000000000) as [_|]; [|lia].
  destruct (Z.leb_spec (Z.abs createdAt) 8640000000000000) as [_|]; [|lia].
  cbn [Double.sub].
  set (age := Double.rnd (inject_Z now - inject_Z createdAt)).
  assert (Hday : 0 < inject_Z 86400000) by reflexivity.
  split; [|split; [|reflexivity]].
  - intros Hold.
    assert (H1 : Double.at_least (inject_Z (9 * 86400000)) age).
    { apply rnd_at_least; [apply representable_Z; reflexivity|reflexivity|].
      unfold Qminus. rewrite <- inject_Z_opp, <- inject_Z_plus, <- Zle_Qle. lia. }
    assert (H2 : Double.at_least (inject_Z 9) (Double.div age (Double.Fin (inject_Z 86400000)))).
    { eapply div_at_least; [exact H1|exact Hday|apply representable_Z; reflexivity
                           |reflexivity|]. vm_compute. discriminate. }
    assert (H3 : Double.at_least (inject_Z 10)
                   (Double.add (Double.div age (Double.Fin (inject_Z 86400000))) (Double.Fin 1))).
    { eapply add_at_least; [exact H2|apply representable_Z; reflexivity|reflexivity|].
      vm_compute. discriminate. }
    destruct (reciprocal_at_most (inject_Z 10) Double.tenth _ H3) as (r & -> & Hr);
      [reflexivity|apply representable_tenth|reflexivity|vm_compute; discriminate|].
    cbn [Double.max]. assert (Hb : Qle_bool r Double.tenth = true) by (apply Qle_bool_iff; lra).
    now rewrite Hb.
  - intros Hyoung.
    assert (H1 : Double.at_least 0 age).
    { apply rnd_nonneg. unfold Qminus. rewrite <- inject_Z_opp, <- inject_Z_plus.
      change 0 with (inject_Z 0). rewrite <- Zle_Qle. lia. }
    assert (H2 : Double.at_least 0 (Double.div age (Double.Fin (inject_Z 86400000))))
      by (apply div_nonneg; assumption).
    assert (H3 : Double.at_least (inject_Z 1)
                   (Double.add (Double.div age (Double.Fin (inject_Z 86400000))) (Double.Fin 1))).
    { eapply add_at_least; [exact H2|apply representable_Z; reflexivity|reflexivity|].
      vm_compute. discriminate. }
    destruct (reciprocal_at_most (inject_Z 1) (inject_Z 1) _ H3) as (r & -> & Hr);
      [reflexivity|apply representable_Z; reflexivity|reflexivity
      |vm_compute; discriminate|].
    cbn [Double.max]. change (inject_Z 1) with 1 in Hr.
    assert (Ht : 1 # 10 <= Double.tenth) by (vm_compute; discriminate).
    assert (Ht1 : Double.tenth <= 1) by (vm_compute; discriminate).
    destruct (Qle_bool r Double.tenth) eqn:Hb.
    + exists Double.tenth. split; [reflexivity|]. split; assumption.
    + exists r. split; [reflexivity|]. split; [|apply Hr].
      destruct (Qlt_le_dec Double.tenth r) as [Hlt|Hle]; [lra|].
      apply Qle_bool_iff in Hle. congruence.
Qed.

Lemma popularityScore_floor_witness :
  (Util.calculatePopularityScore (Double.of_Z 1) (Double.of_Z 0)
     (Fixtures.noon - 10 * Fixtures.day) (Fixtures.world Fixtures.noon [])).1
  = Double.mul
      (Double.add (Double.mul (Double.of_Z 1) (Double.of_Z 3)) (Double.of_Z 0))
      (Double.rnd (1 # 10))
  /\ Double.mul
       (Double.add (Double.mul (Double.of_Z 1) (Double.of_Z 3)) (Double.of_Z 0))
       (Double.rnd (1 # 10))
     = Double.Fin (1351079888211149 # 4503599627370496).
Proof.
  split; [|vm_compute; reflexivity].
  apply (proj1 (popularityScore_floor (Double.of_Z 1) (Double.of_Z 0)
                  (Fixtures.noon - 10 * Fixtures.day)
                  (Fixtures.world Fixtures.noon [])
                  ltac:(vm_compute; discriminate) ltac:(vm_compute; discriminate)));
    vm_compute; discriminate.
Defined.

(** The doubles at work: 0.1 is not one tenth, and three times 0.1 is
    0.30000000000000004. *)
Example double_examples :
  Double.rnd (1 # 10) = Double.Fin (3602879701896397 # 36028797018963968)
  /\ Double.mul (Double.of_Z 3) (Double.rnd (1 # 10))
     = Double.Fin (1351079888211149 # 4503599627370496)
  /\ Double.add (Double.rnd (1 # 10)) (Double.rnd (2 # 10))
     = Double.Fin (1351079888211149 # 4503599627370496)
  /\ Double.of_Z (2 ^ 53 + 1) = Double.Fin (inject_Z (2 ^ 53))
  /\ Double.div (Double.of_Z 1) (Double.of_Z 0) = Double.Inf false.
Proof. vm_compute. repeat split. Qed.

End PopularityScore.
